(** * fileTree: the indexed tree, the state holder and the data providers

    A shallow embedding of the tree/state core of the [fileTree] jQuery
    plugin (the version with data providers, state holders per tree id and
    the empty-directory marker).  JavaScript objects are shared and mutated
    in place, so the embedding keeps an explicit store: tree nodes, arrays
    and the index maps live in a [world] and are named by references; every
    function of the plugin is a computation in a state-and-exception monad
    over that world.  Rendering and the DOM are left out. *)

From Stdlib Require Import ZArith.
From stdpp Require Import gmap strings list fin_maps.

Open Scope Z_scope.
Open Scope nat_scope.

(** ** Data model *)

(** [{path, name, type, expandable}].  The plugin never assigns to a field of
    a [fileData] object, so it is kept as a value. *)
Record FileData := {
  path : string;
  name : string;
  type : string;
  expandable : bool
}.

#[global] Instance FileData_eq_dec : EqDecision FileData.
Proof. solve_decision. Defined.

(** References into the store: positions in its lists of objects. *)
Abbreviation nref := nat (only parsing).  (* a tree node object *)
Abbreviation aref := nat (only parsing).  (* an array of tree nodes *)
Abbreviation mref := nat (only parsing).  (* an object used as a map from path to node *)

(** A tree node object: [{fileData: .., children: ..}], where [children] may
    be missing, or the marker [{empty: true}]. *)
Inductive object :=
| Node (fileData : FileData) (children : option aref)
| EmptyMarker.

(** A JSON document of the node shape, as [JSON.stringify] writes a node and
    [JSON.parse] reads it. *)
#[warnings="-register-all"] Inductive json :=
| JNode (fileData : FileData) (children : option (list json))
| JEmpty.

(** A string kept in [localStorage], abstracted by what [JSON.parse] makes of
    it: the node document it denotes (node objects with a whole [fileData],
    and markers); a JSON text whose value is no object of a tree ([null], a
    number, a string, a boolean, an array, an object that has no [fileData]
    and is no marker); or a text that is not JSON at all and makes
    [JSON.parse] throw. *)
Inductive text :=
| Json (v : json)
| NotATree (s : string)
| Malformed (s : string).

Inductive exn :=
| TypeError | RangeError | SyntaxError | ReferenceError | QuotaExceededError.

(** What a lookup in an object can give besides a tree object: a value that
    is not [null] and is no object of a tree (a function or an object that
    the object inherits, a [fileData] object, an array, [true]).  Such a
    value has no [fileData] and no [children]. *)
Inductive value :=
| Ref (n : nat)
| Foreign.

Record world := {
  nodes : list object;
  arrays : list (list nref);
  indexes : list (gmap string nref);
  localStorage : gmap string text;
  console : list string;   (* lines written by console.error, oldest first *)
  alerts : list string;    (* messages shown by alert, oldest first *)
  quota : gmap string text → bool
    (* the browser's limit: whether the storage may come to hold this *)
}.

Definition with_nodes (f : list object → list object) (w : world) : world :=
  {| nodes := f (nodes w); arrays := arrays w; indexes := indexes w;
     localStorage := localStorage w; console := console w; alerts := alerts w;
     quota := quota w |}.
Definition with_arrays (f : list (list nref) → list (list nref)) (w : world) : world :=
  {| nodes := nodes w; arrays := f (arrays w); indexes := indexes w;
     localStorage := localStorage w; console := console w; alerts := alerts w;
     quota := quota w |}.
Definition with_indexes
    (f : list (gmap string nref) → list (gmap string nref)) (w : world) : world :=
  {| nodes := nodes w; arrays := arrays w; indexes := f (indexes w);
     localStorage := localStorage w; console := console w; alerts := alerts w;
     quota := quota w |}.
Definition with_localStorage
    (f : gmap string text → gmap string text) (w : world) : world :=
  {| nodes := nodes w; arrays := arrays w; indexes := indexes w;
     localStorage := f (localStorage w); console := console w; alerts := alerts w;
     quota := quota w |}.
Definition with_console (f : list string → list string) (w : world) : world :=
  {| nodes := nodes w; arrays := arrays w; indexes := indexes w;
     localStorage := localStorage w; console := f (console w); alerts := alerts w;
     quota := quota w |}.
Definition with_alerts (f : list string → list string) (w : world) : world :=
  {| nodes := nodes w; arrays := arrays w; indexes := indexes w;
     localStorage := localStorage w; console := console w; alerts := f (alerts w);
     quota := quota w |}.

(** ** The monad of effects: mutation of the world, and exceptions *)

Inductive outcome (A : Type) :=
| Ok (a : A)
| Throw (e : exn).
Arguments Ok {A} a.
Arguments Throw {A} e.

Definition M (A : Type) : Type := world → outcome A * world.

#[global] Instance M_ret : MRet M := λ A a w, (Ok a, w).
#[global] Instance M_bind : MBind M := λ A B f m w,
  match m w with
  | (Ok a, w') => f a w'
  | (Throw e, w') => (Throw e, w')
  end.

Definition throw {A} (e : exn) : M A := λ w, (Throw e, w).

Fixpoint forEach {A} (l : list A) (f : A → M ()) : M () :=
  match l with
  | [] => mret ()
  | x :: l => f x;; forEach l f
  end.

(** *** Primitive operations on the store *)

Definition new_node (o : object) : M nref := λ w,
  (Ok (length (nodes w)), with_nodes (λ h, h ++ [o]) w).
Definition new_array (elems : list nref) : M aref := λ w,
  (Ok (length (arrays w)), with_arrays (λ h, h ++ [elems]) w).
Definition new_map : M mref := λ w,
  (Ok (length (indexes w)), with_indexes (λ h, h ++ [∅]) w).

(** Reading through a reference that names nothing is reading a property of
    [undefined]. *)
Definition read_node (n : nref) : M object := λ w,
  match nodes w !! n with
  | Some o => (Ok o, w)
  | None => (Throw TypeError, w)
  end.
Definition read_array (a : aref) : M (list nref) := λ w,
  match arrays w !! a with
  | Some elems => (Ok elems, w)
  | None => (Throw TypeError, w)
  end.
Definition write_node (n : nref) (o : object) : M () := λ w,
  (Ok (), with_nodes (λ h, <[n := o]> h) w).
Definition write_array (a : aref) (elems : list nref) : M () := λ w,
  (Ok (), with_arrays (λ h, <[a := elems]> h) w).

(** *** An object made by [{}] and used as a map

    Such an object is kept as one finite map: its own properties under
    their names and, under the name ["__proto__"], the object that has been
    assigned to its prototype, if one has.  ["__proto__"] is never an own
    property of it: assigning to it sets the prototype, reading it gives
    the prototype, and deleting it does nothing.  Until then the prototype
    is [Object.prototype]. *)

Definition the_map (m : mref) (w : world) : gmap string nref :=
  default ∅ (indexes w !! m).

(** The members every object inherits from [Object.prototype] in a
    browser, ["__proto__"] apart. *)
Definition Object_prototype : list string :=
  ["constructor"; "hasOwnProperty"; "isPrototypeOf"; "propertyIsEnumerable";
   "toLocaleString"; "toString"; "valueOf"; "__defineGetter__";
   "__defineSetter__"; "__lookupGetter__"; "__lookupSetter__"].

(** The own properties of a tree object. *)
Definition members (o : option object) : list string :=
  match o with
  | Some (Node _ (Some _)) => ["fileData"; "children"]
  | Some (Node _ None) => ["fileData"]
  | Some EmptyMarker => ["empty"]
  | None => []
  end.

(** Whether [key] is found along the prototype chain of the object kept as
    [i]: in the tree object that has been made its prototype, if one has,
    and then in [Object.prototype]. *)
Definition inherited (N : list object) (i : gmap string nref) (key : string) : bool :=
  match i !! "__proto__" with
  | Some n => bool_decide (key ∈ members (N !! n))
  | None => false
  end || bool_decide (key ∈ Object_prototype).

(** [object[key]]: the own property (or, for ["__proto__"], the tree object
    assigned to the prototype); failing that what is inherited, which is
    never a tree object; failing that [undefined]. *)
Definition property (N : list object) (i : gmap string nref) (key : string)
    : option value :=
  match i !! key with
  | Some n => Some (Ref n)
  | None =>
      if String.eqb key "__proto__" then Some Foreign   (* Object.prototype *)
      else if inherited N i key then Some Foreign
      else None
  end.

Definition map_get (m : mref) (key : string) : M (option value) := λ w,
  (Ok (property (nodes w) (the_map m w) key), w).
Definition map_put (m : mref) (key : string) (n : nref) : M () := λ w,
  (Ok (), with_indexes (λ h, <[m := <[key := n]> (the_map m w)]> h) w).
Definition delete_property (key : string) (i : gmap string nref) : gmap string nref :=
  if String.eqb key "__proto__" then i else delete key i.
Definition map_delete (m : mref) (key : string) : M () := λ w,
  (Ok (), with_indexes (λ h, <[m := delete_property key (the_map m w)]> h) w).

Definition console_error (line : string) : M () := λ w,
  (Ok (), with_console (λ c, c ++ [line]) w).
Definition alert (message : string) : M () := λ w,
  (Ok (), with_alerts (λ c, c ++ [message]) w).

(** [node.children] where it is used as an array: [undefined.forEach] is a
    [TypeError]. *)
Definition children_of (children : option aref) : M (list nref) :=
  match children with
  | Some a => read_array a
  | None => throw TypeError
  end.

(** ** isEmptyNode, sortNodes *)

Definition isEmptyNode (node : object) : bool :=
  match node with
  | EmptyMarker => true
  | Node _ _ => false
  end.

Definition weight (node : object) : M Z :=
  match node with
  | Node fileData _ =>
      if String.eqb (type fileData) "directory" then mret 2%Z
      else mret (if expandable fileData then 1%Z else 0%Z)
  | EmptyMarker => throw TypeError        (* node.fileData is undefined *)
  end.

Definition sortNodes (first second : nref) : M Z :=
  f ← read_node first;
  s ← read_node second;
  ws ← weight s;
  wf ← weight f;
  mret (ws - wf)%Z.

(** ** IndexedFileDataTree *)

Record IndexedFileDataTree := {
  root : nref;
  pathToNodeIndex : mref
}.

(** In a condition a function object is true; [removeFromIndex] tests
    [isEmptyNode] itself, not [isEmptyNode(node)]. *)
Definition truthy_function {A B} (f : A → B) : bool := true.

(** The recursive helpers take [stack], the number of nested calls the engine
    still has room for below the current one; a call beyond it is the
    engine's [RangeError]. *)
Fixpoint index (stack : nat) (pathToNodeIndex : mref) (node : nref) : M () :=
  o ← read_node node;
  if isEmptyNode o then mret ()   (* No need to index that *)
  else
    match o with
    | EmptyMarker => throw TypeError
    | Node fileData children =>
        map_put pathToNodeIndex (path fileData) node;;
        if expandable fileData then
          elems ← children_of children;
          match stack with
          | 0 => forEach elems (λ _, throw RangeError)
          | S stack => forEach elems (index stack pathToNodeIndex)
          end
        else mret ()
    end.

Fixpoint removeFromIndex (stack : nat) (pathToNodeIndex : mref) (node : nref) : M () :=
  if truthy_function isEmptyNode then mret ()
  else
    o ← read_node node;
    match o with
    | EmptyMarker => throw TypeError
    | Node fileData children =>
        map_delete pathToNodeIndex (path fileData);;
        if expandable fileData then
          elems ← children_of children;
          match stack with
          | 0 => forEach elems (λ _, throw RangeError)
          | S stack => forEach elems (removeFromIndex stack pathToNodeIndex)
          end
        else mret ()
    end.

Definition getIndexedFileDataTree (stack : nat) (root : nref) : M IndexedFileDataTree :=
  pathToNodeIndex ← new_map;
  index stack pathToNodeIndex root;;
  mret {| root := root; pathToNodeIndex := pathToNodeIndex |}.

(** A property read on [null] or [undefined] is a [TypeError]. *)
Definition deref (node : option nref) : M nref :=
  match node with
  | Some n => mret n
  | None => throw TypeError
  end.

(** What [get] returned, where the caller goes on to read a property of its
    [fileData] or of its [children]: on [null] the first read throws; a
    value that is no tree object has neither, so the first read gives
    [undefined] and the second throws.  A [TypeError] either way, with
    nothing done in between. *)
Definition as_node (node : option value) : M nref :=
  match node with
  | Some (Ref n) => mret n
  | Some Foreign => throw TypeError
  | None => throw TypeError
  end.

(** [node.fileData] and [node.children] of a node object; the marker has no
    [fileData], and a property of [undefined] cannot be read. *)
Definition fields (n : nref) : M (FileData * option aref) :=
  o ← read_node n;
  match o with
  | Node fileData children => mret (fileData, children)
  | EmptyMarker => throw TypeError
  end.

Definition get (this : IndexedFileDataTree) (path : string) : M (option value) :=
  node ← map_get (pathToNodeIndex this) path;
  match node with
  | None =>
      console_error ("No node was found by path: " +:+ path);;
      mret None
  | Some n => mret (Some n)
  end.

(** [add] calls [get(parentPath)], not [this.get(parentPath)], and no variable
    [get] is in scope. Nothing in the plugin calls [add]. *)
Definition add (stack : nat) (this : IndexedFileDataTree)
    (parentPath : string) (node : nref) : M () :=
  throw ReferenceError.

Definition set (stack : nat) (this : IndexedFileDataTree)
    (parentPath : string) (nodes : aref) : M nref :=
  node ← get this parentPath;
  node ← as_node node;
  '(fileData, children) ← fields node;
  (if expandable fileData then
     elems ← children_of children;
     forEach elems (removeFromIndex stack (pathToNodeIndex this))
   else mret ());;
  write_node node (Node fileData (Some nodes));;
  elems ← read_array nodes;
  forEach elems (index stack (pathToNodeIndex this));;
  mret node.

Definition clear (stack : nat) (this : IndexedFileDataTree)
    (parentPath : string) : M () :=
  node ← get this parentPath;
  node ← as_node node;
  '(fileData, children) ← fields node;
  (if expandable fileData then
     elems ← children_of children;
     forEach elems (removeFromIndex stack (pathToNodeIndex this))
   else mret ());;
  empty ← new_array [];
  write_node node (Node fileData (Some empty)).

(** ** JSON *)

(** [JSON.stringify] of a node object.  The walk keeps the node objects and
    the arrays it is inside of; meeting one of them again is a cycle, which
    it refuses with a [TypeError].  It stops with a [RangeError] when the
    nesting exceeds [stack]. *)
Fixpoint stringify (stack : nat) (inside : list nref) (inside_arrays : list aref)
    (value : nref) : M json :=
  if bool_decide (value ∈ inside) then throw TypeError
  else
    o ← read_node value;
    match o with
    | EmptyMarker => mret JEmpty
    | Node fileData None => mret (JNode fileData None)
    | Node fileData (Some a) =>
        if bool_decide (a ∈ inside_arrays) then throw TypeError
        else
          elems ← read_array a;
          children ← match stack with
                     | 0 => mapM (λ _, throw RangeError) elems
                     | S stack =>
                         mapM (stringify stack (value :: inside) (a :: inside_arrays))
                           elems
                     end;
          mret (JNode fileData (Some children))
    end.

Definition JSON_stringify (stack : nat) (value : nref) : M json :=
  stringify stack [] [] value.

(** The objects a document denotes, built in the store: what [JSON.parse]
    returns, and what an object literal of that shape evaluates to. *)
Fixpoint construct (v : json) : M nref :=
  match v with
  | JEmpty => new_node EmptyMarker
  | JNode fileData None => new_node (Node fileData None)
  | JNode fileData (Some children) =>
      elems ← mapM construct children;
      a ← new_array elems;
      new_node (Node fileData (Some a))
  end.

(** A value that is no object of a tree is not kept in the store.  The
    reference to it names nothing there, so that reading [fileData] or
    [children] through it fails as it fails on the value. *)
Definition no_tree_object : M nref := λ w, (Ok (length (nodes w)), w).

Definition JSON_parse (s : text) : M nref :=
  match s with
  | Json v => construct v
  | NotATree _ => no_tree_object
  | Malformed _ => throw SyntaxError
  end.

(** ** LocalStorageStateHolder *)

Definition localStorage_getItem (key : string) : M (option text) := λ w,
  (Ok (localStorage w !! key), w).
(** [setItem] throws when the browser does not take the value: the storage
    is then as it was. *)
Definition localStorage_setItem (key : string) (value : text) : M () := λ w,
  if quota w (<[key := value]> (localStorage w))
  then (Ok (), with_localStorage (λ s, <[key := value]> s) w)
  else (Throw QuotaExceededError, w).

Record LocalStorageStateHolder := {
  storageKey : string;
  tree : IndexedFileDataTree
}.

Definition default_fileData : FileData :=
  {| path := ""; name := ""; type := "directory"; expandable := true |}.

Definition initState (stack : nat) (storageKey : string) : M nref :=
  children ← new_array [];
  rootNode ← new_node (Node default_fileData (Some children));
  s ← JSON_stringify stack rootNode;
  localStorage_setItem storageKey (Json s);;
  mret rootNode.

Definition getLocalStorageStateHolder (stack : nat) (id : string)
    : M LocalStorageStateHolder :=
  let storageKey := "ru.kozobrodov.fileTree$" +:+ id in
  stateString ← localStorage_getItem storageKey;
  match stateString with
  | Some s =>
      r ← JSON_parse s;
      t ← getIndexedFileDataTree stack r;
      mret {| storageKey := storageKey; tree := t |}
  | None =>
      r ← initState stack storageKey;
      t ← getIndexedFileDataTree stack r;
      mret {| storageKey := storageKey; tree := t |}
  end.

Definition getCurrentState (this : LocalStorageStateHolder) : nref :=
  root (tree this).

Definition saveState (stack : nat) (this : LocalStorageStateHolder) : M () :=
  s ← JSON_stringify stack (getCurrentState this);
  localStorage_setItem (storageKey this) (Json s).

Definition addNodes (stack : nat) (this : LocalStorageStateHolder)
    (path : string) (children : aref) : M nref :=
  updatedNode ← set stack (tree this) path children;
  saveState stack this;;
  mret updatedNode.

Definition clearNode (stack : nat) (this : LocalStorageStateHolder)
    (path : string) : M () :=
  clear stack (tree this) path;;
  saveState stack this.

(** ** Arrays: push and sort *)

Definition Array_push (a : aref) (x : nref) : M () :=
  elems ← read_array a;
  write_array a (elems ++ [x]).

(** [Array.prototype.sort] with a comparator.  The language requires the sort
    to be stable, and for a consistent comparator every stable sort returns
    the same array; it is written here as an insertion sort.  An element is
    placed before the first one it does not compare greater than. *)
Fixpoint sort_insert (compare : nref → nref → M Z) (x : nref) (l : list nref)
    : M (list nref) :=
  match l with
  | [] => mret [x]
  | y :: l' =>
      c ← compare x y;
      if (c <=? 0)%Z then mret (x :: y :: l')
      else r ← sort_insert compare x l'; mret (y :: r)
  end.

Fixpoint sort_list (compare : nref → nref → M Z) (l : list nref) : M (list nref) :=
  match l with
  | [] => mret []
  | x :: l => s ← sort_list compare l; sort_insert compare x s
  end.

Definition Array_sort (a : option aref) (compare : nref → nref → M Z) : M () :=
  match a with
  | None => throw TypeError
  | Some a =>
      elems ← read_array a;
      s ← sort_list compare elems;
      write_array a s
  end.

(** ** The data providers *)

Record DataProvider := {
  list_children : string → (aref → M ()) → M () → M ()
}.

Module JsonDataProvider.

Record t := { tree : IndexedFileDataTree }.

(** [load]: the document fetched from [jsonPath] arrives parsed. *)
Definition load (stack : nat) (data : json) (callback : t → M ()) : M () :=
  d ← construct data;
  tr ← getIndexedFileDataTree stack d;
  callback {| tree := tr |}.

Definition list (this : t) (path : string) (callback : aref → M ()) : M () :=
  node ← get (tree this) path;
  node ← as_node node;
  '(_, data) ← fields node;
  Array_sort data sortNodes;;
  data ← deref data;
  callback data.

Definition provider (this : t) : DataProvider :=
  {| list_children := λ path callback _, list this path callback |}.

End JsonDataProvider.

Module ServiceDataProvider.

(** What the service answers to a request. *)
Inductive reply :=
| Done (data : list FileData)
| Fail (status : Z) (statusText responseText : string).

Record t := { url : string; service : string → reply }.

Definition load (this : t) (callback : M ()) : M () := callback.

Definition mapToTreeNode (data : list FileData) (callback : aref → M ()) : M () :=
  nodes ← new_array [];
  forEach data (λ fileData,
    children ← new_array [];
    node ← new_node (Node fileData (Some children));
    Array_push nodes node);;
  Array_sort (Some nodes) sortNodes;;
  callback nodes.

Definition list (this : t) (path : string)
    (callback : aref → M ()) (errorCallback : M ()) : M () :=
  match service this (url this +:+ path) with
  | Done data => mapToTreeNode data callback
  | Fail status statusText responseText =>
      (if (status =? 501)%Z || (status =? 404)%Z then alert responseText
       else console_error statusText;; console_error "[object Object]");;
      errorCallback
  end.

Definition provider (this : t) : DataProvider :=
  {| list_children := list this |}.

End ServiceDataProvider.

(** ** Core: the part of the click handler that touches the state *)

Record settings := {
  stateHolder : LocalStorageStateHolder;
  dataProvider : DataProvider
}.

(** Copies tree nodes without their children. *)
Definition copyChildren (children : aref) : M aref :=
  result ← new_array [];
  elems ← read_array children;
  forEach elems (λ child,
    o ← read_node child;
    if isEmptyNode o then Array_push result child   (* No need to copy that *)
    else
      '(fileData, _) ← fields child;
      copy ← (if expandable fileData then
                c ← new_array [];
                new_node (Node fileData (Some c))
              else new_node (Node fileData None));
      Array_push result copy);;
  mret result.

(** The callback given to [list] on expanding. Rendering is left out. *)
Definition onListed (stack : nat) (settings : settings) (path : string)
    (data : aref) : M () :=
  elems ← read_array data;
  (if length elems =? 0 then
     emptyNode ← new_node EmptyMarker;
     Array_push data emptyNode
   else mret ());;
  copies ← copyChildren data;
  addNodes stack (stateHolder settings) path copies;;
  mret ().

(** [nested] tells whether the clicked element already shows a children
    container. *)
Definition expandableNodeClickHandler (stack : nat) (settings : settings)
    (nested : bool) (path : string) : M () :=
  if nested then
    (* Collapse *)
    clearNode stack (stateHolder settings) path
  else
    (* Expand *)
    list_children (dataProvider settings) path
      (onListed stack settings path) (mret ()).

(** * Vocabulary of the specification *)

(** The browser takes whatever is written to the storage. *)
Definition roomy (w : world) : Prop := ∀ s, quota w s = true.

(** The world after [get] has reported a miss for [path]. *)
Definition miss (path : string) (w : world) : world :=
  with_console (λ c, c ++ ["No node was found by path: " +:+ path]) w.

Definition with_map (m : mref) (i : gmap string nref) (w : world) : world :=
  with_indexes (λ h, <[m := i]> h) w.

(** The world with more objects allocated. *)
Definition grow (N2 : list object) (A2 : list (list nref)) (w : world) : world :=
  with_arrays (λ A, A ++ A2) (with_nodes (λ N, N ++ N2) w).

(** The [fileData] of the node object a reference names, if it names one. *)
Definition fileData_at (N : list object) (n : nref) : option FileData :=
  match N !! n with
  | Some (Node fileData _) => Some fileData
  | _ => None
  end.

(** What an index says: for every path it holds, the [fileData] of the node
    kept under that path.  Two indexes with the same view have the same set
    of paths and equal [fileData] at every path. *)
Definition view (w : world) (m : mref) : gmap string (option FileData) :=
  fileData_at (nodes w) <$> the_map m w.

(** [shape k N A n v]: in the store with node objects [N] and arrays [A], the
    graph under node [n] is a tree, [v] is the document it spells, and its
    node objects with [fileData] have references from [k] on ([k = 0] asks
    nothing of them). *)
Inductive shape (k : nat) (N : list object) (A : list (list nref))
    : nref → json → Prop :=
| shape_marker n :
    N !! n = Some EmptyMarker → shape k N A n JEmpty
| shape_childless n fileData :
    k ≤ n →
    N !! n = Some (Node fileData None) → shape k N A n (JNode fileData None)
| shape_parent n fileData a elems children :
    k ≤ n →
    N !! n = Some (Node fileData (Some a)) →
    A !! a = Some elems →
    shapes k N A elems children →
    shape k N A n (JNode fileData (Some children))
with shapes (k : nat) (N : list object) (A : list (list nref))
    : list nref → list json → Prop :=
| shapes_nil : shapes k N A [] []
| shapes_cons n ns v vs :
    shape k N A n v → shapes k N A ns vs → shapes k N A (n :: ns) (v :: vs).

Scheme shape_mut := Minimality for shape Sort Prop
  with shapes_mut := Minimality for shapes Sort Prop.
Combined Scheme shape_shapes_ind from shape_mut, shapes_mut.

(** Nesting depth: the number of nested calls a walk over the document makes
    below the call on its root. *)
Fixpoint height (v : json) : nat :=
  match v with
  | JNode _ (Some children) =>
      foldr (λ c h, Nat.max (S (height c)) h) 0 children
  | _ => 0
  end.

(** The node objects and the arrays a walk is inside of spell documents
    deeper than [h]: none of them is met again in a document of depth
    [h]. *)
Definition below (N : list object) (A : list (list nref)) (h : nat)
    (inside : list nref) (inside_arrays : list aref) : Prop :=
  (∀ s v, s ∈ inside → shape 0 N A s v → h < height v) ∧
  (∀ a es vs, a ∈ inside_arrays → A !! a = Some es → shapes 0 N A es vs →
     h < foldr (λ c h, Nat.max (S (height c)) h) 0 vs).

(** Every expandable node of the document carries a [children] array. *)
Fixpoint indexable (v : json) : bool :=
  match v with
  | JEmpty => true
  | JNode fileData None => negb (expandable fileData)
  | JNode fileData (Some children) => forallb indexable children
  end.

(** The entries [index] writes for a document, in the order it writes them. *)
Fixpoint entries (v : json) : list (string * FileData) :=
  match v with
  | JEmpty => []
  | JNode fileData children =>
      (path fileData, fileData) ::
      (if expandable fileData then
         match children with
         | Some children => flat_map entries children
         | None => []
         end
       else [])
  end.

(** Writing entries into a view, one after the other. *)
Definition put_all (es : list (string * FileData))
    (i : gmap string (option FileData)) : gmap string (option FileData) :=
  foldl (λ i e, <[e.1 := Some e.2]> i) i es.

(** A node object an index may hold: it has [fileData], and a [children]
    array when it is expandable. *)
Definition node_ok (N : list object) (A : list (list nref)) (n : nref) : bool :=
  match N !! n with
  | Some (Node fileData children) =>
      if expandable fileData then
        match children with
        | Some a => bool_decide (is_Some (A !! a))
        | None => false
        end
      else true
  | _ => false
  end.

(** The tree object belongs to the world: its index map exists and holds
    such node objects only. *)
Definition tree_ok (w : world) (this : IndexedFileDataTree) : Prop :=
  pathToNodeIndex this < length (indexes w) ∧
  map_Forall (λ _ n, node_ok (nodes w) (arrays w) n = true)
    (the_map (pathToNodeIndex this) w).

(** The paths of the node objects reached from [n] through [children], the
    markers left out. *)
Fixpoint attached (stack : nat) (w : world) (n : nref) : gset string :=
  match nodes w !! n with
  | Some (Node fileData children) =>
      {[ path fileData ]} ∪
      match children, stack with
      | Some a, S stack =>
          ⋃ (attached stack w <$> default [] (arrays w !! a))
      | _, _ => ∅
      end
  | _ => ∅
  end.

(** The invariant of the path index: it holds exactly the paths of the nodes
    attached under the root. *)
Definition index_exact (stack : nat) (w : world) (this : IndexedFileDataTree) : Prop :=
  dom (the_map (pathToNodeIndex this) w) = attached stack w (root this).

(** The three classes of [sortNodes]. *)
Definition is_directory (fileData : FileData) : bool :=
  String.eqb (type fileData) "directory".
Definition is_archive (fileData : FileData) : bool :=
  negb (is_directory fileData) && expandable fileData.
Definition is_plain (fileData : FileData) : bool :=
  negb (is_directory fileData) && negb (expandable fileData).

(** Directories, then the other expandable items, then the rest, each class
    in its original order. *)
Definition by_class {X} (f : X → option FileData) (l : list X) : list X :=
  filter (λ x, from_option is_directory false (f x) = true) l ++
  filter (λ x, from_option is_archive false (f x) = true) l ++
  filter (λ x, from_option is_plain false (f x) = true) l.

(** The caller builds the objects of a children sequence and hands the array
    to [set]. *)
Definition set_children (stack : nat) (this : IndexedFileDataTree)
    (parentPath : string) (children : list json) : M nref :=
  elems ← mapM construct children;
  nodes ← new_array elems;
  set stack this parentPath nodes.

(** The round trip: the root of a tree is serialized, and a new tree is made
    from the serialized form. *)
Definition reload (stack : nat) (this : IndexedFileDataTree) : M IndexedFileDataTree :=
  s ← JSON_stringify stack (root this);
  r ← JSON_parse (Json s);
  getIndexedFileDataTree stack r.

(** The document of the default root, and the world in which a state holder
    for a tree without persisted state has just been made. *)
Definition default_root : json := JNode default_fileData (Some []).

Definition initialized (key : string) (w : world) : world :=
  {| nodes := nodes w ++ [Node default_fileData (Some (length (arrays w)))];
     arrays := arrays w ++ [[]];
     indexes := indexes w ++ [{[ "" := length (nodes w) ]}];
     localStorage := <[key := Json default_root]> (localStorage w);
     console := console w;
     alerts := alerts w;
     quota := quota w |}.

(** The weight [sortNodes] gives to a node, and the sort it drives, written
    over plain lists. *)
Definition class_weight (fileData : FileData) : Z :=
  if is_directory fileData then 2%Z
  else if expandable fileData then 1%Z else 0%Z.

Fixpoint insert_by {X} (wt : X → Z) (x : X) (l : list X) : list X :=
  match l with
  | [] => [x]
  | y :: l' =>
      if (wt y - wt x <=? 0)%Z then x :: y :: l' else y :: insert_by wt x l'
  end.

Definition sort_by {X} (wt : X → Z) (l : list X) : list X :=
  foldr (insert_by wt) [] l.

Definition weight_at (N : list object) (n : nref) : Z :=
  from_option class_weight 0%Z (fileData_at N n).

(** Writing entries into an index map, one after the other. *)
Definition puts (rs : list (string * nref)) (i : gmap string nref) : gmap string nref :=
  foldl (λ i r, <[r.1 := r.2]> i) i rs.

(** An index entry [r] for an entry [e] of a document: the same path, and a
    reference, from [k] on, to a node object with the [fileData] of [e]. *)
Definition entry_of (k : nat) (N : list object) (A : list (list nref))
    (r : string * nref) (e : string * FileData) : Prop :=
  r.1 = e.1 ∧ fileData_at N r.2 = Some e.2 ∧ k ≤ r.2 ∧ node_ok N A r.2 = true.

(** What a run of [index] over documents with entries [es] does to the world:
    only the index map [m] changes, and what is written into it is one
    entry for each of [es], in that order. *)
Definition index_post (k : nat) (N : list object) (A : list (list nref)) (m : mref)
    (es : list (string * FileData)) (w w' : world) : Prop :=
  ∃ rs, w' = with_map m (puts rs (the_map m w)) w ∧ Forall2 (entry_of k N A) rs es.

(** [index] changes nothing but the index map, and whatever it puts there
    is a node object with [fileData], never a marker. *)
Definition puts_nodes_only (m : mref) (w w' : world) : Prop :=
  nodes w' = nodes w ∧
  ∀ q r, the_map m w' !! q = Some r →
    the_map m w !! q = Some r ∨ is_Some (fileData_at (nodes w) r).

(** For a weight and three predicates on the elements of a list: the element
    is in exactly one class, and its weight says which. *)
Definition classified {X} (wt : X → Z) (P2 P1 P0 : X → bool) (x : X) : Prop :=
  (P2 x = true ∧ P1 x = false ∧ P0 x = false ∧ wt x = 2%Z) ∨
  (P2 x = false ∧ P1 x = true ∧ P0 x = false ∧ wt x = 1%Z) ∨
  (P2 x = false ∧ P1 x = false ∧ P0 x = true ∧ wt x = 0%Z).

(** ** Sample data *)

Definition blank : world :=
  {| nodes := []; arrays := []; indexes := []; localStorage := ∅;
     console := []; alerts := []; quota := λ _, true |}.

Definition dir_a : FileData :=
  {| path := "/a"; name := "a"; type := "directory"; expandable := true |}.
Definition plain_b : FileData :=
  {| path := "/b.txt"; name := "b.txt"; type := "text/plain"; expandable := false |}.
Definition zip_c : FileData :=
  {| path := "/c.zip"; name := "c.zip"; type := "application/zip"; expandable := true |}.

(** A world in which the text stored for tree "A" is not JSON. *)
Definition corrupt_A : world :=
  with_localStorage (λ _, {[ "ru.kozobrodov.fileTree$A" := Malformed "{" ]}) blank.

(** Worlds in which the text stored for tree "A" is JSON, but not the
    document of a tree: the text [null], and a directory that has no
    [children]. *)
Definition misshapen_A : world :=
  with_localStorage (λ _, {[ "ru.kozobrodov.fileTree$A" := NotATree "null" ]}) blank.
Definition childless_A : world :=
  with_localStorage (λ _, {[ "ru.kozobrodov.fileTree$A" := Json (JNode dir_a None) ]}) blank.

(** A world in which nothing is stored and the browser takes nothing. *)
Definition full : world :=
  {| nodes := []; arrays := []; indexes := []; localStorage := ∅;
     console := []; alerts := []; quota := λ _, false |}.

(** The world after a first visit: a state holder for tree "A" made in the
    blank world, and its tree. *)
Definition fresh_A : world := (getLocalStorageStateHolder 8 "A" blank).2.
Definition tree_A : IndexedFileDataTree := {| root := 0; pathToNodeIndex := 0 |}.
Definition holder_A : LocalStorageStateHolder :=
  {| storageKey := "ru.kozobrodov.fileTree$A"; tree := tree_A |}.

(** The same world with an empty array in it, as a provider would hand to
    the callback for an empty directory, and settings around [holder_A]. *)
Definition listing_A : world := (new_array [] fresh_A).2.
Definition settings_A : settings :=
  {| stateHolder := holder_A;
     dataProvider := {| list_children := λ _ _ _, mret () |} |}.

(** A static document with a plain file, a directory and an archive under
    the root, the world after the static-document provider has loaded it,
    and the provider. *)
Definition document_A : json :=
  JNode default_fileData
    (Some [JNode plain_b None; JNode dir_a (Some []); JNode zip_c (Some [])]).
Definition loaded_A : world :=
  (JsonDataProvider.load 8 document_A (λ _, mret ()) blank).2.
Definition provider_A : JsonDataProvider.t :=
  {| JsonDataProvider.tree := {| root := 3; pathToNodeIndex := 0 |} |}.

(** A service that lists the same three files for every path. *)
Definition service_A : ServiceDataProvider.t :=
  {| ServiceDataProvider.url := "/list?path=";
     ServiceDataProvider.service :=
       λ _, ServiceDataProvider.Done [plain_b; dir_a; zip_c] |}.

(** A fresh store for tree "A", the root expanded with the directory [/a],
    then collapsed again. *)
Definition expand_then_collapse : M LocalStorageStateHolder :=
  holder ← getLocalStorageStateHolder 8 "A";
  a ← construct (JNode dir_a (Some []));
  children ← new_array [a];
  addNodes 8 holder "" children;;
  clearNode 8 holder "";;
  mret holder.

(** A fresh store for tree "A", the root expanded with the directory [/a],
    then expanded twice more with the file [/b.txt], the children built anew
    for each call. *)
Definition expand_then_set_twice : M LocalStorageStateHolder :=
  holder ← getLocalStorageStateHolder 8 "A";
  set_children 8 (tree holder) "" [JNode dir_a (Some [])];;
  set_children 8 (tree holder) "" [JNode plain_b None];;
  set_children 8 (tree holder) "" [JNode plain_b None];;
  mret holder.

(** The same, followed by a reload of the serialized root into a new tree. *)
Definition expand_collapse_reload : M (IndexedFileDataTree * IndexedFileDataTree) :=
  holder ← expand_then_collapse;
  reloaded ← reload 8 (tree holder);
  mret (tree holder, reloaded).

(** * The earlier version of the indexed tree

    The tree of [js/fileTree.js], written before the marker for an empty
    directory was brought in: [index] and [removeFromIndex] do not test for
    a marker, and reading [fileData.path] of an object without [fileData]
    throws. *)

Module Legacy.

Fixpoint index (stack : nat) (pathToNodeIndex : mref) (node : nref) : M () :=
  '(fileData, children) ← fields node;
  map_put pathToNodeIndex (path fileData) node;;
  if expandable fileData then
    elems ← children_of children;
    match stack with
    | 0 => forEach elems (λ _, throw RangeError)
    | S stack => forEach elems (index stack pathToNodeIndex)
    end
  else mret ().

Fixpoint removeFromIndex (stack : nat) (pathToNodeIndex : mref) (node : nref) : M () :=
  '(fileData, children) ← fields node;
  map_delete pathToNodeIndex (path fileData);;
  if expandable fileData then
    elems ← children_of children;
    match stack with
    | 0 => forEach elems (λ _, throw RangeError)
    | S stack => forEach elems (removeFromIndex stack pathToNodeIndex)
    end
  else mret ().

Definition get (this : IndexedFileDataTree) (path : string) : M (option value) :=
  node ← map_get (pathToNodeIndex this) path;
  match node with
  | None =>
      console_error ("No node was found by path: " +:+ path);;
      mret None
  | Some n => mret (Some n)
  end.

Definition set (stack : nat) (this : IndexedFileDataTree)
    (parentPath : string) (nodes : aref) : M nref :=
  node ← get this parentPath;
  node ← as_node node;
  '(fileData, children) ← fields node;
  (if expandable fileData then
     elems ← children_of children;
     forEach elems (removeFromIndex stack (pathToNodeIndex this))
   else mret ());;
  write_node node (Node fileData (Some nodes));;
  elems ← read_array nodes;
  forEach elems (index stack (pathToNodeIndex this));;
  mret node.

Definition clear (stack : nat) (this : IndexedFileDataTree)
    (parentPath : string) : M () :=
  node ← get this parentPath;
  node ← as_node node;
  '(fileData, children) ← fields node;
  (if expandable fileData then
     elems ← children_of children;
     forEach elems (removeFromIndex stack (pathToNodeIndex this))
   else mret ());;
  empty ← new_array [];
  write_node node (Node fileData (Some empty)).

End Legacy.

(** * Vocabulary of the further properties *)

(** A computation keeps a relation between the world before it and the world
    after it, however it ends. *)
Definition keeps {A} (R : world → world → Prop) (m : M A) : Prop :=
  ∀ w, R w (m w).2.

(** The storage is as it was. *)
Definition same_storage (w w' : world) : Prop :=
  localStorage w' = localStorage w.

(** The storage is as it was, except under [key]. *)
Definition storage_but (key : string) (w w' : world) : Prop :=
  ∀ k, k ≠ key → localStorage w' !! k = localStorage w !! k.

(** Every path the index map [m] held is still in it. *)
Definition index_grows (m : mref) (w w' : world) : Prop :=
  dom (the_map m w) ⊆ dom (the_map m w').

(** A world in which the children of the root of tree "A" have been built
    (the directory [/a]) and wait in array 2 to be attached. *)
Definition listed_A : world :=
  ((a ← construct (JNode dir_a (Some [])); new_array [a]) fresh_A).2.

(** The index maps are as they were. *)
Definition same_indexes (w w' : world) : Prop :=
  indexes w' = indexes w.

(** Every key of the index map [m] is the path of the node kept under it. *)
Definition keys_are_paths (m : mref) (w : world) : Prop :=
  map_Forall (λ q r, path <$> fileData_at (nodes w) r = Some q) (the_map m w).

#[local] Instance keys_are_paths_dec m w : Decision (keys_are_paths m w).
Proof. apply map_Forall_dec. intros q r. simpl. apply _. Defined.

(** The node objects are as they were, and whatever the index map [m] has
    gained is kept under the path of the node. *)
Definition puts_by_path (m : mref) (w w' : world) : Prop :=
  nodes w' = nodes w ∧
  ∀ q r, the_map m w' !! q = Some r →
    the_map m w !! q = Some r ∨ path <$> fileData_at (nodes w) r = Some q.

(** The document of an object without what is below it: a marker, or the
    [fileData] with an empty [children] array when it is expandable and with
    no [children] when it is not. *)
Definition top (o : object) : json :=
  match o with
  | EmptyMarker => JEmpty
  | Node fileData _ => JNode fileData (if expandable fileData then Some [] else None)
  end.

(** The world after the static-document provider has loaded a document whose
    root has a marker for its only child, and the provider. *)
Definition marked_A : world :=
  (JsonDataProvider.load 8 (JNode default_fileData (Some [JEmpty])) (λ _, mret ()) blank).2.
Definition provider_marked_A : JsonDataProvider.t :=
  {| JsonDataProvider.tree := {| root := 1; pathToNodeIndex := 0 |} |}.

(** The document of a node with this [fileData] and nothing below it. *)
Definition collapsed (fileData : FileData) : json := top (Node fileData None).

(** Deleting the paths of entries from an index map, one after the other. *)
Definition removes (es : list (string * FileData)) (i : gmap string nref)
    : gmap string nref :=
  foldl (λ i e, delete_property e.1 i) i es.

(** The document has no marker in it. *)
Fixpoint marker_free (v : json) : bool :=
  match v with
  | JEmpty => false
  | JNode _ None => true
  | JNode _ (Some children) => forallb marker_free children
  end.

(** A world in which [/a] is attached under the root of tree "A" and
    indexed. *)
Definition expanded_A : world := (set 8 tree_A "" 2 listed_A).2.

(** The same world after another listing of the root has been built: the
    file [/b.txt], node 2, waits in array 3. *)
Definition relisted_A : world :=
  ((b ← construct (JNode plain_b None); new_array [b]) expanded_A).2.

(** A world of tree "A" in which a listing waits in array 2 whose only
    element, a file with a [children] array of its own, has the root for
    its child. *)
Definition cyclic_A : world :=
  ((a ← new_array [0]; x ← new_node (Node plain_b (Some a)); new_array [x]) fresh_A).2.

(** The node objects and the arrays are as they were. *)
Definition same_objects (w w' : world) : Prop :=
  nodes w' = nodes w ∧ arrays w' = arrays w.


(** The world of tree "A" after the static-document provider has loaded, on
    top of it, a document that is one empty directory; the provider; and
    settings with the two. *)
Definition static_A : world :=
  (JsonDataProvider.load 8 default_root (λ _, mret ()) fresh_A).2.
Definition provider_static_A : JsonDataProvider.t :=
  {| JsonDataProvider.tree := {| root := 1; pathToNodeIndex := 1 |} |}.
Definition settings_static_A : settings :=
  {| stateHolder := holder_A;
     dataProvider := JsonDataProvider.provider provider_static_A |}.

(** What [get] finds in a tree whose index holds the entries [es] of a
    document and nothing else: at the path of an entry it returns, without
    logging, a node with the [fileData] of the last entry that has the
    path; at every other path it returns no node. *)
Definition finds (this : IndexedFileDataTree) (es : list (string * FileData))
    (w : world) : Prop :=
  ∀ q, match last (filter (λ e, e.1 = q) es) with
       | Some e => ∃ n, get this q w = (Ok (Some (Ref n)), w) ∧
                        fileData_at (nodes w) n = Some e.2
       | None => ∀ n, (get this q w).1 ≠ Ok (Some (Ref n))
       end.

(** The storage, the console and the alerts are as they were: nothing has
    been persisted, logged or shown. *)
Definition unheard (w w' : world) : Prop :=
  localStorage w' = localStorage w ∧ console w' = console w ∧ alerts w' = alerts w.

(** Whatever [m] throws satisfies [P]. *)
Definition throws {A} (P : exn → Prop) (m : M A) : Prop :=
  ∀ w, match (m w).1 with Ok _ => True | Throw e => P e end.

(** The exceptions of the operations on a tree and on a state holder. *)
Definition operational (e : exn) : Prop :=
  e = TypeError ∨ e = RangeError ∨ e = QuotaExceededError.

(** If the run of [m] from [w] throws, it throws a [TypeError], a
    [RangeError] or a [QuotaExceededError], and the storage, the console
    and the alerts are then as they were in [w]. *)
Definition fails_quietly {A} (m : M A) (w : world) : Prop :=
  match m w with
  | (Ok _, _) => True
  | (Throw e, w') => operational e ∧ unheard w w'
  end.

(** A world of tree "A" in which a directory [/a] that has no [children]
    waits in array 1 to be attached. *)
Definition holey_A : world :=
  ((a ← new_node (Node dir_a None); new_array [a]) fresh_A).2.

(** * Reasoning about runs *)

Lemma bind_run {A B} (m : M A) (f : A → M B) (w : world) :
  (m ≫= f) w =
  match m w with
  | (Ok a, w') => f a w'
  | (Throw e, w') => (Throw e, w')
  end.
Proof. reflexivity. Qed.

Lemma bind_ok {A B} (m : M A) (f : A → M B) (w w' : world) (a : A) :
  m w = (Ok a, w') → (m ≫= f) w = f a w'.
Proof. intros H. rewrite bind_run, H. reflexivity. Qed.

Lemma bind_throw {A B} (m : M A) (f : A → M B) (w w' : world) (e : exn) :
  m w = (Throw e, w') → (m ≫= f) w = (Throw e, w').
Proof. intros H. rewrite bind_run, H. reflexivity. Qed.

Lemma ret_run {A} (a : A) (w : world) : (mret a : M A) w = (Ok a, w).
Proof. reflexivity. Qed.

Lemma removeFromIndex_returns stack m n : removeFromIndex stack m n = mret ().
Proof. destruct stack; reflexivity. Qed.

Lemma forEach_ret {A} (l : list A) (f : A → M ()) (w : world) :
  (∀ x, x ∈ l → f x w = (Ok (), w)) → forEach l f w = (Ok (), w).
Proof.
  induction l as [|x l IH]; intros H; simpl; [reflexivity|].
  rewrite bind_run, H by left. apply IH. intros y Hy. apply H. by right.
Qed.

Lemma forEach_removeFromIndex stack m l w :
  forEach l (removeFromIndex stack m) w = (Ok (), w).
Proof. apply forEach_ret. intros x _. by rewrite removeFromIndex_returns. Qed.

(** * get *)

Lemma get_run (this : IndexedFileDataTree) (p : string) (w : world) :
  get this p w =
  match property (nodes w) (the_map (pathToNodeIndex this) w) p with
  | Some v => (Ok (Some v), w)
  | None => (Ok None, miss p w)
  end.
Proof.
  unfold get. rewrite bind_run. unfold map_get.
  destruct (property (nodes w) (the_map (pathToNodeIndex this) w) p); reflexivity.
Qed.

(** Where a caller reads a property of what [get] returned: it goes on with
    the indexed node, or throws, after the miss has been logged if nothing
    at all was found. *)
Lemma get_as_node_run {B} this p (k : nref → M B) w :
  (node ← get this p; node ← as_node node; k node) w =
  match the_map (pathToNodeIndex this) w !! p with
  | Some n => k n w
  | None =>
      (Throw TypeError,
       match property (nodes w) (the_map (pathToNodeIndex this) w) p with
       | Some _ => w
       | None => miss p w
       end)
  end.
Proof.
  rewrite bind_run, get_run. unfold property.
  destruct (the_map (pathToNodeIndex this) w !! p); [done|].
  destruct (String.eqb p "__proto__"); [done|].
  by destruct (inherited (nodes w) (the_map (pathToNodeIndex this) w) p).
Qed.

Lemma property_own N i p n : i !! p = Some n → property N i p = Some (Ref n).
Proof. intros H. unfold property. by rewrite H. Qed.

Lemma property_Ref N i p n : property N i p = Some (Ref n) ↔ i !! p = Some n.
Proof.
  split; [|apply property_own]. unfold property.
  destruct (i !! p) as [n'|]; [by intros [= ->]|].
  destruct (String.eqb p "__proto__"); [done|]. by destruct (inherited N i p).
Qed.

(** [get] finds a member that the index object inherits: the path
    ["constructor"] has no entry in the index of a tree that has just been
    made, and [get] returns what it finds there, not [null], and logs
    nothing. *)
Lemma get_inherited_member_unlogged :
  the_map (pathToNodeIndex tree_A) fresh_A !! "constructor" = None ∧
  get tree_A "constructor" fresh_A = (Ok (Some Foreign), fresh_A).
Proof. split; vm_compute; reflexivity. Qed.

(** C9, amended. [get(path)] never throws.  On an indexed path it returns
    the indexed node and changes nothing.  On a path with no indexed node
    that names a member the index object inherits (["__proto__"], a member
    of [Object.prototype], or a property of the node that has been made the
    prototype by being indexed under ["__proto__"]) it returns the inherited
    value and changes nothing.  On every other path it writes the miss to
    the console and returns [null], and changes nothing else. *)
Theorem get_node_or_inherited_or_logged_null
    (this : IndexedFileDataTree) (p : string) (w : world) :
  get this p w =
  match the_map (pathToNodeIndex this) w !! p with
  | Some n => (Ok (Some (Ref n)), w)
  | None =>
      if String.eqb p "__proto__" || inherited (nodes w) (the_map (pathToNodeIndex this) w) p
      then (Ok (Some Foreign), w)
      else (Ok None,
            with_console (λ c, c ++ ["No node was found by path: " +:+ p]) w)
  end.
Proof.
  rewrite get_run. unfold property.
  destruct (the_map (pathToNodeIndex this) w !! p); [done|].
  destruct (String.eqb p "__proto__"); [done|].
  by destruct (inherited (nodes w) (the_map (pathToNodeIndex this) w) p).
Qed.

(** * Documents and the store *)

Lemma json_forall_ind (P : json → Prop) :
  P JEmpty →
  (∀ fileData, P (JNode fileData None)) →
  (∀ fileData children, Forall P children → P (JNode fileData (Some children))) →
  ∀ v, P v.
Proof.
  intros HE HN HS. fix go 1. intros [fd [cs|]|].
  - apply HS. revert cs. fix all 1. intros [|c cs].
    + constructor.
    + constructor; [apply go | apply all].
  - apply HN.
  - apply HE.
Qed.

Lemma world_eq (w1 w2 : world) :
  nodes w1 = nodes w2 → arrays w1 = arrays w2 → indexes w1 = indexes w2 →
  localStorage w1 = localStorage w2 → console w1 = console w2 →
  alerts w1 = alerts w2 → quota w1 = quota w2 → w1 = w2.
Proof. destruct w1, w2; simpl; intros; subst; reflexivity. Qed.

Lemma grow_nil w : grow [] [] w = w.
Proof. apply world_eq; simpl; rewrite ?app_nil_r; reflexivity. Qed.

Lemma grow_grow N2 A2 N3 A3 w :
  grow N3 A3 (grow N2 A2 w) = grow (N2 ++ N3) (A2 ++ A3) w.
Proof. apply world_eq; simpl; rewrite ?app_assoc; reflexivity. Qed.

Lemma new_node_run o w : new_node o w = (Ok (length (nodes w)), grow [o] [] w).
Proof.
  unfold new_node. f_equal. apply world_eq; simpl; rewrite ?app_nil_r; reflexivity.
Qed.

Lemma new_array_eq l w :
  new_array l w = (Ok (length (arrays w)), with_arrays (λ h, h ++ [l]) w).
Proof. reflexivity. Qed.

Lemma new_node_eq o w :
  new_node o w = (Ok (length (nodes w)), with_nodes (λ h, h ++ [o]) w).
Proof. reflexivity. Qed.

Lemma new_array_run l w : new_array l w = (Ok (length (arrays w)), grow [] [l] w).
Proof.
  unfold new_array. f_equal. apply world_eq; simpl; rewrite ?app_nil_r; reflexivity.
Qed.

Lemma shape_app k N A N' A' :
  (∀ n v, shape k N A n v → shape k (N ++ N') (A ++ A') n v) ∧
  (∀ ns vs, shapes k N A ns vs → shapes k (N ++ N') (A ++ A') ns vs).
Proof.
  apply shape_shapes_ind; intros.
  - apply shape_marker. by apply lookup_app_l_Some.
  - apply shape_childless; [done|]. by apply lookup_app_l_Some.
  - eapply shape_parent;
      [done | by apply lookup_app_l_Some | by apply lookup_app_l_Some | done].
  - constructor.
  - by constructor.
Qed.

Lemma shape_from k k' N A :
  k' ≤ k →
  (∀ n v, shape k N A n v → shape k' N A n v) ∧
  (∀ ns vs, shapes k N A ns vs → shapes k' N A ns vs).
Proof.
  intros Hk. apply shape_shapes_ind; intros.
  - by apply shape_marker.
  - apply shape_childless; [lia | done].
  - eapply shape_parent; [lia | done | done | done].
  - constructor.
  - by constructor.
Qed.

Lemma mapM_construct_spec (l : list json) :
  Forall (λ v, ∀ w, ∃ n N2 A2,
    construct v w = (Ok n, grow N2 A2 w) ∧
    ∀ N1 A1, length N1 = length (nodes w) → length A1 = length (arrays w) →
      shape (length (nodes w)) (N1 ++ N2) (A1 ++ A2) n v) l →
  ∀ w, ∃ ns N2 A2,
    mapM construct l w = (Ok ns, grow N2 A2 w) ∧
    ∀ N1 A1, length N1 = length (nodes w) → length A1 = length (arrays w) →
      shapes (length (nodes w)) (N1 ++ N2) (A1 ++ A2) ns l.
Proof.
  induction 1 as [|v l Hv _ IH]; intros w.
  - exists [], [], []. split; [by rewrite grow_nil|]. intros. constructor.
  - destruct (Hv w) as (n & Nv & Av & Hrun & Hshape).
    destruct (IH (grow Nv Av w)) as (ns & Nl & Al & Hruns & Hshapes).
    exists (n :: ns), (Nv ++ Nl), (Av ++ Al). split.
    + simpl. rewrite bind_run, Hrun. rewrite bind_run, Hruns.
      by rewrite ret_run, grow_grow.
    + intros N1 A1 HN HA. constructor.
      * rewrite !app_assoc. apply shape_app. by apply Hshape.
      * rewrite !app_assoc.
        apply (shape_from (length (nodes (grow Nv Av w)))).
        { simpl. rewrite length_app. lia. }
        apply Hshapes; simpl; rewrite !length_app; congruence.
Qed.

Lemma construct_spec (v : json) (w : world) :
  ∃ n N2 A2,
    construct v w = (Ok n, grow N2 A2 w) ∧
    ∀ N1 A1, length N1 = length (nodes w) → length A1 = length (arrays w) →
      shape (length (nodes w)) (N1 ++ N2) (A1 ++ A2) n v.
Proof.
  revert w. induction v as [| fd | fd cs IH] using json_forall_ind; intros w.
  - exists (length (nodes w)), [EmptyMarker], []. split.
    + simpl. apply new_node_run.
    + intros N1 A1 HN _. apply shape_marker.
      rewrite <- HN. apply list_lookup_middle. reflexivity.
  - exists (length (nodes w)), [Node fd None], []. split.
    + simpl. apply new_node_run.
    + intros N1 A1 HN _. apply shape_childless; [done|].
      rewrite <- HN. apply list_lookup_middle. reflexivity.
  - destruct (mapM_construct_spec cs IH w) as (ns & Nl & Al & Hruns & Hshapes).
    exists (length (nodes w ++ Nl)), (Nl ++ [Node fd (Some (length (arrays w ++ Al)))]),
      (Al ++ [ns]).
    split.
    + simpl. rewrite bind_run, Hruns. rewrite bind_run, new_array_run.
      rewrite new_node_run. rewrite !grow_grow. simpl.
      by rewrite !app_nil_r.
    + intros N1 A1 HN HA. eapply shape_parent.
      * rewrite length_app. lia.
      * rewrite app_assoc. apply list_lookup_middle.
        rewrite !length_app. congruence.
      * rewrite app_assoc. apply list_lookup_middle.
        rewrite !length_app. congruence.
      * rewrite !app_assoc. apply shape_app. by apply Hshapes.
Qed.

(** * The index *)

Lemma the_map_with_map m i w :
  m < length (indexes w) → the_map m (with_map m i w) = i.
Proof.
  intros H. unfold the_map, with_map. simpl.
  by rewrite list_lookup_insert_eq.
Qed.

Lemma with_map_with_map m i j w : with_map m j (with_map m i w) = with_map m j w.
Proof. apply world_eq; simpl; try reflexivity. apply list_insert_insert_eq. Qed.

Lemma with_map_the_map m w : with_map m (the_map m w) w = w.
Proof.
  apply world_eq; simpl; try reflexivity. unfold the_map.
  destruct (indexes w !! m) as [i|] eqn:E; simpl.
  - by apply list_insert_id.
  - apply list_insert_ge. by apply lookup_ge_None.
Qed.

Lemma height_parent_le fileData children stack :
  height (JNode fileData (Some children)) ≤ S stack →
  Forall (λ v, height v ≤ stack) children.
Proof.
  simpl. induction children as [|c cs IH]; simpl; intros H; constructor.
  - lia.
  - apply IH. lia.
Qed.

Lemma height_parent_0 fileData children :
  height (JNode fileData (Some children)) ≤ 0 → children = [].
Proof. destruct children; simpl; [done | lia]. Qed.

Lemma put_all_app es1 es2 i : put_all (es1 ++ es2) i = put_all es2 (put_all es1 i).
Proof. apply foldl_app. Qed.

Lemma puts_app rs1 rs2 i : puts (rs1 ++ rs2) i = puts rs2 (puts rs1 i).
Proof. apply foldl_app. Qed.

Lemma puts_elem rs i q r :
  puts rs i !! q = Some r → i !! q = Some r ∨ (q, r) ∈ rs.
Proof.
  revert i. induction rs as [|[p x] rs IH]; intros i H; [by left|].
  change (puts ((p, x) :: rs) i) with (puts rs (<[p := x]> i)) in H.
  destruct (IH _ H) as [Hi|Hi]; [|right; by right].
  rewrite lookup_insert in Hi. case_decide as Hpq; [|by left].
  injection Hi as <-. subst q. right. by left.
Qed.

Lemma puts_not_key rs i q : q ∉ rs.*1 → puts rs i !! q = i !! q.
Proof.
  revert i. induction rs as [|[p x] rs IH]; intros i H; [done|].
  change (puts ((p, x) :: rs) i) with (puts rs (<[p := x]> i)).
  rewrite fmap_cons in H. apply not_elem_of_cons in H as [Hne H].
  rewrite IH by done. by rewrite lookup_insert_ne.
Qed.

Lemma puts_key rs i q : q ∈ rs.*1 → ∃ r, puts rs i !! q = Some r ∧ (q, r) ∈ rs.
Proof.
  revert i. induction rs as [|[p x] rs IH]; intros i H; [by apply elem_of_nil in H|].
  change (puts ((p, x) :: rs) i) with (puts rs (<[p := x]> i)).
  destruct (decide (q ∈ rs.*1)) as [Hin|Hnot].
  - destruct (IH (<[p := x]> i) Hin) as (r & Hr & Hel). exists r. split; [done|by right].
  - rewrite fmap_cons in H. apply elem_of_cons in H as [->|H]; [|done].
    exists x. rewrite puts_not_key by done. split; [by rewrite lookup_insert_eq | by left].
Qed.

Lemma entries_keys k N A rs es : Forall2 (entry_of k N A) rs es → rs.*1 = es.*1.
Proof.
  induction 1 as [|r e rs es (H1 & _) _ IH]; [done|]. rewrite !fmap_cons. by f_equal.
Qed.

Lemma entries_view k N A rs es i :
  Forall2 (entry_of k N A) rs es →
  fileData_at N <$> puts rs i = put_all es (fileData_at N <$> i).
Proof.
  intros H. revert i. induction H as [|r e rs es (H1 & H2 & _) _ IH]; intros i; [done|].
  change (puts (r :: rs) i) with (puts rs (<[r.1 := r.2]> i)).
  change (put_all (e :: es) (fileData_at N <$> i))
    with (put_all es (<[e.1 := Some e.2]> (fileData_at N <$> i))).
  by rewrite IH, fmap_insert, H1, H2.
Qed.

Lemma entries_elem k N A rs es r :
  Forall2 (entry_of k N A) rs es → r ∈ rs → ∃ e, e ∈ es ∧ entry_of k N A r e.
Proof.
  induction 1 as [|r' e rs es Hr _ IH]; intros Hin; [by apply elem_of_nil in Hin|].
  apply elem_of_cons in Hin as [->|Hin].
  - exists e. split; [by left | done].
  - destruct (IH Hin) as (e' & ? & ?). exists e'. split; [by right | done].
Qed.

Lemma index_post_refl k N A m w : index_post k N A m [] w w.
Proof.
  exists []. split; [|constructor].
  change (puts [] (the_map m w)) with (the_map m w). by rewrite with_map_the_map.
Qed.

Lemma index_post_trans k N A m es1 es2 w1 w2 w3 :
  m < length (indexes w1) →
  index_post k N A m es1 w1 w2 → index_post k N A m es2 w2 w3 →
  index_post k N A m (es1 ++ es2) w1 w3.
Proof.
  intros Hm (rs1 & -> & H1) (rs2 & -> & H2).
  rewrite the_map_with_map by done.
  exists (rs1 ++ rs2). split; [by rewrite with_map_with_map, puts_app|].
  by apply Forall2_app.
Qed.

(** The view of the index after such a run, and what its new entries are. *)
Lemma index_post_view k N A m es w w' :
  index_post k N A m es w w' →
  ∃ i, w' = with_map m i w ∧
       fileData_at N <$> i = put_all es (fileData_at N <$> the_map m w) ∧
       ∀ p r, i !! p = Some r → the_map m w !! p = Some r ∨ node_ok N A r = true.
Proof.
  intros (rs & -> & Hrs). exists (puts rs (the_map m w)). split; [done|]. split.
  - by eapply entries_view.
  - intros p r Hp. destruct (puts_elem _ _ _ _ Hp) as [H|H]; [by left|]. right.
    by destruct (entries_elem _ _ _ _ _ _ Hrs H) as (e & _ & _ & _ & _ & Hok).
Qed.

Lemma read_node_run n o w : nodes w !! n = Some o → read_node n w = (Ok o, w).
Proof. intros H. unfold read_node. by rewrite H. Qed.

Lemma read_array_run a l w : arrays w !! a = Some l → read_array a w = (Ok l, w).
Proof. intros H. unfold read_array. by rewrite H. Qed.

Lemma index_eq stack m n :
  index stack m n =
  (o ← read_node n;
   if isEmptyNode o then mret ()
   else
     match o with
     | EmptyMarker => throw TypeError
     | Node fileData children =>
         map_put m (path fileData) n;;
         if expandable fileData then
           elems ← children_of children;
           match stack with
           | 0 => forEach elems (λ _, throw RangeError)
           | S stack => forEach elems (index stack m)
           end
         else mret ()
     end).
Proof. destruct stack; reflexivity. Qed.

Lemma map_put_run m key n w :
  map_put m key n w = (Ok (), with_map m (<[key := n]> (the_map m w)) w).
Proof. reflexivity. Qed.

Lemma index_shape k N A :
  (∀ n v, shape k N A n v → ∀ stack m w,
     nodes w = N → arrays w = A → m < length (indexes w) →
     indexable v = true → height v ≤ stack →
     ∃ w', index stack m n w = (Ok (), w') ∧ index_post k N A m (entries v) w w') ∧
  (∀ ns vs, shapes k N A ns vs → ∀ stack m w,
     nodes w = N → arrays w = A → m < length (indexes w) →
     forallb indexable vs = true → Forall (λ v, height v ≤ stack) vs →
     ∃ w', forEach ns (index stack m) w = (Ok (), w') ∧
           index_post k N A m (flat_map entries vs) w w').
Proof.
  apply shape_shapes_ind.
  - intros n Hn stack m w HN HA Hm _ _. exists w. split.
    + rewrite index_eq. subst N. by rewrite (bind_ok _ _ _ _ _ (read_node_run _ _ _ Hn)).
    + apply index_post_refl.
  - intros n fd Hk Hn stack m w HN HA Hm Hidx _. simpl in Hidx.
    apply negb_true_iff in Hidx.
    exists (with_map m (<[path fd := n]> (the_map m w)) w). split.
    + rewrite index_eq. subst N. rewrite (bind_ok _ _ _ _ _ (read_node_run _ _ _ Hn)).
      cbn [isEmptyNode]. rewrite (bind_ok _ _ _ _ _ (map_put_run _ _ _ _)).
      by rewrite Hidx.
    + simpl. rewrite Hidx. exists [(path fd, n)]. split; [reflexivity|].
      repeat constructor; simpl; [|done|].
      * unfold fileData_at. by rewrite Hn.
      * unfold node_ok. by rewrite Hn, Hidx.
  - intros n fd a elems cs Hk Hn Ha Hcs IH stack m w HN HA Hm Hidx Hh.
    set (w1 := with_map m (<[path fd := n]> (the_map m w)) w).
    assert (Hput : index_post k N A m [(path fd, fd)] w w1).
    { exists [(path fd, n)]. split; [reflexivity|].
      repeat constructor; simpl; [|done|].
      - unfold fileData_at. by rewrite Hn.
      - unfold node_ok. rewrite Hn, Ha.
        destruct (expandable fd); [|done]. by apply bool_decide_eq_true. }
    assert (HA1 : arrays w1 !! a = Some elems) by (by rewrite <- HA in Ha).
    assert (Hm1 : m < length (indexes w1)) by (simpl; by rewrite length_insert).
    rewrite index_eq. subst N. rewrite (bind_ok _ _ _ _ _ (read_node_run _ _ _ Hn)).
    cbn [isEmptyNode]. rewrite (bind_ok _ _ _ _ _ (map_put_run _ _ _ _)). fold w1.
    simpl entries.
    destruct (expandable fd).
    + simpl children_of. rewrite (bind_ok _ _ _ _ _ (read_array_run _ _ _ HA1)).
      destruct stack as [|stack].
      * apply height_parent_0 in Hh. subst cs. inversion Hcs; subst.
        exists w1. split; [done|]. exact Hput.
      * apply height_parent_le in Hh.
        destruct (IH stack m w1) as (w' & Hrun & Hpost); try done.
        exists w'. split; [done|].
        by apply (index_post_trans _ _ _ _ [(path fd, fd)] _ w w1 w').
    + exists w1. split; [done|]. exact Hput.
  - intros stack m w _ _ _ _ _. exists w. split; [done|]. apply index_post_refl.
  - intros n ns v vs _ IHn _ IHns stack m w HN HA Hm Hidx Hh.
    simpl in Hidx. apply andb_true_iff in Hidx as [Hv Hvs].
    apply Forall_cons in Hh as [Hhv Hhvs].
    destruct (IHn stack m w) as (w1 & Hrun1 & Hpost1); try done.
    assert (Hw1 : nodes w1 = N ∧ arrays w1 = A ∧ m < length (indexes w1)).
    { destruct Hpost1 as (rs & -> & _). simpl. by rewrite length_insert. }
    destruct Hw1 as (HN1 & HA1 & Hm1).
    destruct (IHns stack m w1) as (w2 & Hrun2 & Hpost2); try done.
    exists w2. split.
    + simpl. by rewrite (bind_ok _ _ _ _ _ Hrun1).
    + simpl. by apply (index_post_trans _ _ _ _ _ _ w w1 w2).
Qed.

Lemma put_all_lookup es i p :
  put_all es i !! p =
  match put_all es ∅ !! p with
  | Some x => Some x
  | None => i !! p
  end.
Proof.
  revert i. induction es as [|e es IH]; intros i; [done|].
  change (put_all (e :: es) i) with (put_all es (<[e.1 := Some e.2]> i)).
  change (put_all (e :: es) ∅) with (put_all es (<[e.1 := Some e.2]> ∅)).
  rewrite IH, (IH (<[e.1 := Some e.2]> ∅)).
  destruct (put_all es ∅ !! p); [done|].
  rewrite !lookup_insert. case_decide; [done|]. by rewrite lookup_empty.
Qed.

Lemma put_all_idempotent es i : put_all es (put_all es i) = put_all es i.
Proof.
  apply map_eq. intros p. rewrite put_all_lookup, (put_all_lookup es i).
  by destruct (put_all es ∅ !! p).
Qed.

Lemma put_all_is_Some es i p : is_Some (i !! p) → is_Some (put_all es i !! p).
Proof. intros H. rewrite put_all_lookup. by destruct (put_all es ∅ !! p). Qed.

(** ** What get finds *)

Lemma put_all_last es q :
  put_all es ∅ !! q = (λ e, Some e.2) <$> last (filter (λ e, e.1 = q) es).
Proof.
  induction es as [|e es IH] using rev_ind; [done|].
  rewrite put_all_app, filter_app. change (put_all [e] ?i) with (<[e.1 := Some e.2]> i).
  rewrite filter_cons, filter_nil. case_decide as He.
  - rewrite last_snoc. subst q. by rewrite lookup_insert_eq.
  - rewrite app_nil_r, lookup_insert_ne by done. exact IH.
Qed.

Lemma finds_of_view this es w :
  (∀ q, view w (pathToNodeIndex this) !! q =
        (λ e, Some e.2) <$> last (filter (λ e, e.1 = q) es)) →
  finds this es w.
Proof.
  intros Hview q. specialize (Hview q). unfold view in Hview.
  rewrite lookup_fmap in Hview. rewrite get_run.
  destruct (last (filter (λ e, e.1 = q) es)) as [e|]; simpl in Hview.
  - destruct (the_map (pathToNodeIndex this) w !! q) as [n|] eqn:Hq; [|done].
    exists n. rewrite (property_own _ _ _ _ Hq). split; [done|].
    simpl in Hview. congruence.
  - destruct (the_map (pathToNodeIndex this) w !! q) as [n|] eqn:Hq; [done|].
    intros n.
    destruct (property (nodes w) (the_map (pathToNodeIndex this) w) q) as [[r|]|] eqn:Hr;
      [|done..].
    apply property_Ref in Hr. congruence.
Qed.

(** * JSON.stringify on a tree *)

Lemma stringify_eq stack inside inside_arrays value :
  stringify stack inside inside_arrays value =
  (if bool_decide (value ∈ inside) then throw TypeError
   else
     o ← read_node value;
     match o with
     | EmptyMarker => mret JEmpty
     | Node fileData None => mret (JNode fileData None)
     | Node fileData (Some a) =>
         if bool_decide (a ∈ inside_arrays) then throw TypeError
         else
           elems ← read_array a;
           children ← match stack with
                      | 0 => mapM (λ _, throw RangeError) elems
                      | S stack =>
                          mapM (stringify stack (value :: inside) (a :: inside_arrays))
                            elems
                      end;
           mret (JNode fileData (Some children))
     end).
Proof. destruct stack; reflexivity. Qed.

Lemma shape_functional k N A :
  (∀ n v, shape k N A n v → ∀ v', shape k N A n v' → v = v') ∧
  (∀ ns vs, shapes k N A ns vs → ∀ vs', shapes k N A ns vs' → vs = vs').
Proof.
  apply shape_shapes_ind.
  - intros n Hn v' H'. inversion H'; subst; congruence.
  - intros n fd _ Hn v' H'. inversion H'; subst; congruence.
  - intros n fd a elems cs _ Hn Ha _ IH v' H'. inversion H' as [| |? fd' a' elems' cs' ? Hn' Ha' Hcs'];
      subst; [congruence..|].
    rewrite Hn in Hn'. injection Hn' as <- <-. rewrite Ha in Ha'. injection Ha' as <-.
    by rewrite (IH _ Hcs').
  - intros vs' H'. by inversion H'.
  - intros n ns v vs _ IHn _ IHns vs' H'. inversion H' as [|? ? v' vs'' Hv' Hvs']; subst.
    by rewrite (IHn _ Hv'), (IHns _ Hvs').
Qed.

Lemma height_child fileData children c :
  c ∈ children → height c < height (JNode fileData (Some children)).
Proof.
  simpl. induction children as [|c' cs IH]; intros Hc; [by apply elem_of_nil in Hc|].
  simpl. apply elem_of_cons in Hc as [->|Hc]; [lia|]. specialize (IH Hc). lia.
Qed.

Lemma below_nil N A h : below N A h [] [].
Proof. split; intros; exfalso; by eapply elem_of_nil. Qed.

Lemma below_child N A n fd a elems cs c inside inside_arrays :
  N !! n = Some (Node fd (Some a)) → A !! a = Some elems → shapes 0 N A elems cs →
  below N A (height (JNode fd (Some cs))) inside inside_arrays →
  c ∈ cs →
  below N A (height c) (n :: inside) (a :: inside_arrays).
Proof.
  intros Hn Ha Hcs [Hin HinA] Hc.
  pose proof (height_child fd cs c Hc) as Hlt.
  assert (Hsh : shape 0 N A n (JNode fd (Some cs))).
  { eapply shape_parent; [lia | done | done | done]. }
  split.
  - intros s v' [->|Hs]%elem_of_cons Hv'.
    + by rewrite <- (proj1 (shape_functional 0 N A) _ _ Hsh _ Hv').
    + specialize (Hin s v' Hs Hv'). lia.
  - intros a' es vs [->|Ha']%elem_of_cons Hes Hvs.
    + rewrite Ha in Hes. injection Hes as <-.
      rewrite <- (proj2 (shape_functional 0 N A) _ _ Hcs _ Hvs). exact Hlt.
    + specialize (HinA a' es vs Ha' Hes Hvs). simpl in HinA, Hlt. lia.
Qed.

Lemma below_not_inside N A n v inside inside_arrays :
  shape 0 N A n v → below N A (height v) inside inside_arrays → n ∉ inside.
Proof. intros Hsh [Hin _] Hn. specialize (Hin n v Hn Hsh). lia. Qed.

Lemma below_not_inside_array N A fd a elems cs inside inside_arrays :
  A !! a = Some elems → shapes 0 N A elems cs →
  below N A (height (JNode fd (Some cs))) inside inside_arrays → a ∉ inside_arrays.
Proof. intros Ha Hcs [_ HinA] Hin. specialize (HinA a elems cs Hin Ha Hcs). simpl in HinA. lia. Qed.

Lemma stringify_shape N A :
  (∀ n v, shape 0 N A n v → ∀ stack inside inside_arrays w,
     nodes w = N → arrays w = A → height v ≤ stack →
     below N A (height v) inside inside_arrays →
     stringify stack inside inside_arrays n w = (Ok v, w)) ∧
  (∀ ns vs, shapes 0 N A ns vs → ∀ stack inside inside_arrays w,
     nodes w = N → arrays w = A → Forall (λ v, height v ≤ stack) vs →
     Forall (λ v, below N A (height v) inside inside_arrays) vs →
     mapM (stringify stack inside inside_arrays) ns w = (Ok vs, w)).
Proof.
  apply shape_shapes_ind.
  - intros n Hn stack inside inside_arrays w <- <- _ Hb. rewrite stringify_eq.
    rewrite bool_decide_eq_false_2
      by (eapply below_not_inside; [by apply shape_marker | done]).
    by rewrite (bind_ok _ _ _ _ _ (read_node_run _ _ _ Hn)).
  - intros n fd Hk Hn stack inside inside_arrays w <- <- _ Hb. rewrite stringify_eq.
    rewrite bool_decide_eq_false_2
      by (eapply below_not_inside; [by apply shape_childless | done]).
    by rewrite (bind_ok _ _ _ _ _ (read_node_run _ _ _ Hn)).
  - intros n fd a elems cs Hk Hn Ha Hcs IH stack inside inside_arrays w <- <- Hh Hb.
    rewrite stringify_eq.
    rewrite bool_decide_eq_false_2
      by (eapply below_not_inside; [by eapply shape_parent | done]).
    rewrite (bind_ok _ _ _ _ _ (read_node_run _ _ _ Hn)). cbv iota.
    rewrite bool_decide_eq_false_2 by (by eapply below_not_inside_array).
    rewrite (bind_ok _ _ _ _ _ (read_array_run _ _ _ Ha)).
    destruct stack as [|stack].
    + apply height_parent_0 in Hh. subst cs. inversion Hcs; subst. reflexivity.
    + apply height_parent_le in Hh.
      rewrite (bind_ok _ _ _ _ _ (IH stack (n :: inside) (a :: inside_arrays) w
                 eq_refl eq_refl Hh ltac:(
                   apply Forall_forall; intros c Hc; by eapply below_child))).
      done.
  - reflexivity.
  - intros n ns v vs _ IHn _ IHns stack inside inside_arrays w HN HA Hh Hb.
    apply Forall_cons in Hh as [Hv Hvs]. apply Forall_cons in Hb as [Hbv Hbvs]. simpl.
    rewrite (bind_ok _ _ _ _ _ (IHn stack inside inside_arrays w HN HA Hv Hbv)).
    by rewrite (bind_ok _ _ _ _ _ (IHns stack inside inside_arrays w HN HA Hvs Hbvs)).
Qed.

Lemma JSON_stringify_shape k N A :
  (∀ n v, shape k N A n v → ∀ stack w,
     nodes w = N → arrays w = A → height v ≤ stack →
     JSON_stringify stack n w = (Ok v, w)) ∧
  (∀ ns vs, shapes k N A ns vs → ∀ stack w,
     nodes w = N → arrays w = A → Forall (λ v, height v ≤ stack) vs →
     mapM (JSON_stringify stack) ns w = (Ok vs, w)).
Proof.
  split.
  - intros n v Hsh stack w HN HA Hh. unfold JSON_stringify.
    apply (proj1 (stringify_shape N A)); [|done..|apply below_nil].
    by apply (proj1 (shape_from k 0 N A ltac:(lia))).
  - intros ns vs Hsh stack w HN HA Hh.
    apply (proj2 (stringify_shape N A) ns vs); [|done..|].
    + by apply (proj2 (shape_from k 0 N A ltac:(lia))).
    + apply Forall_forall. intros v _. apply below_nil.
Qed.

Lemma shapes_markers k N A elems :
  Forall (λ e, N !! e = Some EmptyMarker) elems →
  shapes k N A elems (replicate (length elems) JEmpty).
Proof.
  induction 1; simpl; constructor; [by apply shape_marker | done].
Qed.

Lemma height_markers fileData k :
  height (JNode fileData (Some (replicate k JEmpty))) ≤ k.
Proof. simpl. induction k; simpl; lia. Qed.

(** Replacing the children of one node by an array of at most [k] markers,
    and some arrays by arrays of at most [k] markers, keeps the graph a
    tree and makes it deeper by at most [k]. *)
Lemma shape_replace k0 N A N' A' n0 fd0 a0 elems0 k :
  (∀ l o, l ≠ n0 → N !! l = Some o → N' !! l = Some o) →
  (∀ a l, A !! a = Some l →
     A' !! a = Some l ∨
     ∃ l', A' !! a = Some l' ∧ Forall (λ e, N' !! e = Some EmptyMarker) l' ∧
           length l' ≤ k) →
  N' !! n0 = Some (Node fd0 (Some a0)) →
  A' !! a0 = Some elems0 →
  Forall (λ e, N' !! e = Some EmptyMarker) elems0 →
  length elems0 ≤ k →
  (∀ n v, shape k0 N A n v →
     ∃ v', shape 0 N' A' n v' ∧ height v' ≤ height v + k) ∧
  (∀ ns vs, shapes k0 N A ns vs →
     ∃ vs', shapes 0 N' A' ns vs' ∧
       ∀ fileData, height (JNode fileData (Some vs')) ≤
                   height (JNode fileData (Some vs)) + k).
Proof.
  intros HN HA Hn0 Ha0 Hmarkers Hk.
  assert (Hat0 : ∃ v', shape 0 N' A' n0 v' ∧ height v' ≤ k).
  { eexists. split; [|etrans; [apply (height_markers fd0)|done]].
    eapply shape_parent; [lia | done | done | by apply shapes_markers]. }
  apply shape_shapes_ind.
  - intros n Hn. destruct (decide (n = n0)) as [->|Hne].
    + destruct Hat0 as (v' & ? & ?). exists v'. split; [done | lia].
    + exists JEmpty. split; [|simpl; lia]. apply shape_marker. by apply HN.
  - intros n fd _ Hn. destruct (decide (n = n0)) as [->|Hne].
    + destruct Hat0 as (v' & ? & ?). exists v'. split; [done | lia].
    + exists (JNode fd None). split; [|simpl; lia].
      apply shape_childless; [lia|]. by apply HN.
  - intros n fd a elems cs _ Hn Ha _ (cs' & Hcs' & Hh).
    destruct (decide (n = n0)) as [->|Hne].
    + destruct Hat0 as (v' & ? & ?). exists v'. split; [done | lia].
    + destruct (HA _ _ Ha) as [Ha'|(l' & Ha' & Hl' & Hlen)].
      * exists (JNode fd (Some cs')). split; [|apply Hh].
        eapply shape_parent; [lia | by apply HN | done | done].
      * exists (JNode fd (Some (replicate (length l') JEmpty))). split.
        -- eapply shape_parent; [lia | by apply HN | done | by apply shapes_markers].
        -- pose proof (height_markers fd (length l')). lia.
  - exists []. split; [constructor | simpl; lia].
  - intros n ns v vs _ (v' & Hv' & Hhv) _ (vs' & Hvs' & Hhvs).
    exists (v' :: vs'). split; [by constructor|].
    intros fd. specialize (Hhvs fd). simpl in *. lia.
Qed.

Lemma puts_nodes_only_refl m w : puts_nodes_only m w w.
Proof. split; [done|]. intros; by left. Qed.

Lemma puts_nodes_only_trans m w1 w2 w3 :
  puts_nodes_only m w1 w2 → puts_nodes_only m w2 w3 → puts_nodes_only m w1 w3.
Proof.
  intros [HN1 H1] [HN2 H2]. split; [congruence|]. intros q r Hq.
  destruct (H2 q r Hq) as [H|H]; [by apply H1|]. right. by rewrite <- HN1.
Qed.

Lemma forEach_puts_nodes_only {X} m (f : X → M ()) l :
  (∀ x w, puts_nodes_only m w (f x w).2) →
  ∀ w, puts_nodes_only m w (forEach l f w).2.
Proof.
  intros Hf. induction l as [|x l IH]; intros w; simpl.
  - apply puts_nodes_only_refl.
  - rewrite bind_run. specialize (Hf x w). destruct (f x w) as [[[]|e] w1]; [|done].
    eapply puts_nodes_only_trans; [done | apply IH].
Qed.

Lemma map_put_puts_nodes_only m fd ch (n : nref) w :
  nodes w !! n = Some (Node fd ch) →
  puts_nodes_only m w (with_map m (<[path fd := n]> (the_map m w)) w).
Proof.
  intros Hn. split; [done|]. intros q r. unfold the_map, with_map. simpl.
  destruct (decide (m < length (indexes w))) as [Hlt|Hge].
  - rewrite list_lookup_insert_eq by done. simpl.
    rewrite lookup_insert. case_decide; [|by left].
    intros [= <-]. right. unfold fileData_at. rewrite Hn. by eexists.
  - rewrite list_insert_ge by lia. by left.
Qed.

Lemma index_body_puts_nodes_only m n (k : list nref → M ()) w :
  (∀ elems w, puts_nodes_only m w (k elems w).2) →
  puts_nodes_only m w
    ((o ← read_node n;
      if isEmptyNode o then mret ()
      else
        match o with
        | EmptyMarker => throw TypeError
        | Node fileData children =>
            map_put m (path fileData) n;;
            if expandable fileData then
              elems ← children_of children;
              k elems
            else mret ()
        end) w).2.
Proof.
  intros Hk. rewrite bind_run. unfold read_node.
  destruct (nodes w !! n) as [[fd ch|]|] eqn:Hn; try apply puts_nodes_only_refl.
  cbn [isEmptyNode]. rewrite (bind_ok _ _ _ _ _ (map_put_run _ _ _ _)).
  eapply puts_nodes_only_trans; [by eapply map_put_puts_nodes_only|].
  destruct (expandable fd); [|apply puts_nodes_only_refl].
  rewrite bind_run. destruct ch as [a|]; simpl children_of.
  - unfold read_array. destruct (arrays _ !! a).
    + apply Hk.
    + apply puts_nodes_only_refl.
  - apply puts_nodes_only_refl.
Qed.

Lemma index_puts_nodes_only stack m n w : puts_nodes_only m w (index stack m n w).2.
Proof.
  revert n w. induction stack as [|stack IH]; intros n w; rewrite index_eq.
  - apply (index_body_puts_nodes_only m n (λ elems, forEach elems (λ _, throw RangeError))).
    intros elems w0. apply forEach_puts_nodes_only. intros x w1.
    apply puts_nodes_only_refl.
  - apply (index_body_puts_nodes_only m n (λ elems, forEach elems (index stack m))).
    intros elems w0. apply forEach_puts_nodes_only. intros x w1. apply IH.
Qed.

(** * set and clear *)

Lemma node_ok_inv N A n :
  node_ok N A n = true →
  ∃ fd ch, N !! n = Some (Node fd ch) ∧
    (expandable fd = true → ∃ a l, ch = Some a ∧ A !! a = Some l).
Proof.
  unfold node_ok. destruct (N !! n) as [[fd ch|]|]; try done.
  intros H. exists fd, ch. split; [done|]. intros Hex. rewrite Hex in H.
  destruct ch as [a|]; [|done]. apply bool_decide_eq_true in H as [l Hl]. eauto.
Qed.

Lemma node_ok_intro N A n fd ch :
  N !! n = Some (Node fd ch) →
  (expandable fd = true → ∃ a, ch = Some a ∧ is_Some (A !! a)) →
  node_ok N A n = true.
Proof.
  intros Hn H. unfold node_ok. rewrite Hn. destruct (expandable fd); [|done].
  destruct H as (a & -> & Ha); [done|]. by apply bool_decide_eq_true.
Qed.

(** The removal loop of [set] and [clear]. *)
Lemma removal_run stack m fd ch w :
  (expandable fd = true → ∃ a l, ch = Some a ∧ arrays w !! a = Some l) →
  (if expandable fd then
     elems ← children_of ch;
     forEach elems (removeFromIndex stack m)
   else mret ()) w = (Ok (), w).
Proof.
  intros H. destruct (expandable fd); [|done].
  destruct H as (a & l & -> & Hl); [done|]. simpl.
  rewrite (bind_ok _ _ _ _ _ (read_array_run _ _ _ Hl)).
  apply forEach_removeFromIndex.
Qed.

Lemma fields_run n fd ch w :
  nodes w !! n = Some (Node fd ch) → fields n w = (Ok (fd, ch), w).
Proof.
  intros H. unfold fields. by rewrite (bind_ok _ _ _ _ _ (read_node_run _ _ _ H)).
Qed.

Lemma get_run_found this p n w :
  the_map (pathToNodeIndex this) w !! p = Some n → get this p w = (Ok (Some (Ref n)), w).
Proof. intros H. by rewrite get_run, (property_own _ _ _ _ H). Qed.

Lemma set_run stack this p a w n fd ch :
  the_map (pathToNodeIndex this) w !! p = Some n →
  nodes w !! n = Some (Node fd ch) →
  (expandable fd = true → ∃ a l, ch = Some a ∧ arrays w !! a = Some l) →
  set stack this p a w =
  (elems ← read_array a;
   forEach elems (index stack (pathToNodeIndex this));;
   mret n) (with_nodes (λ h, <[n := Node fd (Some a)]> h) w).
Proof.
  intros Hp Hn Hch. unfold set.
  rewrite (bind_ok _ _ _ _ _ (get_run_found _ _ _ _ Hp)). simpl as_node.
  rewrite (bind_ok _ _ _ _ _ (ret_run _ _)).
  rewrite (bind_ok _ _ _ _ _ (fields_run _ _ _ _ Hn)).
  rewrite (bind_ok _ _ _ _ _ (removal_run _ _ _ _ _ Hch)).
  reflexivity.
Qed.

Lemma clear_run stack this p w n fd ch :
  the_map (pathToNodeIndex this) w !! p = Some n →
  nodes w !! n = Some (Node fd ch) →
  (expandable fd = true → ∃ a l, ch = Some a ∧ arrays w !! a = Some l) →
  clear stack this p w =
  (Ok (), with_nodes (λ h, <[n := Node fd (Some (length (arrays w)))]> h)
            (grow [] [[]] w)).
Proof.
  intros Hp Hn Hch. unfold clear.
  rewrite (bind_ok _ _ _ _ _ (get_run_found _ _ _ _ Hp)). simpl as_node.
  rewrite (bind_ok _ _ _ _ _ (ret_run _ _)).
  rewrite (bind_ok _ _ _ _ _ (fields_run _ _ _ _ Hn)).
  rewrite (bind_ok _ _ _ _ _ (removal_run _ _ _ _ _ Hch)).
  rewrite (bind_ok _ _ _ _ _ (new_array_run _ _)).
  reflexivity.
Qed.

Lemma set_children_spec stack this p cs w n :
  tree_ok w this →
  the_map (pathToNodeIndex this) w !! p = Some n →
  forallb indexable cs = true →
  Forall (λ v, height v ≤ stack) cs →
  ∃ w' rs,
    set_children stack this p cs w = (Ok n, w') ∧
    tree_ok w' this ∧
    the_map (pathToNodeIndex this) w' = puts rs (the_map (pathToNodeIndex this) w) ∧
    Forall2 (entry_of (length (nodes w)) (nodes w') (arrays w')) rs (flat_map entries cs) ∧
    ∀ q r, the_map (pathToNodeIndex this) w !! q = Some r →
      fileData_at (nodes w') r = fileData_at (nodes w) r.
Proof.
  intros [Hm Hok] Hp Hidx Hh. set (m := pathToNodeIndex this) in *.
  destruct (node_ok_inv _ _ _ (Hok _ _ Hp)) as (fd & ch & Hn & Hch).
  destruct (mapM_construct_spec cs) with (w := w) as (ns & N2 & A2 & Hruns & Hshapes).
  { apply Forall_forall. intros v _. apply construct_spec. }
  unfold set_children. rewrite (bind_ok _ _ _ _ _ Hruns).
  rewrite (bind_ok _ _ _ _ _ (new_array_run _ _)). rewrite grow_grow.
  rewrite app_nil_r. simpl length.
  set (a := length (arrays w ++ A2)).
  set (wb := grow N2 (A2 ++ [ns]) w).
  assert (Hnb : nodes wb !! n = Some (Node fd ch)) by (by apply lookup_app_l_Some).
  rewrite (set_run stack this p a wb n fd ch); [|done|done|]; last first.
  { intros Hex. destruct (Hch Hex) as (a0 & l & -> & Hl). exists a0, l.
    split; [done|]. by apply lookup_app_l_Some. }
  set (wc := with_nodes _ wb).
  assert (Hac : arrays wc !! a = Some ns).
  { simpl. rewrite app_assoc. by apply list_lookup_middle. }
  rewrite (bind_ok _ _ _ _ _ (read_array_run _ _ _ Hac)).
  assert (HNc : nodes wc = <[n := Node fd (Some a)]> (nodes w) ++ N2).
  { simpl. apply insert_app_l. by eapply lookup_lt_Some. }
  assert (Hshc : shapes (length (nodes w)) (nodes wc) (arrays wc) ns cs).
  { rewrite HNc. simpl arrays. rewrite app_assoc.
    rewrite <- (app_nil_r (_ ++ N2)). apply shape_app.
    apply Hshapes; [by rewrite length_insert | done]. }
  destruct (proj2 (index_shape _ (nodes wc) (arrays wc)) ns cs Hshc stack m wc)
    as (w' & Hrun & rs & -> & Hrs); try done.
  rewrite (bind_ok _ _ _ _ _ Hrun). exists (with_map m (puts rs (the_map m wc)) wc), rs.
  assert (Hkeep : ∀ q r, the_map m w !! q = Some r →
            node_ok (nodes wc) (arrays wc) r = true ∧
            fileData_at (nodes wc) r = fileData_at (nodes w) r).
  { intros q r Hq. destruct (node_ok_inv _ _ _ (Hok _ _ Hq)) as (fdr & chr & Hr & Hchr).
    destruct (decide (r = n)) as [->|Hne].
    - assert (fdr = fd ∧ chr = ch) as [-> ->] by (split; congruence).
      assert (Hnc : nodes wc !! n = Some (Node fd (Some a))).
      { rewrite HNc. apply lookup_app_l_Some. apply list_lookup_insert_eq.
        by eapply lookup_lt_Some. }
      split.
      + eapply node_ok_intro; [done|]. intros _. exists a. split; [done|].
        exists ns. exact Hac.
      + unfold fileData_at. by rewrite Hnc, Hn.
    - assert (Hrc : nodes wc !! r = Some (Node fdr chr)).
      { rewrite HNc. apply lookup_app_l_Some. by rewrite list_lookup_insert_ne. }
      split.
      + eapply node_ok_intro; [done|]. intros Hex.
        destruct (Hchr Hex) as (a0 & l & -> & Hl). exists a0. split; [done|].
        exists l. by apply lookup_app_l_Some.
      + unfold fileData_at. by rewrite Hrc, Hr. }
  split; [done|]. split; [|split; [|split]].
  - split; [simpl; by rewrite length_insert|].
    rewrite the_map_with_map by done. intros q r Hq.
    destruct (puts_elem _ _ _ _ Hq) as [Hold|Hnew]; [by apply (Hkeep q r)|].
    by destruct (entries_elem _ _ _ _ _ _ Hrs Hnew) as (e & _ & _ & _ & _ & Hnode).
  - by rewrite the_map_with_map.
  - done.
  - intros q r Hq. by apply (Hkeep q r).
Qed.

(** The view of the index after [set], from the view before it. *)
Lemma set_children_view stack this p cs w n :
  tree_ok w this →
  the_map (pathToNodeIndex this) w !! p = Some n →
  forallb indexable cs = true →
  Forall (λ v, height v ≤ stack) cs →
  view (set_children stack this p cs w).2 (pathToNodeIndex this) =
  put_all (flat_map entries cs) (view w (pathToNodeIndex this)).
Proof.
  intros Hok Hp Hidx Hh.
  destruct (set_children_spec stack this p cs w n Hok Hp Hidx Hh)
    as (w' & rs & -> & _ & Hmap & Hrs & Hkeep).
  unfold view. simpl. rewrite Hmap, (entries_view _ _ _ _ _ _ Hrs). f_equal.
  apply map_fmap_ext. intros q r Hq. by apply (Hkeep q r).
Qed.

(** Two calls of [set] with separately built copies of the same children
    documents succeed both times and leave an index equivalent to the index
    after the first: the same set of paths, and at every path a node with
    the same [fileData].  After the second call every path of the children
    names a node built for the second call, and every other path names
    what it named before the two calls, the entries of former children
    among them. *)
Lemma set_twice_same_index stack this p cs w :
  tree_ok w this →
  is_Some (the_map (pathToNodeIndex this) w !! p) →
  forallb indexable cs = true →
  Forall (λ v, height v ≤ stack) cs →
  ∃ n1 w1 n2 w2,
    set_children stack this p cs w = (Ok n1, w1) ∧
    set_children stack this p cs w1 = (Ok n2, w2) ∧
    view w2 (pathToNodeIndex this) = view w1 (pathToNodeIndex this) ∧
    dom (the_map (pathToNodeIndex this) w2) = dom (the_map (pathToNodeIndex this) w1) ∧
    (∀ q, q ∈ (flat_map entries cs).*1 →
       ∃ r, the_map (pathToNodeIndex this) w2 !! q = Some r ∧ length (nodes w1) ≤ r) ∧
    (∀ q, q ∉ (flat_map entries cs).*1 →
       the_map (pathToNodeIndex this) w2 !! q = the_map (pathToNodeIndex this) w !! q).
Proof.
  intros Hok [n1 Hp] Hidx Hh.
  pose proof (set_children_view stack this p cs w n1 Hok Hp Hidx Hh) as Hview1.
  destruct (set_children_spec stack this p cs w n1 Hok Hp Hidx Hh)
    as (w1 & rs1 & Hrun1 & Hok1 & Hmap1 & Hrs1 & _).
  rewrite Hrun1 in Hview1. simpl in Hview1.
  assert (Hp1 : is_Some (the_map (pathToNodeIndex this) w1 !! p)).
  { apply (fmap_is_Some (fileData_at (nodes w1))). rewrite <- lookup_fmap.
    fold (view w1 (pathToNodeIndex this)). rewrite Hview1.
    apply put_all_is_Some. unfold view. rewrite lookup_fmap, Hp. by eexists. }
  destruct Hp1 as [n2 Hp1].
  pose proof (set_children_view stack this p cs w1 n2 Hok1 Hp1 Hidx Hh) as Hview2.
  destruct (set_children_spec stack this p cs w1 n2 Hok1 Hp1 Hidx Hh)
    as (w2 & rs2 & Hrun2 & Hok2 & Hmap2 & Hrs2 & _).
  rewrite Hrun2 in Hview2. simpl in Hview2.
  exists n1, w1, n2, w2. split; [done|]. split; [done|].
  assert (Hv : view w2 (pathToNodeIndex this) = view w1 (pathToNodeIndex this)).
  { rewrite Hview2, Hview1. apply put_all_idempotent. }
  split; [done|]. split; [|split].
  - apply (f_equal dom) in Hv. unfold view in Hv. by rewrite !dom_fmap_L in Hv.
  - intros q Hq. rewrite <- (entries_keys _ _ _ _ _ Hrs2) in Hq.
    rewrite Hmap2.
    destruct (puts_key rs2 (the_map (pathToNodeIndex this) w1) q Hq) as (r & Hr & Hel).
    exists r. split; [done|].
    by destruct (entries_elem _ _ _ _ _ _ Hrs2 Hel) as (e & _ & _ & _ & Hle & _).
  - intros q Hq. rewrite Hmap2, Hmap1.
    rewrite puts_not_key by (by rewrite (entries_keys _ _ _ _ _ Hrs2)).
    by rewrite puts_not_key by (by rewrite (entries_keys _ _ _ _ _ Hrs1)).
Qed.

(** C3. The second expansion leaves a stale entry: after the root of a
    fresh store has been expanded with the directory [/a], two calls of
    [set] on the root with structurally equal children (the file [/b.txt])
    both return, and the index still holds [/a] ([get] returns the
    detached node), while the nodes attached under the root are the root
    and [/b.txt]. *)
Theorem set_twice_keeps_stale_entry :
  ∃ holder w,
    expand_then_set_twice blank = (Ok holder, w) ∧
    the_map (pathToNodeIndex (tree holder)) w !! "/a" = Some 1 ∧
    get (tree holder) "/a" w = (Ok (Some (Ref 1)), w) ∧
    dom (the_map (pathToNodeIndex (tree holder)) w) = {[ ""; "/a"; "/b.txt" ]} ∧
    attached 8 w (root (tree holder)) = {[ ""; "/b.txt" ]} ∧
    ¬ index_exact 8 w (tree holder).
Proof.
  eexists _, _. split; [vm_compute; reflexivity|].
  split; [vm_compute; reflexivity|].
  split; [vm_compute; reflexivity|].
  split; [apply (bool_decide_unpack _); vm_compute; exact I|].
  split; [vm_compute; reflexivity|].
  unfold index_exact. apply (bool_decide_unpack _). vm_compute. exact I.
Qed.

(** * The index after a collapse *)

(** For every tree, [clear] leaves the index map as it was, whatever the
    children were. *)
Lemma clear_keeps_index stack this p w :
  the_map (pathToNodeIndex this) (clear stack this p w).2 =
  the_map (pathToNodeIndex this) w.
Proof.
  unfold clear. rewrite get_as_node_run.
  destruct (the_map (pathToNodeIndex this) w !! p) as [n|] eqn:Hp;
    [|by destruct (property _ _ p)].
  rewrite bind_run. unfold fields. rewrite bind_run. unfold read_node.
  destruct (nodes w !! n) as [[fd ch|]|]; try done.
  rewrite ret_run. cbv iota beta. rewrite bind_run.
  destruct (expandable fd).
  - rewrite bind_run. destruct ch as [a|]; [|done]. simpl children_of.
    unfold read_array. destruct (arrays w !! a); [|done].
    by rewrite forEach_removeFromIndex.
  - done.
Qed.

(** C1. The invariant fails on the code: after the root of a fresh store is
    expanded with the directory [/a] and collapsed again, the index still
    holds [/a], while the only node attached under the root is the root. *)
Theorem index_keeps_detached_node :
  ∃ holder w,
    expand_then_collapse blank = (Ok holder, w) ∧
    the_map (pathToNodeIndex (tree holder)) w !! "/a" = Some 1 ∧
    attached 8 w (root (tree holder)) = {[ "" ]} ∧
    ¬ index_exact 8 w (tree holder).
Proof.
  eexists _, _. split; [vm_compute; reflexivity|].
  split; [vm_compute; reflexivity|].
  split; [vm_compute; reflexivity|].
  unfold index_exact. apply (bool_decide_unpack _). vm_compute. exact I.
Qed.

(** C2. [get] of a former child after [clear]: in the same run, [get("/a")]
    after the collapse returns the detached node, and nothing is written to
    the console. *)
Theorem get_after_clear_finds_former_child :
  ∃ holder w,
    (holder ← expand_then_collapse;
     node ← get (tree holder) "/a";
     mret (holder, node)) blank = (Ok (holder, Some (Ref 1)), w) ∧
    fileData_at (nodes w) 1 = Some dir_a ∧
    console w = [].
Proof.
  eexists _, _. split; [vm_compute; reflexivity|].
  split; vm_compute; reflexivity.
Qed.

Lemma getIndexedFileDataTree_shape k stack n v w :
  shape k (nodes w) (arrays w) n v → indexable v = true → height v ≤ stack →
  ∃ i,
    getIndexedFileDataTree stack n w =
    (Ok {| root := n; pathToNodeIndex := length (indexes w) |},
     with_map (length (indexes w)) i (with_indexes (λ h, h ++ [∅]) w)) ∧
    fileData_at (nodes w) <$> i = put_all (entries v) ∅ ∧
    ∀ p r, i !! p = Some r → node_ok (nodes w) (arrays w) r = true.
Proof.
  intros Hsh Hidx Hh. unfold getIndexedFileDataTree.
  rewrite bind_run. unfold new_map. set (w2 := with_indexes _ w).
  assert (Hm : length (indexes w) < length (indexes w2)).
  { simpl. rewrite length_app. simpl. lia. }
  assert (He : the_map (length (indexes w)) w2 = ∅).
  { unfold the_map. simpl. by rewrite list_lookup_middle. }
  destruct (proj1 (index_shape k (nodes w2) (arrays w2)) n v Hsh stack
              (length (indexes w)) w2)
    as (w' & Hrun & Hpost); try done.
  destruct (index_post_view _ _ _ _ _ _ _ Hpost) as (i & -> & Hview & Hnew).
  rewrite (bind_ok _ _ _ _ _ Hrun). exists i. split; [done|]. split.
  - change (nodes w2) with (nodes w) in Hview.
    rewrite Hview, He. by rewrite fmap_empty.
  - intros p r Hp. destruct (Hnew p r Hp) as [H|H]; [|done].
    by rewrite He, lookup_empty in H.
Qed.

(** Without detached nodes the round trip keeps the index: for a tree that
    has just been made from a document, the reloaded tree has the same view. *)
Lemma fresh_tree_round_trip stack v w :
  indexable v = true → height v ≤ stack →
  ∃ t t' w',
    (r ← construct v;
     t ← getIndexedFileDataTree stack r;
     t' ← reload stack t;
     mret (t, t')) w = (Ok (t, t'), w') ∧
    view w' (pathToNodeIndex t') = view w' (pathToNodeIndex t).
Proof.
  intros Hidx Hh.
  destruct (construct_spec v w) as (n & N2 & A2 & Hrun & Hshape).
  rewrite (bind_ok _ _ _ _ _ Hrun). set (w1 := grow N2 A2 w).
  assert (Hsh1 : shape (length (nodes w)) (nodes w1) (arrays w1) n v) by (by apply Hshape).
  destruct (getIndexedFileDataTree_shape _ stack n v w1 Hsh1 Hidx Hh)
    as (i & Htree & Hview & Hok).
  rewrite (bind_ok _ _ _ _ _ Htree).
  set (m := length (indexes w1)) in *. set (w3 := with_map m i _).
  assert (Hs : JSON_stringify stack n w3 = (Ok v, w3)).
  { by apply (proj1 (JSON_stringify_shape _ (nodes w1) (arrays w1)) n v Hsh1). }
  unfold reload. simpl root. rewrite bind_run, (bind_ok _ _ _ _ _ Hs).
  simpl JSON_parse.
  destruct (construct_spec v w3) as (n' & N3 & A3 & Hrun' & Hshape').
  rewrite (bind_ok _ _ _ _ _ Hrun'). set (w4 := grow N3 A3 w3).
  assert (Hsh4 : shape (length (nodes w3)) (nodes w4) (arrays w4) n' v)
    by (by apply Hshape').
  destruct (getIndexedFileDataTree_shape _ stack n' v w4 Hsh4 Hidx Hh)
    as (i' & Htree' & Hview' & _).
  rewrite Htree'. eexists _, _, _. split; [reflexivity|].
  assert (Hm4 : length (indexes w4) = S m).
  { unfold m. simpl. rewrite length_insert, length_app. simpl. lia. }
  unfold view. simpl pathToNodeIndex.
  rewrite the_map_with_map by (simpl; rewrite length_app; simpl; lia).
  simpl nodes. change (nodes w ++ N2) with (nodes w1).
  change ((nodes w1) ++ N3) with (nodes w4) in *. rewrite Hview'.
  assert (Hi : the_map m (with_map (length (indexes w4)) i'
                            (with_indexes (λ h, h ++ [∅]) w4)) = i).
  { rewrite Hm4. unfold the_map. simpl. fold m.
    assert (Hlen : m < length (indexes w ++ [∅ : gmap string nat])).
    { unfold m. rewrite length_app. simpl. lia. }
    rewrite list_lookup_insert_ne by lia.
    rewrite lookup_app_l by (by rewrite length_insert).
    by rewrite list_lookup_insert_eq. }
  rewrite Hi, <- Hview. apply map_fmap_ext. intros q r Hq.
  destruct (node_ok_inv _ _ _ (Hok q r Hq)) as (fd & ch & Hr & _).
  assert (Hr4 : nodes w4 !! r = Some (Node fd ch)) by (by apply lookup_app_l_Some).
  unfold fileData_at. by rewrite Hr4, Hr.
Qed.

(** C4. Round trip after a collapse: the index of the tree reloaded from the
    serialized root has no entry for [/a], the index of the serialized tree
    has one. *)
Theorem reload_drops_stale_entry :
  ∃ original reloaded w,
    expand_collapse_reload blank = (Ok (original, reloaded), w) ∧
    view w (pathToNodeIndex original) !! "/a" = Some (Some dir_a) ∧
    view w (pathToNodeIndex reloaded) !! "/a" = None ∧
    view w (pathToNodeIndex original) ≠ view w (pathToNodeIndex reloaded).
Proof.
  eexists _, _, _. split; [vm_compute; reflexivity|].
  split; [vm_compute; reflexivity|].
  split; [vm_compute; reflexivity|].
  apply (bool_decide_unpack _). vm_compute. exact I.
Qed.

(** * Paths that are not in the index *)

Lemma get_run_missing this p w :
  property (nodes w) (the_map (pathToNodeIndex this) w) p = None →
  get this p w = (Ok None, miss p w).
Proof. intros H. by rewrite get_run, H. Qed.

Lemma get_run_foreign this p w :
  property (nodes w) (the_map (pathToNodeIndex this) w) p = Some Foreign →
  get this p w = (Ok (Some Foreign), w).
Proof. intros H. by rewrite get_run, H. Qed.

(** Operations that do not return.  [set] on a path that is not indexed
    throws where it reads [fileData] of the [null] that [get] returned.
    [addNodes] on the indexed root, with a child that is expandable and has
    no [children], throws in [index] after the child has been attached and
    indexed: the tree and the index are no longer what they were, and the
    storage still holds the state from before. *)
Lemma core_operations_can_throw :
  (the_map (pathToNodeIndex tree_A) fresh_A !! "/nowhere" = None ∧
   (set 8 tree_A "/nowhere" 0 fresh_A).1 = Throw TypeError) ∧
  (the_map (pathToNodeIndex tree_A) holey_A !! "" = Some 0 ∧
   (addNodes 8 holder_A "" 1 holey_A).1 = Throw TypeError ∧
   nodes holey_A !! 0 = Some (Node default_fileData (Some 0)) ∧
   nodes (addNodes 8 holder_A "" 1 holey_A).2 !! 0 =
     Some (Node default_fileData (Some 1)) ∧
   the_map (pathToNodeIndex tree_A) holey_A !! "/a" = None ∧
   the_map (pathToNodeIndex tree_A) (addNodes 8 holder_A "" 1 holey_A).2 !! "/a" =
     Some 1 ∧
   localStorage (addNodes 8 holder_A "" 1 holey_A).2 = localStorage holey_A).
Proof. repeat split; vm_compute; reflexivity. Qed.

(** With a path that names no indexed node the four operations that change
    the tree throw where they read what [get] returned, before anything is
    changed; the miss has been logged if [get] found nothing at all. *)
Lemma unindexed_path_throws stack holder p a w :
  the_map (pathToNodeIndex (tree holder)) w !! p = None →
  let w' := match property (nodes w) (the_map (pathToNodeIndex (tree holder)) w) p with
            | Some _ => w
            | None => miss p w
            end in
  set stack (tree holder) p a w = (Throw TypeError, w') ∧
  clear stack (tree holder) p w = (Throw TypeError, w') ∧
  addNodes stack holder p a w = (Throw TypeError, w') ∧
  clearNode stack holder p w = (Throw TypeError, w').
Proof.
  intros Hp w'.
  assert (Hset : set stack (tree holder) p a w = (Throw TypeError, w')).
  { unfold set. by rewrite get_as_node_run, Hp. }
  assert (Hclear : clear stack (tree holder) p w = (Throw TypeError, w')).
  { unfold clear. by rewrite get_as_node_run, Hp. }
  split; [done|]. split; [done|]. split.
  - unfold addNodes. by rewrite (bind_throw _ _ _ _ _ Hset).
  - unfold clearNode. by rewrite (bind_throw _ _ _ _ _ Hclear).
Qed.

(** * Making the state holder *)

(** Initializations that throw.  A stored text that is not JSON; a stored
    text that is JSON but no tree; a stored document in which a directory
    has no [children]; and no stored text, in a browser that does not take
    the default root.  In none of them is a default root persisted. *)
Lemma initialization_can_throw :
  (localStorage corrupt_A !! "ru.kozobrodov.fileTree$A" = Some (Malformed "{") ∧
   getLocalStorageStateHolder 8 "A" corrupt_A = (Throw SyntaxError, corrupt_A)) ∧
  (localStorage misshapen_A !! "ru.kozobrodov.fileTree$A" = Some (NotATree "null") ∧
   (getLocalStorageStateHolder 8 "A" misshapen_A).1 = Throw TypeError ∧
   localStorage (getLocalStorageStateHolder 8 "A" misshapen_A).2 =
     localStorage misshapen_A) ∧
  (localStorage childless_A !! "ru.kozobrodov.fileTree$A" =
     Some (Json (JNode dir_a None)) ∧
   (getLocalStorageStateHolder 8 "A" childless_A).1 = Throw TypeError ∧
   localStorage (getLocalStorageStateHolder 8 "A" childless_A).2 =
     localStorage childless_A) ∧
  (localStorage full !! "ru.kozobrodov.fileTree$A" = None ∧
   (getLocalStorageStateHolder 8 "A" full).1 = Throw QuotaExceededError ∧
   localStorage (getLocalStorageStateHolder 8 "A" full).2 = ∅).
Proof. repeat split; vm_compute; reflexivity. Qed.

Lemma setItem_run key value w :
  quota w (<[key := value]> (localStorage w)) = true →
  localStorage_setItem key value w =
  (Ok (), with_localStorage (λ s, <[key := value]> s) w).
Proof. intros H. unfold localStorage_setItem. by rewrite H. Qed.

Lemma setItem_refused key value w :
  quota w (<[key := value]> (localStorage w)) = false →
  localStorage_setItem key value w = (Throw QuotaExceededError, w).
Proof. intros H. unfold localStorage_setItem. by rewrite H. Qed.

Lemma initState_run stack key w :
  initState stack key w =
  if quota w (<[key := Json default_root]> (localStorage w))
  then (Ok (length (nodes w)),
        with_localStorage (λ s, <[key := Json default_root]> s)
          (grow [Node default_fileData (Some (length (arrays w)))] [[]] w))
  else (Throw QuotaExceededError,
        grow [Node default_fileData (Some (length (arrays w)))] [[]] w).
Proof.
  unfold initState.
  rewrite (bind_ok _ _ _ _ _ (new_array_run _ _)).
  rewrite (bind_ok _ _ _ _ _ (new_node_run _ _)). rewrite grow_grow.
  simpl app. simpl nodes. rewrite !app_nil_r.
  set (w1 := grow _ _ w).
  assert (Hs : JSON_stringify stack (length (nodes w)) w1 = (Ok default_root, w1)).
  { apply (proj1 (JSON_stringify_shape 0 (nodes w1) (arrays w1))); try done.
    - eapply shape_parent.
      + lia.
      + simpl. by apply list_lookup_middle.
      + simpl. by apply list_lookup_middle.
      + constructor.
    - simpl. lia. }
  rewrite (bind_ok _ _ _ _ _ Hs). rewrite bind_run. unfold localStorage_setItem.
  change (quota w1) with (quota w). change (localStorage w1) with (localStorage w).
  by destruct (quota w _).
Qed.

(** * Expanding an empty directory, and collapsing it *)

Lemma Array_push_run a x l w :
  arrays w !! a = Some l →
  Array_push a x w = (Ok (), with_arrays (λ h, <[a := l ++ [x]]> h) w).
Proof.
  intros H. unfold Array_push. by rewrite (bind_ok _ _ _ _ _ (read_array_run _ _ _ H)).
Qed.

Lemma index_marker_run stack m (e : nref) w :
  nodes w !! e = Some EmptyMarker → index stack m e w = (Ok (), w).
Proof.
  intros H. rewrite index_eq. by rewrite (bind_ok _ _ _ _ _ (read_node_run _ _ _ H)).
Qed.

Lemma saveState_run k stack holder v w :
  shape k (nodes w) (arrays w) (root (tree holder)) v → height v ≤ stack →
  quota w (<[storageKey holder := Json v]> (localStorage w)) = true →
  saveState stack holder w =
  (Ok (), with_localStorage (λ s, <[storageKey holder := Json v]> s) w).
Proof.
  intros Hsh Hh Hq. unfold saveState, getCurrentState.
  rewrite (bind_ok _ _ _ _ _
    (proj1 (JSON_stringify_shape _ _ _) _ _ Hsh stack w eq_refl eq_refl Hh)).
  by apply setItem_run.
Qed.

(** C8. When [list] hands an empty sequence to the callback of an expanded
    path, and the browser takes what is written to the storage, exactly one
    marker is attached as the only child of the node at that path; the
    index map is the same as before, and no entry of it names a marker;
    collapsing the path afterwards returns without an exception and leaves
    the node with no children.  Wherever [index] runs, every entry it adds
    names a node object with [fileData]. *)
Theorem empty_listing_attaches_one_marker :
  (∀ stack m n w q r,
     the_map m (index stack m n w).2 !! q = Some r →
     the_map m w !! q = Some r ∨ is_Some (fileData_at (nodes w) r)) ∧
  (∀ stack settings p data w n v,
     let this := tree (stateHolder settings) in
     tree_ok w this →
     roomy w →
     the_map (pathToNodeIndex this) w !! p = Some n →
     arrays w !! data = Some [] →
     shape 0 (nodes w) (arrays w) (root this) v →
     height v < stack →
     ∃ w1 w2 fd a e a',
       onListed stack settings p data w = (Ok (), w1) ∧
       nodes w1 !! n = Some (Node fd (Some a)) ∧
       arrays w1 !! a = Some [e] ∧
       nodes w1 !! e = Some EmptyMarker ∧
       the_map (pathToNodeIndex this) w1 = the_map (pathToNodeIndex this) w ∧
       (∀ q r, the_map (pathToNodeIndex this) w1 !! q = Some r →
          nodes w1 !! r ≠ Some EmptyMarker) ∧
       expandableNodeClickHandler stack settings true p w1 = (Ok (), w2) ∧
       nodes w2 !! n = Some (Node fd (Some a')) ∧
       arrays w2 !! a' = Some [] ∧
       the_map (pathToNodeIndex this) w2 = the_map (pathToNodeIndex this) w).
Proof.
  split.
  { intros stack m n w q r. apply index_puts_nodes_only. }
  intros stack settings p data w n v this [Hm Hok] Hroomy Hp Hdata Hsh Hh.
  set (m := pathToNodeIndex this) in *.
  destruct (node_ok_inv _ _ _ (Hok _ _ Hp)) as (fd & ch & Hn & Hch).
  set (e := length (nodes w)).
  set (result := length (arrays w)).
  assert (Hlt : n < length (nodes w)) by (by eapply lookup_lt_Some).
  assert (Hdlt : data < length (arrays w)) by (by eapply lookup_lt_Some).
  (* the marker is made and pushed on the listed array *)
  set (w2 := with_arrays (λ h, <[data := [] ++ [e]]> h)
               (with_nodes (λ h, h ++ [EmptyMarker]) w)).
  assert (H2 : (emptyNode ← new_node EmptyMarker;
                Array_push data emptyNode) w = (Ok (), w2)).
  { rewrite bind_run. unfold new_node.
    rewrite (Array_push_run data e []); [done|].
    simpl. done. }
  (* the copy *)
  set (w4 := with_arrays (λ h, <[result := [] ++ [e]]> h)
               (with_arrays (λ h, h ++ [[]]) w2)).
  assert (Hres : length (arrays w2) = result) by (simpl; by rewrite length_insert).
  assert (H4 : copyChildren data w2 = (Ok result, w4)).
  { unfold copyChildren. rewrite bind_run. unfold new_array. rewrite Hres.
    set (w3 := with_arrays _ w2).
    assert (Hd3 : arrays w3 !! data = Some [e]).
    { simpl. apply lookup_app_l_Some. by apply list_lookup_insert_eq. }
    rewrite (bind_ok _ _ _ _ _ (read_array_run _ _ _ Hd3)).
    simpl forEach.
    assert (He3 : nodes w3 !! e = Some EmptyMarker) by (simpl; by apply list_lookup_middle).
    rewrite !bind_run. rewrite (read_node_run _ _ _ He3). cbn [isEmptyNode].
    rewrite (Array_push_run result e []); [done|].
    simpl. apply list_lookup_middle. by rewrite length_insert. }
  (* set *)
  assert (Hn4 : nodes w4 !! n = Some (Node fd ch)) by (simpl; by apply lookup_app_l_Some).
  assert (Hch4 : expandable fd = true → ∃ a l, ch = Some a ∧ arrays w4 !! a = Some l).
  { intros Hex. destruct (Hch Hex) as (a0 & l & -> & Hl). exists a0.
    assert (a0 < length (arrays w)) by (by eapply lookup_lt_Some).
    assert (is_Some (arrays w4 !! a0)) as [l' Hl'].
    { apply lookup_lt_is_Some. simpl. rewrite length_insert, length_app, length_insert. lia. }
    eauto. }
  set (w5 := with_nodes (λ h, <[n := Node fd (Some result)]> h) w4).
  assert (Hr5 : arrays w5 !! result = Some [e]).
  { simpl. apply list_lookup_insert_eq. rewrite length_app, length_insert. simpl. lia. }
  assert (He5 : nodes w5 !! e = Some EmptyMarker).
  { simpl. rewrite list_lookup_insert_ne by (unfold e; lia). by apply list_lookup_middle. }
  assert (Hn5 : nodes w5 !! n = Some (Node fd (Some result))).
  { simpl. apply list_lookup_insert_eq. rewrite length_app. lia. }
  assert (H5 : set stack this p result w4 = (Ok n, w5)).
  { rewrite (set_run stack this p result w4 n fd ch Hp Hn4 Hch4). fold w5.
    rewrite (bind_ok _ _ _ _ _ (read_array_run _ _ _ Hr5)). simpl forEach.
    rewrite !bind_run. by rewrite (index_marker_run _ _ _ _ He5). }
  (* the tree is still a tree, deeper by one at most *)
  assert (Hkeep : ∀ l o, l ≠ n → nodes w !! l = Some o → nodes w5 !! l = Some o).
  { intros l o Hne Hl. simpl. rewrite list_lookup_insert_ne by done.
    by apply lookup_app_l_Some. }
  assert (HA5 : ∀ a l, arrays w !! a = Some l →
            arrays w5 !! a = Some l ∨
            ∃ l', arrays w5 !! a = Some l' ∧
                  Forall (λ x, nodes w5 !! x = Some EmptyMarker) l' ∧ length l' ≤ 1).
  { intros a l Hl. assert (a < length (arrays w)) by (by eapply lookup_lt_Some).
    simpl. rewrite list_lookup_insert_ne by (unfold result; lia).
    rewrite lookup_app_l by (rewrite length_insert; lia).
    destruct (decide (a = data)) as [->|Hne].
    - right. exists [e]. rewrite list_lookup_insert_eq by done.
      split; [done|]. split; [|simpl; lia]. by constructor.
    - left. by rewrite list_lookup_insert_ne. }
  destruct (proj1 (shape_replace 0 (nodes w) (arrays w) (nodes w5) (arrays w5)
              n fd result [e] 1 Hkeep HA5 Hn5 Hr5
              ltac:(by constructor) ltac:(simpl; lia)) _ _ Hsh)
    as (v1 & Hsh1 & Hh1).
  set (w6 := with_localStorage (λ s, <[storageKey (stateHolder settings) := Json v1]> s) w5).
  assert (H6 : onListed stack settings p data w = (Ok (), w6)).
  { unfold onListed. rewrite (bind_ok _ _ _ _ _ (read_array_run _ _ _ Hdata)).
    change (length (@nil nref) =? 0) with true. cbv iota.
    rewrite (bind_ok _ _ _ _ _ H2).
    rewrite (bind_ok _ _ _ _ _ H4). unfold addNodes. fold this.
    rewrite bind_run, (bind_ok _ _ _ _ _ H5).
    rewrite (bind_ok _ _ _ _ _ (saveState_run 0 stack _ v1 w5 Hsh1 ltac:(lia) (Hroomy _))).
    done. }
  (* collapse *)
  set (a' := length (arrays w6)).
  set (w7 := with_nodes (λ h, <[n := Node fd (Some a')]> h) (grow [] [[]] w6)).
  assert (H7 : clear stack this p w6 = (Ok (), w7)).
  { apply (clear_run stack this p w6 n fd (Some result)); try done.
    intros _. eauto. }
  assert (Hn7 : nodes w7 !! n = Some (Node fd (Some a'))).
  { simpl. apply list_lookup_insert_eq. rewrite !length_app, length_insert, length_app. lia. }
  assert (Ha7 : arrays w7 !! a' = Some []).
  { simpl. by apply list_lookup_middle. }
  assert (Hkeep7 : ∀ l o, l ≠ n → nodes w !! l = Some o → nodes w7 !! l = Some o).
  { intros l o Hne Hl. simpl. rewrite list_lookup_insert_ne by done.
    apply lookup_app_l_Some. by apply Hkeep. }
  assert (HA7 : ∀ a l, arrays w !! a = Some l →
            arrays w7 !! a = Some l ∨
            ∃ l', arrays w7 !! a = Some l' ∧
                  Forall (λ x, nodes w7 !! x = Some EmptyMarker) l' ∧ length l' ≤ 1).
  { intros a l Hl. destruct (HA5 a l Hl) as [H|(l' & H & Hl' & Hlen)].
    - left. by apply lookup_app_l_Some.
    - right. exists l'. split; [by apply lookup_app_l_Some|]. split; [|done].
      eapply Forall_impl; [done|]. intros x Hx. simpl.
      assert (x ≠ n) by (intros ->; rewrite Hn5 in Hx; done).
      rewrite list_lookup_insert_ne by done. by apply lookup_app_l_Some. }
  destruct (proj1 (shape_replace 0 (nodes w) (arrays w) (nodes w7) (arrays w7)
              n fd a' [] 1 Hkeep7 HA7 Hn7 Ha7
              ltac:(by constructor) ltac:(simpl; lia)) _ _ Hsh)
    as (v2 & Hsh2 & Hh2).
  exists w6, (with_localStorage (λ s, <[storageKey (stateHolder settings) := Json v2]> s) w7),
    fd, result, e, a'.
  split; [done|]. split; [done|]. split; [done|]. split; [done|].
  split; [done|]. split.
  { intros q r Hq Hr. pose proof (Hok q r Hq) as Hnode.
    destruct (node_ok_inv _ _ _ Hnode) as (fdr & chr & Hrw & _).
    destruct (decide (r = n)) as [->|Hne].
    - change (nodes w6) with (nodes w5) in Hr. congruence.
    - change (nodes w6) with (nodes w5) in Hr. rewrite (Hkeep r _ Hne Hrw) in Hr. done. }
  split.
  { unfold expandableNodeClickHandler, clearNode. fold this.
    rewrite (bind_ok _ _ _ _ _ H7).
    rewrite (saveState_run 0 stack _ v2 w7); [done|done|lia|apply Hroomy]. }
  done.
Qed.

Lemma empty_listing_attaches_one_marker_witness :
  ∃ w1 w2 fd a e a',
    onListed 8 settings_A "" 1 listing_A = (Ok (), w1) ∧
    nodes w1 !! 0 = Some (Node fd (Some a)) ∧
    arrays w1 !! a = Some [e] ∧
    nodes w1 !! e = Some EmptyMarker ∧
    the_map 0 w1 = the_map 0 listing_A ∧
    (∀ q r, the_map 0 w1 !! q = Some r → nodes w1 !! r ≠ Some EmptyMarker) ∧
    expandableNodeClickHandler 8 settings_A true "" w1 = (Ok (), w2) ∧
    nodes w2 !! 0 = Some (Node fd (Some a')) ∧
    arrays w2 !! a' = Some [] ∧
    the_map 0 w2 = the_map 0 listing_A.
Proof.
  apply (proj2 empty_listing_attaches_one_marker 8 settings_A "" 1 listing_A 0
           default_root).
  - split; [vm_compute; lia|]. apply (bool_decide_unpack _). vm_compute. exact I.
  - intros s. reflexivity.
  - vm_compute. reflexivity.
  - vm_compute. reflexivity.
  - eapply shape_parent;
      [lia | vm_compute; reflexivity | vm_compute; reflexivity | constructor].
  - vm_compute. lia.
Defined.

(** * Sorting *)

Section sorting.
Context {X : Type} (wt : X → Z) (P2 P1 P0 : X → bool).

Lemma insert_by_app x (before after : list X) :
  Forall (λ y, (wt x < wt y)%Z) before →
  match after with [] => True | y :: _ => (wt y ≤ wt x)%Z end →
  insert_by wt x (before ++ after) = before ++ x :: after.
Proof.
  intros Hb Ha. induction Hb as [|y l Hy _ IH]; simpl.
  - destruct after as [|y l]; [done|]. simpl.
    destruct (Z.leb_spec (wt y - wt x) 0); [done | lia].
  - destruct (Z.leb_spec (wt y - wt x) 0); [lia|]. by rewrite IH.
Qed.

Lemma filter_classified (P : X → bool) k l :
  Forall (classified wt P2 P1 P0) l →
  (∀ x, classified wt P2 P1 P0 x → P x = true → wt x = k) →
  Forall (λ y, wt y = k) (filter (λ x, P x = true) l).
Proof.
  intros Hl HP. apply Forall_forall. intros x Hx.
  apply list_elem_of_filter in Hx as [HPx Hx].
  apply HP; [|done]. by eapply Forall_forall in Hl.
Qed.

Lemma sort_by_classes l :
  Forall (classified wt P2 P1 P0) l →
  sort_by wt l =
  filter (λ x, P2 x = true) l ++ filter (λ x, P1 x = true) l ++
  filter (λ x, P0 x = true) l.
Proof.
  intros Hl. induction Hl as [|x l Hx Hl IH]; [done|].
  assert (H2 : Forall (λ y, wt y = 2%Z) (filter (λ x, P2 x = true) l)).
  { apply filter_classified; [done|]. intros y [(?&?&?&?)|[(?&?&?&?)|(?&?&?&?)]] ?; congruence. }
  assert (H1 : Forall (λ y, wt y = 1%Z) (filter (λ x, P1 x = true) l)).
  { apply filter_classified; [done|]. intros y [(?&?&?&?)|[(?&?&?&?)|(?&?&?&?)]] ?; congruence. }
  assert (H0 : Forall (λ y, wt y = 0%Z) (filter (λ x, P0 x = true) l)).
  { apply filter_classified; [done|]. intros y [(?&?&?&?)|[(?&?&?&?)|(?&?&?&?)]] ?; congruence. }
  change (sort_by wt (x :: l)) with (insert_by wt x (sort_by wt l)). rewrite IH.
  rewrite !filter_cons.
  destruct Hx as [(-> & -> & -> & Hw)|[(-> & -> & -> & Hw)|(-> & -> & -> & Hw)]];
    simpl.
  - apply (insert_by_app x []); [constructor|].
    destruct H2 as [|y ? Hy _]; simpl; [|lia].
    destruct H1 as [|y ? Hy _]; simpl; [|lia].
    destruct H0 as [|y ? Hy _]; simpl; [done|lia].
  - apply insert_by_app.
    + eapply Forall_impl; [exact H2|]. simpl. intros; lia.
    + destruct H1 as [|y ? Hy _]; simpl; [|lia].
      destruct H0 as [|y ? Hy _]; simpl; [done|lia].
  - rewrite !app_assoc. apply insert_by_app.
    + apply Forall_app. split.
      * eapply Forall_impl; [exact H2|]. simpl. intros; lia.
      * eapply Forall_impl; [exact H1|]. simpl. intros; lia.
    + destruct H0 as [|y ? Hy _]; simpl; [done|lia].
Qed.
End sorting.

Lemma insert_by_Forall {X} (wt : X → Z) (P : X → Prop) x l :
  P x → Forall P l → Forall P (insert_by wt x l).
Proof.
  intros Hx Hl. induction Hl as [|y l Hy Hl IH]; simpl; [by constructor|].
  destruct (_ <=? _)%Z; repeat constructor; done.
Qed.

Lemma sort_by_Forall {X} (wt : X → Z) (P : X → Prop) l :
  Forall P l → Forall P (sort_by wt l).
Proof.
  induction 1; simpl; [constructor|]. by apply insert_by_Forall.
Qed.

Lemma class_of_fileData (fd : FileData) :
  (is_directory fd = true ∧ is_archive fd = false ∧ is_plain fd = false ∧
   class_weight fd = 2%Z) ∨
  (is_directory fd = false ∧ is_archive fd = true ∧ is_plain fd = false ∧
   class_weight fd = 1%Z) ∨
  (is_directory fd = false ∧ is_archive fd = false ∧ is_plain fd = true ∧
   class_weight fd = 0%Z).
Proof.
  unfold is_archive, is_plain, class_weight.
  destruct (is_directory fd), (expandable fd); simpl; tauto.
Qed.

Lemma sort_by_by_class {X} (f : X → option FileData) l :
  Forall (λ x, is_Some (f x)) l →
  sort_by (λ x, from_option class_weight 0%Z (f x)) l = by_class f l.
Proof.
  intros Hl. unfold by_class.
  apply (sort_by_classes _
           (λ x, from_option is_directory false (f x))
           (λ x, from_option is_archive false (f x))
           (λ x, from_option is_plain false (f x))).
  eapply Forall_impl; [exact Hl|]. intros x [fd Hfd]. unfold classified.
  rewrite Hfd. simpl. apply class_of_fileData.
Qed.

Lemma filter_filter_disjoint {X} (P Q : X → Prop)
    `{!∀ x, Decision (P x), !∀ x, Decision (Q x)} (l : list X) :
  (∀ x, P x → Q x → False) → filter P (filter Q l) = [].
Proof.
  intros Hdis. induction l as [|x l IH]; [done|].
  rewrite filter_cons. case_decide; [|done].
  rewrite filter_cons. case_decide; [|done]. exfalso; eauto.
Qed.

Lemma by_class_idempotent {X} (f : X → option FileData) l :
  by_class f (by_class f l) = by_class f l.
Proof.
  assert (Hc : ∀ x, match f x with
                    | Some fd => True
                    | None => from_option is_directory false (f x) = false ∧
                              from_option is_archive false (f x) = false ∧
                              from_option is_plain false (f x) = false
                    end).
  { intros x. by destruct (f x). }
  unfold by_class. rewrite !filter_app.
  rewrite (list_filter_filter_l _ _ l) by done.
  rewrite (list_filter_filter_l (λ x, from_option is_archive false (f x) = true)
             (λ x, from_option is_archive false (f x) = true) l) by done.
  rewrite (list_filter_filter_l (λ x, from_option is_plain false (f x) = true)
             (λ x, from_option is_plain false (f x) = true) l) by done.
  rewrite !filter_filter_disjoint; [by rewrite ?app_nil_r | ..];
    intros x; destruct (f x) as [fd|]; simpl; try done;
    destruct (class_of_fileData fd) as [(?&?&?&?)|[(?&?&?&?)|(?&?&?&?)]]; congruence.
Qed.

Lemma filter_fmap_class {X} (f : X → option FileData)
    (P : option FileData → bool) (l : list X) (data : list FileData) :
  f <$> l = Some <$> data →
  f <$> filter (λ x, P (f x) = true) l = Some <$> filter (λ d, P (Some d) = true) data.
Proof.
  revert data. induction l as [|x l IH]; intros [|d data] H; try done.
  simpl in H. injection H as Hx Hl. rewrite !filter_cons, Hx.
  specialize (IH data Hl).
  case_decide; [rewrite !fmap_cons, Hx|]; by rewrite IH.
Qed.

Lemma by_class_fmap {X} (f : X → option FileData) (l : list X) (data : list FileData) :
  f <$> l = Some <$> data →
  f <$> by_class f l = Some <$> by_class Some data.
Proof.
  intros H. unfold by_class. rewrite !fmap_app.
  rewrite (filter_fmap_class f (from_option is_directory false) l data H).
  rewrite (filter_fmap_class f (from_option is_archive false) l data H).
  by rewrite (filter_fmap_class f (from_option is_plain false) l data H).
Qed.

(** ** The sort as the providers run it *)

Lemma fileData_at_Some N (n : nref) fd :
  fileData_at N n = Some fd → ∃ ch, N !! n = Some (Node fd ch).
Proof.
  unfold fileData_at. destruct (N !! n) as [[fd' ch|]|]; try done.
  intros [= ->]. by exists ch.
Qed.

Lemma sortNodes_run w first second :
  is_Some (fileData_at (nodes w) first) →
  is_Some (fileData_at (nodes w) second) →
  sortNodes first second w =
  (Ok (weight_at (nodes w) second - weight_at (nodes w) first)%Z, w).
Proof.
  intros [f Hf] [s Hs]. unfold weight_at. rewrite Hf, Hs. simpl.
  apply fileData_at_Some in Hf as [chf Hf]. apply fileData_at_Some in Hs as [chs Hs].
  unfold sortNodes.
  rewrite (bind_ok _ _ _ _ _ (read_node_run _ _ _ Hf)).
  rewrite (bind_ok _ _ _ _ _ (read_node_run _ _ _ Hs)).
  unfold weight, class_weight, is_directory.
  destruct (String.eqb (type s) "directory"), (String.eqb (type f) "directory");
    reflexivity.
Qed.

Lemma sort_insert_run w x l :
  is_Some (fileData_at (nodes w) x) →
  Forall (λ y, is_Some (fileData_at (nodes w) y)) l →
  sort_insert sortNodes x l w = (Ok (insert_by (weight_at (nodes w)) x l), w).
Proof.
  intros Hx Hl. induction Hl as [|y l Hy Hl IH]; simpl; [done|].
  rewrite (bind_ok _ _ _ _ _ (sortNodes_run _ _ _ Hx Hy)).
  destruct (_ <=? _)%Z; [done|]. by rewrite (bind_ok _ _ _ _ _ IH).
Qed.

Lemma sort_list_run w l :
  Forall (λ y, is_Some (fileData_at (nodes w) y)) l →
  sort_list sortNodes l w = (Ok (by_class (fileData_at (nodes w)) l), w).
Proof.
  intros Hl. rewrite <- (sort_by_by_class _ l Hl).
  change (λ x, from_option class_weight 0%Z (fileData_at (nodes w) x))
    with (weight_at (nodes w)).
  induction Hl as [|x l Hx Hl IH]; simpl; [done|].
  rewrite (bind_ok _ _ _ _ _ IH). apply sort_insert_run; [done|].
  by apply sort_by_Forall.
Qed.

Lemma json_list_run this p callback w n fd a elems :
  the_map (pathToNodeIndex (JsonDataProvider.tree this)) w !! p = Some n →
  nodes w !! n = Some (Node fd (Some a)) →
  arrays w !! a = Some elems →
  Forall (λ x, is_Some (fileData_at (nodes w) x)) elems →
  JsonDataProvider.list this p callback w =
  callback a (with_arrays (λ h, <[a := by_class (fileData_at (nodes w)) elems]> h) w).
Proof.
  intros Hp Hn Ha Hel. unfold JsonDataProvider.list.
  rewrite (bind_ok _ _ _ _ _ (get_run_found _ _ _ _ Hp)). simpl as_node.
  rewrite (bind_ok _ _ _ _ _ (ret_run _ _)).
  rewrite (bind_ok _ _ _ _ _ (fields_run _ _ _ _ Hn)).
  unfold Array_sort. rewrite bind_run.
  rewrite (bind_ok _ _ _ _ _ (read_array_run _ _ _ Ha)).
  rewrite (bind_ok _ _ _ _ _ (sort_list_run _ _ Hel)).
  reflexivity.
Qed.

Lemma service_loop (a : aref) (data : list FileData) :
  ∀ w refs, arrays w !! a = Some refs →
  ∃ w',
    forEach data (λ fileData,
      children ← new_array [];
      node ← new_node (Node fileData (Some children));
      Array_push a node) w = (Ok (), w') ∧
    arrays w' !! a = Some (refs ++ seq (length (nodes w)) (length data)) ∧
    (∀ (x : nref) o, nodes w !! x = Some o → nodes w' !! x = Some o) ∧
    fileData_at (nodes w') <$> seq (length (nodes w)) (length data) = Some <$> data.
Proof.
  induction data as [|fd data IH]; intros w refs Ha.
  - exists w. simpl. by rewrite app_nil_r.
  - set (w3 := with_arrays (λ h, <[a := refs ++ [length (nodes w)]]> h)
                 (with_nodes (λ h, h ++ [Node fd (Some (length (arrays w)))])
                    (with_arrays (λ h, h ++ [[]]) w))).
    assert (Hstep : (children ← new_array [];
                     node ← new_node (Node fd (Some children));
                     Array_push a node) w = (Ok (), w3)).
    { rewrite (bind_ok _ _ _ _ _ (new_array_eq _ _)).
      rewrite (bind_ok _ _ _ _ _ (new_node_eq _ _)).
      apply Array_push_run. simpl. by apply lookup_app_l_Some. }
    assert (Ha3 : arrays w3 !! a = Some (refs ++ [length (nodes w)])).
    { simpl. apply list_lookup_insert_eq. rewrite length_app.
      apply lookup_lt_Some in Ha. lia. }
    destruct (IH w3 _ Ha3) as (w' & Hrun & Ha' & Hkeep & Hfd).
    assert (Hlen : length (nodes w3) = S (length (nodes w))).
    { simpl. rewrite length_app. simpl. lia. }
    rewrite Hlen in Ha', Hfd.
    exists w'. split; [|split; [|split]].
    + simpl forEach. by rewrite (bind_ok _ _ _ _ _ Hstep).
    + rewrite Ha'. simpl. by rewrite <- app_assoc.
    + intros x o Hx. apply Hkeep. simpl. by apply lookup_app_l_Some.
    + cbn [seq length]. rewrite !fmap_cons, Hfd. f_equal. unfold fileData_at.
      rewrite (Hkeep (length (nodes w)) (Node fd (Some (length (arrays w))))); [done|].
      simpl. by apply list_lookup_middle.
Qed.

Lemma mapToTreeNode_run data callback w :
  ∃ w' a refs,
    ServiceDataProvider.mapToTreeNode data callback w = callback a w' ∧
    arrays w' !! a = Some refs ∧
    fileData_at (nodes w') <$> refs = Some <$> by_class Some data.
Proof.
  unfold ServiceDataProvider.mapToTreeNode.
  rewrite (bind_ok _ _ _ _ _ (new_array_eq _ _)).
  set (a := length (arrays w)). set (w0 := with_arrays _ w).
  assert (Ha0 : arrays w0 !! a = Some []) by (simpl; by apply list_lookup_middle).
  destruct (service_loop a data w0 [] Ha0) as (w1 & Hrun & Ha1 & _ & Hfd).
  simpl in Ha1.
  assert (Hall : Forall (λ x, is_Some (fileData_at (nodes w1) x))
                   (seq (length (nodes w0)) (length data))).
  { apply Forall_forall. intros x Hx.
    apply (list_elem_of_fmap_2 (fileData_at (nodes w1))) in Hx.
    rewrite Hfd in Hx. apply list_elem_of_fmap in Hx as (d & -> & _). by eexists. }
  rewrite (bind_ok _ _ _ _ _ Hrun). unfold Array_sort. rewrite bind_run.
  rewrite (bind_ok _ _ _ _ _ (read_array_run _ _ _ Ha1)).
  rewrite (bind_ok _ _ _ _ _ (sort_list_run _ _ Hall)).
  eexists _, a, _. split; [reflexivity|]. split.
  - simpl. apply list_lookup_insert_eq. by eapply lookup_lt_Some.
  - by apply by_class_fmap.
Qed.

(** C5. Both data providers sort a children sequence before they deliver
    it: first the nodes of type ["directory"], then the other expandable
    nodes, then the nodes that are not expandable, each class in its
    original order.  The static-document provider delivers its stored array
    sorted so; the remote-service provider delivers a new array whose nodes
    carry the received records sorted so; and [text/plain, directory, zip]
    is delivered as [directory, zip, text/plain]. *)
Theorem providers_deliver_sorted :
  (∀ this p callback w n fd a elems,
     the_map (pathToNodeIndex (JsonDataProvider.tree this)) w !! p = Some n →
     nodes w !! n = Some (Node fd (Some a)) →
     arrays w !! a = Some elems →
     Forall (λ x, is_Some (fileData_at (nodes w) x)) elems →
     ∃ w', JsonDataProvider.list this p callback w = callback a w' ∧
           arrays w' !! a = Some (by_class (fileData_at (nodes w')) elems)) ∧
  (∀ this p callback errorCallback data w,
     ServiceDataProvider.service this (ServiceDataProvider.url this +:+ p) =
       ServiceDataProvider.Done data →
     ∃ w' a refs,
       ServiceDataProvider.list this p callback errorCallback w = callback a w' ∧
       arrays w' !! a = Some refs ∧
       fileData_at (nodes w') <$> refs = Some <$> by_class Some data) ∧
  by_class Some [plain_b; dir_a; zip_c] = [dir_a; zip_c; plain_b].
Proof.
  split; [|split].
  - intros this p callback w n fd a elems Hp Hn Ha Hel.
    eexists. split; [by apply (json_list_run this p callback w n fd a elems)|].
    simpl. apply list_lookup_insert_eq. by eapply lookup_lt_Some.
  - intros this p callback errorCallback data w Hreply.
    unfold ServiceDataProvider.list. rewrite Hreply. apply mapToTreeNode_run.
  - reflexivity.
Qed.

Lemma providers_deliver_sorted_witness :
  (∃ w', JsonDataProvider.list provider_A "" (λ _, mret ()) loaded_A = (Ok (), w') ∧
         arrays w' !! 2 = Some (by_class (fileData_at (nodes w')) [0; 1; 2])) ∧
  (∃ w' a refs,
     ServiceDataProvider.list service_A "/a" (λ _, mret ()) (mret ()) blank = (Ok (), w') ∧
     arrays w' !! a = Some refs ∧
     fileData_at (nodes w') <$> refs = Some <$> by_class Some [plain_b; dir_a; zip_c]).
Proof.
  split.
  - refine (proj1 providers_deliver_sorted provider_A "" (λ _, mret ()) loaded_A 3
              default_fileData 2 [0; 1; 2] _ _ _ _).
    + vm_compute. reflexivity.
    + vm_compute. reflexivity.
    + vm_compute. reflexivity.
    + repeat constructor; vm_compute; by eexists.
  - refine (proj1 (proj2 providers_deliver_sorted) service_A "/a" (λ _, mret ())
              (mret ()) [plain_b; dir_a; zip_c] blank _).
    reflexivity.
Defined.

(** C10. For the static-document provider, [list(path, callback)] sorts the
    children array kept inside the provider's tree in place and hands that
    very array to the callback: after the call the node at [path] still
    refers to the array, the array holds the sorted sequence, and a second
    [list] for the same path finds it sorted and hands over the same array
    with the same content. *)
Theorem json_list_sorts_stored_array this p callback w n fd a elems :
  the_map (pathToNodeIndex (JsonDataProvider.tree this)) w !! p = Some n →
  nodes w !! n = Some (Node fd (Some a)) →
  arrays w !! a = Some elems →
  Forall (λ x, is_Some (fileData_at (nodes w) x)) elems →
  let sorted := by_class (fileData_at (nodes w)) elems in
  let w' := with_arrays (λ h, <[a := sorted]> h) w in
  JsonDataProvider.list this p callback w = callback a w' ∧
  arrays w' !! a = Some sorted ∧
  nodes w' !! n = Some (Node fd (Some a)) ∧
  JsonDataProvider.list this p callback w' = callback a w'.
Proof.
  intros Hp Hn Ha Hel sorted w'.
  assert (Ha' : arrays w' !! a = Some sorted).
  { simpl. apply list_lookup_insert_eq. by eapply lookup_lt_Some. }
  split; [by apply (json_list_run this p callback w n fd a elems)|].
  split; [done|]. split; [done|].
  rewrite (json_list_run this p callback w' n fd a sorted); try done.
  - f_equal. apply world_eq; simpl; try done.
    rewrite list_insert_insert_eq. f_equal. apply by_class_idempotent.
  - apply Forall_forall. intros x Hx. unfold sorted, by_class in Hx.
    rewrite !elem_of_app, !list_elem_of_filter in Hx.
    eapply Forall_forall in Hel; [exact Hel|]. tauto.
Qed.

Lemma json_list_sorts_stored_array_witness :
  let sorted := by_class (fileData_at (nodes loaded_A)) [0; 1; 2] in
  let w' := with_arrays (λ h, <[2 := sorted]> h) loaded_A in
  JsonDataProvider.list provider_A "" (λ _, mret ()) loaded_A = (Ok (), w') ∧
  arrays w' !! 2 = Some sorted ∧
  nodes w' !! 3 = Some (Node default_fileData (Some 2)) ∧
  JsonDataProvider.list provider_A "" (λ _, mret ()) w' = (Ok (), w').
Proof.
  refine (json_list_sorts_stored_array provider_A "" (λ _, mret ()) loaded_A 3
            default_fileData 2 [0; 1; 2] _ _ _ _).
  - vm_compute. reflexivity.
  - vm_compute. reflexivity.
  - vm_compute. reflexivity.
  - repeat constructor; vm_compute; by eexists.
Defined.

(** * Further properties *)

(** ** JSON.stringify and JSON.parse *)

Lemma height_parent_gt fileData children stack :
  S stack < height (JNode fileData (Some children)) →
  Exists (λ v, stack < height v) children.
Proof.
  simpl. induction children as [|c cs IH]; simpl; intros H; [lia|].
  destruct (decide (stack < height c)); [by left|]. right. apply IH. lia.
Qed.

Lemma mapM_throw_cons {A B} (e : exn) (x : A) (l : list A) (w : world) :
  mapM (λ _ : A, throw e : M B) (x :: l) w = (Throw e, w).
Proof. reflexivity. Qed.

Lemma stringify_deep N A :
  (∀ n v, shape 0 N A n v → ∀ stack inside inside_arrays w,
     nodes w = N → arrays w = A → stack < height v →
     below N A (height v) inside inside_arrays →
     stringify stack inside inside_arrays n w = (Throw RangeError, w)) ∧
  (∀ ns vs, shapes 0 N A ns vs → ∀ stack inside inside_arrays w,
     nodes w = N → arrays w = A → Exists (λ v, stack < height v) vs →
     Forall (λ v, below N A (height v) inside inside_arrays) vs →
     mapM (stringify stack inside inside_arrays) ns w = (Throw RangeError, w)).
Proof.
  apply shape_shapes_ind.
  - intros n _ stack inside inside_arrays w _ _ Hh. simpl in Hh. lia.
  - intros n fd _ _ stack inside inside_arrays w _ _ Hh. simpl in Hh. lia.
  - intros n fd a elems cs Hk Hn Ha Hcs IH stack inside inside_arrays w <- <- Hh Hb.
    rewrite stringify_eq.
    rewrite bool_decide_eq_false_2
      by (eapply below_not_inside; [by eapply shape_parent | done]).
    rewrite (bind_ok _ _ _ _ _ (read_node_run _ _ _ Hn)). cbv iota.
    rewrite bool_decide_eq_false_2 by (by eapply below_not_inside_array).
    rewrite (bind_ok _ _ _ _ _ (read_array_run _ _ _ Ha)).
    destruct stack as [|stack].
    + destruct Hcs as [|e es c cs' _ _]; [simpl in Hh; lia|].
      by rewrite (bind_throw _ _ _ _ _ (mapM_throw_cons RangeError e es w)).
    + apply height_parent_gt in Hh.
      rewrite (bind_throw _ _ _ _ _ (IH stack (n :: inside) (a :: inside_arrays) w
                 eq_refl eq_refl Hh ltac:(
                   apply Forall_forall; intros c Hc; by eapply below_child))).
      done.
  - intros stack inside inside_arrays w _ _ H. by apply Exists_nil in H.
  - intros n ns v vs Hn IHn Hns IHns stack inside inside_arrays w HN HA Hex Hb. simpl.
    apply Forall_cons in Hb as [Hbv Hbvs].
    destruct (decide (height v ≤ stack)) as [Hle|Hgt].
    + rewrite (bind_ok _ _ _ _ _
        (proj1 (stringify_shape N A) n v Hn stack inside inside_arrays w HN HA Hle Hbv)).
      apply Exists_cons in Hex as [Hex|Hex]; [lia|].
      by rewrite (bind_throw _ _ _ _ _ (IHns stack inside inside_arrays w HN HA Hex Hbvs)).
    + by rewrite (bind_throw _ _ _ _ _
        (IHn stack inside inside_arrays w HN HA ltac:(lia) Hbv)).
Qed.

Lemma JSON_stringify_deep k N A n v stack w :
  shape k N A n v → nodes w = N → arrays w = A → stack < height v →
  JSON_stringify stack n w = (Throw RangeError, w).
Proof.
  intros Hsh HN HA Hh. unfold JSON_stringify.
  apply (proj1 (stringify_deep N A) n v); [|done..|apply below_nil].
  by apply (proj1 (shape_from k 0 N A ltac:(lia))).
Qed.

(** X1. [JSON.stringify(JSON.parse(text))] gives back the document of the
    text exactly when the document is no deeper than the stack has room for,
    and throws [RangeError] otherwise; the walk itself changes nothing in
    the store. *)
Theorem stringify_after_parse (v : json) (stack : nat) (w : world) :
  (r ← JSON_parse (Json v); JSON_stringify stack r) w =
  (if decide (height v ≤ stack) then Ok v else Throw RangeError,
   (JSON_parse (Json v) w).2).
Proof.
  simpl JSON_parse.
  destruct (construct_spec v w) as (n & N2 & A2 & Hrun & Hshape).
  rewrite (bind_ok _ _ _ _ _ Hrun), Hrun. simpl snd.
  specialize (Hshape (nodes w) (arrays w) eq_refl eq_refl).
  destruct (decide (height v ≤ stack)) as [Hle|Hgt].
  - by apply (proj1 (JSON_stringify_shape _ _ _) n v Hshape).
  - apply (JSON_stringify_deep _ _ _ n v _ _ Hshape); [done|done|lia].
Qed.

Lemma mapM_throw_Ok {A B} (e : exn) (l : list A) (w w' : world) (r : list B) :
  mapM (λ _ : A, throw e : M B) l w = (Ok r, w') → l = [] ∧ r = [] ∧ w' = w.
Proof.
  destruct l; [|discriminate]. simpl. intros H. by injection H as <- <-.
Qed.

Lemma stringify_body_sound (b : nat) (rec : list nat → M (list json))
    (inside : list nat) (inside_arrays : list nat) n w v w' :
  (∀ elems w vs w', rec elems w = (Ok vs, w') →
     w' = w ∧ shapes 0 (nodes w) (arrays w) elems vs ∧
     height (JNode default_fileData (Some vs)) ≤ b) →
  (if bool_decide (n ∈ inside) then throw TypeError
   else
     o ← read_node n;
     match o with
     | EmptyMarker => mret JEmpty
     | Node fileData None => mret (JNode fileData None)
     | Node fileData (Some a) =>
         if bool_decide (a ∈ inside_arrays) then throw TypeError
         else
           elems ← read_array a;
           children ← rec elems;
           mret (JNode fileData (Some children))
     end) w = (Ok v, w') →
  w' = w ∧ shape 0 (nodes w) (arrays w) n v ∧ height v ≤ b.
Proof.
  intros Hrec. destruct (bool_decide (n ∈ inside)); [discriminate|].
  rewrite bind_run. unfold read_node.
  destruct (nodes w !! n) as [[fd [a|]|]|] eqn:Hn; try discriminate.
  - destruct (bool_decide (a ∈ inside_arrays)); [discriminate|].
    rewrite bind_run. unfold read_array.
    destruct (arrays w !! a) as [elems|] eqn:Ha; [|discriminate].
    rewrite bind_run. destruct (rec elems w) as [[vs|e] w1] eqn:Hr; [|discriminate].
    intros [= <- <-]. destruct (Hrec _ _ _ _ Hr) as (-> & Hsh & Hh).
    split; [done|]. split; [|exact Hh].
    eapply shape_parent; [lia | done | done | done].
  - intros [= <- <-]. split; [done|]. split; [|simpl; lia].
    apply shape_childless; [lia | done].
  - intros [= <- <-]. split; [done|]. split; [|simpl; lia].
    by apply shape_marker.
Qed.

Lemma stringify_sound stack :
  ∀ inside inside_arrays n w v w',
    stringify stack inside inside_arrays n w = (Ok v, w') →
    w' = w ∧ shape 0 (nodes w) (arrays w) n v ∧ height v ≤ stack.
Proof.
  induction stack as [|stack IH]; intros inside inside_arrays n w v w' H;
    rewrite stringify_eq in H.
  - apply (stringify_body_sound 0 (mapM (λ _, throw RangeError)) inside inside_arrays
             n w v w'); [|exact H].
    intros elems w0 vs w0' Hm. apply mapM_throw_Ok in Hm as (-> & -> & ->).
    split; [done|]. split; [constructor | simpl; lia].
  - revert H.
    destruct (bool_decide (n ∈ inside)) eqn:Hin; [discriminate|].
    rewrite bind_run. unfold read_node.
    destruct (nodes w !! n) as [[fd [a|]|]|] eqn:Hn; try discriminate.
    + destruct (bool_decide (a ∈ inside_arrays)) eqn:HinA; [discriminate|].
      rewrite bind_run. unfold read_array.
      destruct (arrays w !! a) as [elems|] eqn:Ha; [|discriminate].
      rewrite bind_run.
      destruct (mapM (stringify stack (n :: inside) (a :: inside_arrays)) elems w)
        as [[vs|e] w1] eqn:Hr; [|discriminate].
      intros [= <- <-].
      assert (Hall : ∀ elems w0 vs w0',
                mapM (stringify stack (n :: inside) (a :: inside_arrays)) elems w0 =
                  (Ok vs, w0') →
                w0' = w0 ∧ shapes 0 (nodes w0) (arrays w0) elems vs ∧
                height (JNode default_fileData (Some vs)) ≤ S stack).
      { clear -IH. intros elems. induction elems as [|e elems IHe]; intros w0 vs w0' Hm.
        - injection Hm as <- <-. split; [done|]. split; [constructor | simpl; lia].
        - simpl in Hm. rewrite bind_run in Hm.
          destruct (stringify stack _ _ e w0) as [[c|x] w1] eqn:He; [|discriminate].
          rewrite bind_run in Hm.
          destruct (mapM (stringify stack (n :: inside) (a :: inside_arrays)) elems w1)
            as [[cs|x] w2] eqn:Hes; [|discriminate].
          injection Hm as <- <-.
          destruct (IH _ _ _ _ _ _ He) as (-> & Hsh & Hh).
          destruct (IHe _ _ _ Hes) as (-> & Hshs & Hhs).
          split; [done|]. split; [by constructor|]. simpl in *. lia. }
      destruct (Hall _ _ _ _ Hr) as (-> & Hsh & Hh).
      split; [done|]. split; [|exact Hh].
      eapply shape_parent; [lia | done | done | done].
    + intros [= <- <-]. split; [done|]. split; [|simpl; lia].
      apply shape_childless; [lia | done].
    + intros [= <- <-]. split; [done|]. split; [|simpl; lia].
      by apply shape_marker.
Qed.

Lemma JSON_stringify_sound stack n w v w' :
  JSON_stringify stack n w = (Ok v, w') →
  w' = w ∧ shape 0 (nodes w) (arrays w) n v ∧ height v ≤ stack.
Proof. apply stringify_sound. Qed.

(** A tree with a cycle is not persisted: [index] does not descend into a
    node that is not expandable, so [set] attaches the listing and returns,
    and [JSON.stringify] then meets the root again below itself. *)
Lemma stringify_refuses_cycle :
  (set 8 tree_A "" 2 cyclic_A).1 = Ok 0 ∧
  (addNodes 8 holder_A "" 2 cyclic_A).1 = Throw TypeError ∧
  localStorage (addNodes 8 holder_A "" 2 cyclic_A).2 = localStorage cyclic_A.
Proof. repeat split; vm_compute; reflexivity. Qed.

(** ** What is persisted *)

Lemma bind_Ok_inv {A B} (m : M A) (f : A → M B) (w w' : world) (b : B) :
  (m ≫= f) w = (Ok b, w') → ∃ a w1, m w = (Ok a, w1) ∧ f a w1 = (Ok b, w').
Proof.
  rewrite bind_run. destruct (m w) as [[a|e] w1]; [|discriminate]. eauto.
Qed.

Lemma saveState_Ok_inv stack holder w w' :
  saveState stack holder w = (Ok (), w') →
  ∃ v, localStorage w' !! storageKey holder = Some (Json v) ∧
       shape 0 (nodes w') (arrays w') (getCurrentState holder) v ∧
       height v ≤ stack.
Proof.
  unfold saveState. intros H.
  apply bind_Ok_inv in H as (v & w1 & Hs & Hset).
  apply JSON_stringify_sound in Hs as (-> & Hsh & Hh).
  unfold localStorage_setItem in Hset.
  destruct (quota w _); [|discriminate].
  injection Hset as <-. exists v. split; [|done].
  simpl. by rewrite lookup_insert_eq.
Qed.

(** X2. Whenever [addNodes], [clearNode] or [saveState] returns normally,
    the text kept in [localStorage] under the holder's key is the document
    that the graph under the current root spells in the resulting world:
    the persisted state is a full snapshot of the tree as it is. *)
Theorem persisted_state_is_current_root stack holder w w' :
  (saveState stack holder w = (Ok (), w') ∨
   (∃ p, clearNode stack holder p w = (Ok (), w')) ∨
   (∃ p children n, addNodes stack holder p children w = (Ok n, w'))) →
  ∃ v, localStorage w' !! storageKey holder = Some (Json v) ∧
       shape 0 (nodes w') (arrays w') (getCurrentState holder) v ∧
       height v ≤ stack.
Proof.
  intros [H|[(p & H)|(p & children & n & H)]].
  - by eapply saveState_Ok_inv.
  - unfold clearNode in H. apply bind_Ok_inv in H as ([] & w1 & _ & H).
    by eapply saveState_Ok_inv.
  - unfold addNodes in H. apply bind_Ok_inv in H as (u & w1 & _ & H).
    apply bind_Ok_inv in H as ([] & w2 & H & Hret). injection Hret as _ <-.
    by eapply saveState_Ok_inv.
Qed.

Lemma persisted_state_is_current_root_witness :
  ∃ v, localStorage (addNodes 8 holder_A "" 2 listed_A).2 !! storageKey holder_A =
         Some (Json v) ∧
       shape 0 (nodes (addNodes 8 holder_A "" 2 listed_A).2)
         (arrays (addNodes 8 holder_A "" 2 listed_A).2) (getCurrentState holder_A) v ∧
       height v ≤ 8.
Proof.
  apply (persisted_state_is_current_root 8 holder_A listed_A
           (addNodes 8 holder_A "" 2 listed_A).2).
  right. right. exists "", 2, 0. vm_compute. reflexivity.
Defined.

(** ** What the operations leave alone *)

Section keeps.
Context (R : world → world → Prop) `{!PreOrder R}.

Lemma keeps_ret {A} (a : A) : keeps R (mret a : M A).
Proof. intros w. reflexivity. Qed.

Lemma keeps_throw {A} (e : exn) : keeps R (throw e : M A).
Proof. intros w. reflexivity. Qed.

Lemma keeps_bind {A B} (m : M A) (f : A → M B) :
  keeps R m → (∀ a, keeps R (f a)) → keeps R (m ≫= f).
Proof.
  intros Hm Hf w. rewrite bind_run. specialize (Hm w).
  destruct (m w) as [[a|e] w1]; [|done].
  etrans; [exact Hm | apply Hf].
Qed.

Lemma keeps_forEach {A} (l : list A) (f : A → M ()) :
  (∀ x, keeps R (f x)) → keeps R (forEach l f).
Proof.
  intros Hf. induction l as [|x l IH]; simpl.
  - apply keeps_ret.
  - apply keeps_bind; [apply Hf | intros _; apply IH].
Qed.

Lemma keeps_mapM {A B} (f : A → M B) (l : list A) :
  (∀ x, keeps R (f x)) → keeps R (mapM f l).
Proof.
  intros Hf. induction l as [|x l IH]; simpl.
  - apply keeps_ret.
  - apply keeps_bind; [apply Hf | intros y].
    apply keeps_bind; [apply IH | intros k; apply keeps_ret].
Qed.

Lemma keeps_read_node n : keeps R (read_node n).
Proof. intros w. unfold read_node. destruct (nodes w !! n); reflexivity. Qed.

Lemma keeps_read_array a : keeps R (read_array a).
Proof. intros w. unfold read_array. destruct (arrays w !! a); reflexivity. Qed.

Lemma keeps_map_get m key : keeps R (map_get m key).
Proof. intros w. reflexivity. Qed.

Lemma keeps_removeFromIndex stack m n : keeps R (removeFromIndex stack m n).
Proof. rewrite removeFromIndex_returns. apply keeps_ret. Qed.

Lemma keeps_localStorage_getItem key : keeps R (localStorage_getItem key).
Proof. intros w. reflexivity. Qed.

Lemma keeps_children_of children : keeps R (children_of children).
Proof. destruct children; [apply keeps_read_array | apply keeps_throw]. Qed.

Lemma keeps_deref node : keeps R (deref node).
Proof. destruct node; [apply keeps_ret | apply keeps_throw]. Qed.

Lemma keeps_as_node node : keeps R (as_node node).
Proof. destruct node as [[n|]|]; [apply keeps_ret | apply keeps_throw..]. Qed.

Lemma keeps_fields n : keeps R (fields n).
Proof.
  apply keeps_bind; [apply keeps_read_node|].
  intros [fd ch|]; [apply keeps_ret | apply keeps_throw].
Qed.
End keeps.

Lemma keeps_weaken {A} (R R' : world → world → Prop) (m : M A) :
  (∀ w w', R w w' → R' w w') → keeps R m → keeps R' m.
Proof. intros H Hm w. apply H, Hm. Qed.

#[local] Instance same_storage_preorder : PreOrder same_storage.
Proof. split; [by intros w | intros w1 w2 w3 H1 H2; unfold same_storage in *; congruence]. Qed.

#[local] Instance same_indexes_preorder : PreOrder same_indexes.
Proof. split; [by intros w | intros w1 w2 w3 H1 H2; unfold same_indexes in *; congruence]. Qed.

#[local] Instance storage_but_preorder key : PreOrder (storage_but key).
Proof.
  split; [by intros w k | intros w1 w2 w3 H1 H2 k Hk].
  by rewrite (H2 k Hk), (H1 k Hk).
Qed.

#[local] Instance index_grows_preorder m : PreOrder (index_grows m).
Proof.
  split; [intros w | intros w1 w2 w3 H1 H2]; unfold index_grows in *; set_solver.
Qed.

Create HintDb keeps.
#[local] Hint Resolve keeps_ret keeps_throw keeps_read_node keeps_read_array
  keeps_map_get keeps_removeFromIndex keeps_localStorage_getItem
  keeps_children_of keeps_deref keeps_as_node keeps_fields : keeps.
#[local] Hint Extern 0 (PreOrder _) => apply _ : keeps.
#[local] Hint Extern 5 (keeps same_storage _) => (intros ?; reflexivity) : keeps.
#[local] Hint Extern 5 (keeps same_indexes _) => (intros ?; reflexivity) : keeps.

Ltac keeps_go :=
  repeat (intros;
    first
      [ apply keeps_ret | apply keeps_throw
      | apply keeps_bind | apply keeps_forEach | apply keeps_mapM
      | match goal with
        | |- PreOrder _ => apply _
        | |- keeps _ (match ?x with _ => _ end) => destruct x
        end
      | solve [eauto with keeps] ]).

Ltac kbind := apply keeps_bind; [apply _ | idtac | idtac].
Ltac kret := apply keeps_ret; apply _.

Lemma same_storage_index stack m n : keeps same_storage (index stack m n).
Proof. revert n. induction stack; intros n; rewrite index_eq; keeps_go. Qed.

Lemma same_storage_get this p : keeps same_storage (get this p).
Proof. unfold get. keeps_go. Qed.

#[local] Hint Resolve same_storage_index same_storage_get : keeps.

Lemma same_storage_set stack this p a : keeps same_storage (set stack this p a).
Proof. unfold set. keeps_go. Qed.

Lemma same_storage_clear stack this p : keeps same_storage (clear stack this p).
Proof. unfold clear. keeps_go. Qed.

Lemma same_storage_JSON_stringify stack n : keeps same_storage (JSON_stringify stack n).
Proof.
  unfold JSON_stringify. generalize (@nil nat) at 1. generalize (@nil nat). revert n.
  induction stack; intros n inside_arrays inside; rewrite stringify_eq; keeps_go.
Qed.

Lemma same_storage_construct v : keeps same_storage (construct v).
Proof.
  induction v as [| fd | fd cs IH] using json_forall_ind; simpl; [keeps_go..|].
  kbind; [|keeps_go].
  induction IH as [|c cs Hc _ IHcs]; simpl; [keeps_go|].
  kbind; [exact Hc | intros y].
  kbind; [exact IHcs | keeps_go].
Qed.

Lemma same_storage_copyChildren children : keeps same_storage (copyChildren children).
Proof. unfold copyChildren, Array_push. keeps_go. Qed.

#[local] Hint Resolve same_storage_set same_storage_clear same_storage_JSON_stringify
  same_storage_construct same_storage_copyChildren : keeps.

Lemma storage_but_of_same key w w' : same_storage w w' → storage_but key w w'.
Proof. intros H k _. by rewrite H. Qed.

Lemma storage_but_setItem key value : keeps (storage_but key) (localStorage_setItem key value).
Proof.
  intros w k Hk. unfold localStorage_setItem. destruct (quota w _); [|done].
  simpl. by rewrite lookup_insert_ne.
Qed.

Lemma storage_but_saveState stack holder :
  keeps (storage_but (storageKey holder)) (saveState stack holder).
Proof.
  unfold saveState. kbind; [|intros s; apply storage_but_setItem].
  eapply keeps_weaken; [apply storage_but_of_same | apply same_storage_JSON_stringify].
Qed.

Lemma storage_but_addNodes stack holder p a :
  keeps (storage_but (storageKey holder)) (addNodes stack holder p a).
Proof.
  unfold addNodes. kbind.
  - eapply keeps_weaken; [apply storage_but_of_same | apply same_storage_set].
  - intros n. kbind; [apply storage_but_saveState | intros _; kret].
Qed.

Lemma storage_but_clearNode stack holder p :
  keeps (storage_but (storageKey holder)) (clearNode stack holder p).
Proof.
  unfold clearNode. kbind; [|intros _; apply storage_but_saveState].
  eapply keeps_weaken; [apply storage_but_of_same | apply same_storage_clear].
Qed.

Lemma storage_but_getIndexedFileDataTree key stack n :
  keeps (storage_but key) (getIndexedFileDataTree stack n).
Proof.
  eapply keeps_weaken; [apply storage_but_of_same|].
  unfold getIndexedFileDataTree. keeps_go.
Qed.

Lemma storage_but_getLocalStorageStateHolder stack id :
  keeps (storage_but ("ru.kozobrodov.fileTree$" +:+ id))
    (getLocalStorageStateHolder stack id).
Proof.
  unfold getLocalStorageStateHolder. kbind; [(apply keeps_localStorage_getItem; apply _)|].
  intros [t|].
  - kbind.
    + eapply keeps_weaken; [apply storage_but_of_same|].
      destruct t; simpl; keeps_go.
    + intros r. kbind; [apply storage_but_getIndexedFileDataTree|].
      intros ?. kret.
  - kbind.
    + unfold initState. kbind.
      { eapply keeps_weaken; [apply storage_but_of_same|]. keeps_go. }
      intros c. kbind.
      { eapply keeps_weaken; [apply storage_but_of_same|]. keeps_go. }
      intros r. kbind.
      { eapply keeps_weaken; [apply storage_but_of_same|]. keeps_go. }
      intros js. kbind; [apply storage_but_setItem | intros _; kret].
    + intros r. kbind; [apply storage_but_getIndexedFileDataTree|].
      intros ?. kret.
Qed.

(** X3. Trees with different identifiers are persisted apart: the storage
    keys of two identifiers are equal only if the identifiers are; making a
    state holder for an identifier, and every [addNodes] and [clearNode] on
    it, leave the text stored under any other key as it was, however they
    end; and [get], [set], [clear] and [copyChildren] never write to the
    storage at all. *)
Theorem trees_are_persisted_apart stack holder id id' p a w :
  id' ≠ id →
  storageKey holder = "ru.kozobrodov.fileTree$" +:+ id →
  let key' := "ru.kozobrodov.fileTree$" +:+ id' in
  key' ≠ storageKey holder ∧
  localStorage (getLocalStorageStateHolder stack id w).2 !! key' =
    localStorage w !! key' ∧
  localStorage (addNodes stack holder p a w).2 !! key' = localStorage w !! key' ∧
  localStorage (clearNode stack holder p w).2 !! key' = localStorage w !! key' ∧
  localStorage (get (tree holder) p w).2 = localStorage w ∧
  localStorage (set stack (tree holder) p a w).2 = localStorage w ∧
  localStorage (clear stack (tree holder) p w).2 = localStorage w ∧
  localStorage (copyChildren a w).2 = localStorage w.
Proof.
  intros Hid Hkey key'.
  assert (Hne : key' ≠ storageKey holder).
  { rewrite Hkey. unfold key'. intros H. by simplify_eq. }
  split; [done|]. split; [|split; [|split; [|repeat split]]].
  - apply storage_but_getLocalStorageStateHolder. by rewrite <- Hkey.
  - by apply storage_but_addNodes.
  - by apply storage_but_clearNode.
  - apply same_storage_get.
  - apply same_storage_set.
  - apply same_storage_clear.
  - apply same_storage_copyChildren.
Qed.

Lemma trees_are_persisted_apart_witness :
  let key' := "ru.kozobrodov.fileTree$" +:+ "B" in
  key' ≠ storageKey holder_A ∧
  localStorage (getLocalStorageStateHolder 8 "A" listed_A).2 !! key' =
    localStorage listed_A !! key' ∧
  localStorage (addNodes 8 holder_A "" 2 listed_A).2 !! key' =
    localStorage listed_A !! key' ∧
  localStorage (clearNode 8 holder_A "" listed_A).2 !! key' =
    localStorage listed_A !! key' ∧
  localStorage (get (tree holder_A) "" listed_A).2 = localStorage listed_A ∧
  localStorage (set 8 (tree holder_A) "" 2 listed_A).2 = localStorage listed_A ∧
  localStorage (clear 8 (tree holder_A) "" listed_A).2 = localStorage listed_A ∧
  localStorage (copyChildren 2 listed_A).2 = localStorage listed_A.
Proof.
  apply (trees_are_persisted_apart 8 holder_A "A" "B" "" 2 listed_A).
  - discriminate.
  - reflexivity.
Defined.

(** ** The index only grows *)

#[local] Instance eq_world_preorder : PreOrder (@eq world).
Proof. split; [by intros w | intros w1 w2 w3; congruence]. Qed.

Lemma JSON_stringify_pure stack n : keeps eq (JSON_stringify stack n).
Proof.
  unfold JSON_stringify. generalize (@nil nat) at 1. generalize (@nil nat). revert n.
  induction stack; intros n inside_arrays inside; rewrite stringify_eq; keeps_go.
Qed.

Lemma index_grows_of_same m w w' : same_indexes w w' → index_grows m w w'.
Proof. unfold same_indexes, index_grows, the_map. by intros ->. Qed.

#[local] Hint Extern 6 (keeps (index_grows _) _) =>
  (eapply keeps_weaken; [apply index_grows_of_same | intros ?; reflexivity]) : keeps.

Lemma index_grows_new_map m : keeps (index_grows m) new_map.
Proof.
  intros w. unfold index_grows, the_map. simpl.
  destruct (indexes w !! m) as [i|] eqn:Hi.
  - by rewrite (lookup_app_l_Some _ _ _ _ Hi).
  - simpl. rewrite dom_empty_L. set_solver.
Qed.

Lemma the_map_with_map_ne m m' i w : m' ≠ m → the_map m (with_map m' i w) = the_map m w.
Proof. intros H. unfold the_map. simpl. by rewrite list_lookup_insert_ne. Qed.

Lemma the_map_with_map_ge m i w :
  length (indexes w) ≤ m → the_map m (with_map m i w) = the_map m w.
Proof. intros H. unfold the_map. simpl. by rewrite list_insert_ge. Qed.

Lemma index_grows_map_put m m' key n : keeps (index_grows m) (map_put m' key n).
Proof.
  intros w. unfold index_grows. rewrite map_put_run. simpl snd.
  destruct (decide (m' = m)) as [->|Hne].
  - destruct (decide (m < length (indexes w))) as [Hlt|Hge].
    + rewrite the_map_with_map by done. rewrite dom_insert_L. set_solver.
    + by rewrite the_map_with_map_ge by lia.
  - by rewrite the_map_with_map_ne.
Qed.

#[local] Hint Resolve index_grows_new_map index_grows_map_put : keeps.

Lemma index_grows_index m stack m' n : keeps (index_grows m) (index stack m' n).
Proof. revert n. induction stack; intros n; rewrite index_eq; keeps_go. Qed.

#[local] Hint Resolve index_grows_index : keeps.

Lemma index_grows_get m this p : keeps (index_grows m) (get this p).
Proof. unfold get. keeps_go. Qed.

#[local] Hint Resolve index_grows_get : keeps.

Lemma index_grows_set m stack this p a : keeps (index_grows m) (set stack this p a).
Proof. unfold set. keeps_go. Qed.

Lemma index_grows_JSON_stringify m stack n : keeps (index_grows m) (JSON_stringify stack n).
Proof.
  eapply keeps_weaken; [|apply JSON_stringify_pure]. intros w w' <-. reflexivity.
Qed.

#[local] Hint Resolve index_grows_set index_grows_JSON_stringify : keeps.

Lemma the_map_saveState m stack holder w :
  the_map m (saveState stack holder w).2 = the_map m w.
Proof.
  unfold saveState. rewrite bind_run. pose proof (JSON_stringify_pure stack
    (getCurrentState holder) w) as H.
  destruct (JSON_stringify stack (getCurrentState holder) w) as [[v|e] w1];
    simpl in H; subst w1; [|reflexivity].
  unfold localStorage_setItem. by destruct (quota w _).
Qed.

Lemma index_grows_setItem m key value :
  keeps (index_grows m) (localStorage_setItem key value).
Proof.
  intros w. unfold localStorage_setItem, index_grows. by destruct (quota w _).
Qed.

#[local] Hint Resolve index_grows_setItem : keeps.

Lemma index_grows_saveState m stack holder : keeps (index_grows m) (saveState stack holder).
Proof. unfold saveState. keeps_go. Qed.

#[local] Hint Resolve index_grows_saveState : keeps.

Lemma index_grows_addNodes m stack holder p a :
  keeps (index_grows m) (addNodes stack holder p a).
Proof. unfold addNodes. keeps_go. Qed.

(** X4. No operation of the tree or of the state holder ever takes a path out
    of an index: after [set] and [addNodes], however they end, every path
    that was indexed is still indexed, and [clear] and [clearNode] leave the
    index map exactly as it was. *)
Theorem index_never_loses_a_path (m : nat) stack holder p a w :
  dom (the_map m w) ⊆ dom (the_map m (set stack (tree holder) p a w).2) ∧
  dom (the_map m w) ⊆ dom (the_map m (addNodes stack holder p a w).2) ∧
  the_map (pathToNodeIndex (tree holder)) (clear stack (tree holder) p w).2 =
    the_map (pathToNodeIndex (tree holder)) w ∧
  the_map (pathToNodeIndex (tree holder)) (clearNode stack holder p w).2 =
    the_map (pathToNodeIndex (tree holder)) w.
Proof.
  split; [apply index_grows_set|]. split; [|split].
  - apply index_grows_addNodes.
  - apply clear_keeps_index.
  - unfold clearNode. rewrite bind_run.
    pose proof (clear_keeps_index stack (tree holder) p w) as H.
    destruct (clear stack (tree holder) p w) as [[[]|e] w1]; simpl in H; [|done].
    by rewrite the_map_saveState.
Qed.

(** ** Keys of the index are paths of the nodes *)

#[local] Instance puts_by_path_preorder m : PreOrder (puts_by_path m).
Proof.
  split.
  - intros w. split; [done|]. intros; by left.
  - intros w1 w2 w3 [HN1 H1] [HN2 H2]. split; [congruence|]. intros q r Hq.
    destruct (H2 q r Hq) as [H|H]; [by apply H1|]. right. by rewrite <- HN1.
Qed.

Lemma puts_by_path_of_same m w w' :
  nodes w' = nodes w → indexes w' = indexes w → puts_by_path m w w'.
Proof. intros HN HI. split; [done|]. intros q r. unfold the_map. rewrite HI. by left. Qed.

#[local] Hint Extern 6 (keeps (puts_by_path _) _) =>
  (intros ?; apply puts_by_path_of_same; reflexivity) : keeps.

Lemma puts_by_path_map_put m m' fd ch (n : nat) w :
  nodes w !! n = Some (Node fd ch) →
  puts_by_path m w (with_map m' (<[path fd := n]> (the_map m' w)) w).
Proof.
  intros Hn. split; [done|]. intros q r.
  destruct (decide (m' = m)) as [->|Hne]; [|rewrite the_map_with_map_ne by done; by left].
  destruct (decide (m < length (indexes w))) as [Hlt|Hge];
    [|rewrite the_map_with_map_ge by lia; by left].
  rewrite the_map_with_map by done. rewrite lookup_insert.
  case_decide as Hq; [|by left]. intros [= <-]. right.
  unfold fileData_at. rewrite Hn. simpl. by rewrite Hq.
Qed.

Lemma index_body_puts_by_path m m' n (k : list nat → M ()) :
  (∀ elems, keeps (puts_by_path m) (k elems)) →
  keeps (puts_by_path m)
    (o ← read_node n;
     if isEmptyNode o then mret ()
     else
       match o with
       | EmptyMarker => throw TypeError
       | Node fileData children =>
           map_put m' (path fileData) n;;
           if expandable fileData then
             elems ← children_of children;
             k elems
           else mret ()
       end).
Proof.
  intros Hk w. rewrite bind_run. unfold read_node.
  destruct (nodes w !! n) as [[fd ch|]|] eqn:Hn; try reflexivity.
  cbn [isEmptyNode]. rewrite (bind_ok _ _ _ _ _ (map_put_run _ _ _ _)).
  etrans; [by eapply puts_by_path_map_put|].
  assert (Hrest : keeps (puts_by_path m)
            (if expandable fd then elems ← children_of ch; k elems else mret ())).
  { keeps_go; apply Hk. }
  apply Hrest.
Qed.

Lemma index_puts_by_path m stack m' n : keeps (puts_by_path m) (index stack m' n).
Proof.
  revert n. induction stack as [|stack IH]; intros n; rewrite index_eq.
  - apply (index_body_puts_by_path m m' n (λ elems, forEach elems (λ _, throw RangeError))).
    keeps_go.
  - apply (index_body_puts_by_path m m' n (λ elems, forEach elems (index stack m'))).
    keeps_go; apply IH.
Qed.

Lemma keys_are_paths_step m w w' :
  puts_by_path m w w' → keys_are_paths m w → keys_are_paths m w'.
Proof.
  intros [HN H] Hk q r Hq. rewrite HN.
  destruct (H q r Hq) as [Hold|Hnew]; [by apply Hk | done].
Qed.

Lemma keys_are_paths_frame m w w' :
  indexes w' = indexes w →
  (∀ r fd, fileData_at (nodes w) r = Some fd → fileData_at (nodes w') r = Some fd) →
  keys_are_paths m w → keys_are_paths m w'.
Proof.
  intros HI HN Hk q r Hq. unfold the_map in Hq. rewrite HI in Hq.
  specialize (Hk q r Hq). simpl in Hk.
  destruct (fileData_at (nodes w) r) as [fd|] eqn:Hfd; [|done].
  by rewrite (HN r fd Hfd).
Qed.

Lemma fileData_at_write N (n : nat) fd ch ch' (r : nat) :
  N !! n = Some (Node fd ch) →
  fileData_at (<[n := Node fd ch']> N) r = fileData_at N r.
Proof.
  intros Hn. unfold fileData_at. destruct (decide (r = n)) as [->|Hne].
  - rewrite list_lookup_insert_eq by (by eapply lookup_lt_Some). by rewrite Hn.
  - by rewrite list_lookup_insert_ne.
Qed.

Lemma keys_are_paths_set m stack this p a w :
  keys_are_paths m w → keys_are_paths m (set stack this p a w).2.
Proof.
  intros Hk. unfold set. rewrite get_as_node_run.
  destruct (the_map (pathToNodeIndex this) w !! p) as [n|];
    [|by destruct (property _ _ p)].
  rewrite bind_run. unfold fields. rewrite bind_run. unfold read_node.
  destruct (nodes w !! n) as [[fd ch|]|] eqn:Hn; try exact Hk.
  rewrite ret_run. cbv iota beta. rewrite bind_run.
  assert (Hrem : ∀ w0, ((if expandable fd then
             elems ← children_of ch;
             forEach elems (removeFromIndex stack (pathToNodeIndex this))
           else mret ()) w0).2 = w0).
  { intros w0. destruct (expandable fd); [|done]. rewrite bind_run.
    destruct ch as [a0|]; [|done]. simpl. unfold read_array.
    destruct (arrays w0 !! a0); [|done]. by rewrite forEach_removeFromIndex. }
  specialize (Hrem w). revert Hrem.
  match goal with
  | |- context [let (o, w') := ?x in _] => destruct x as [[[]|e] w1]
  end; simpl; intros ->; [|exact Hk].
  rewrite bind_run. unfold write_node.
  set (wc := with_nodes _ w).
  assert (Hkc : keys_are_paths m wc).
  { apply (keys_are_paths_frame m w); [done| |done]. intros r fd' Hr.
    simpl. by rewrite (fileData_at_write _ _ _ _ _ _ Hn). }
  assert (Hrest : keeps (puts_by_path m)
            (elems ← read_array a;
             forEach elems (index stack (pathToNodeIndex this));; mret n)).
  { keeps_go; apply index_puts_by_path. }
  exact (keys_are_paths_step m wc _ (Hrest wc) Hkc).
Qed.

Lemma keys_are_paths_clear m stack this p w :
  keys_are_paths m w → keys_are_paths m (clear stack this p w).2.
Proof.
  intros Hk. unfold clear. rewrite get_as_node_run.
  destruct (the_map (pathToNodeIndex this) w !! p) as [n|];
    [|by destruct (property _ _ p)].
  rewrite bind_run. unfold fields. rewrite bind_run. unfold read_node.
  destruct (nodes w !! n) as [[fd ch|]|] eqn:Hn; try exact Hk.
  rewrite ret_run. cbv iota beta. rewrite bind_run.
  assert (Hrem : ∀ w0, ((if expandable fd then
             elems ← children_of ch;
             forEach elems (removeFromIndex stack (pathToNodeIndex this))
           else mret ()) w0).2 = w0).
  { intros w0. destruct (expandable fd); [|done]. rewrite bind_run.
    destruct ch as [a0|]; [|done]. simpl. unfold read_array.
    destruct (arrays w0 !! a0); [|done]. by rewrite forEach_removeFromIndex. }
  specialize (Hrem w). revert Hrem.
  match goal with
  | |- context [let (o, w') := ?x in _] => destruct x as [[[]|e] w1]
  end; simpl; intros ->; [|exact Hk].
  apply (keys_are_paths_frame m w); [done| |done]. intros r fd' Hr.
  simpl. by rewrite (fileData_at_write _ _ _ _ _ _ Hn).
Qed.

Lemma keys_are_paths_saveState m stack holder w :
  keys_are_paths m w → keys_are_paths m (saveState stack holder w).2.
Proof.
  intros Hk. unfold saveState. rewrite bind_run.
  pose proof (JSON_stringify_pure stack (getCurrentState holder) w) as H.
  destruct (JSON_stringify stack (getCurrentState holder) w) as [[v|e] w1];
    simpl in H; subst w1; [|exact Hk].
  unfold localStorage_setItem. by destruct (quota w _).
Qed.

(** X5. The keys of an index stay the paths of the nodes kept under them:
    when every key of an index map is the path of its node, this is still so
    after [set], [clear], [addNodes] and [clearNode], however they end (also
    when they throw half way).  A path is never made to name a node that has
    another path. *)
Theorem index_keys_stay_node_paths (m : nat) stack holder p a w :
  keys_are_paths m w →
  keys_are_paths m (set stack (tree holder) p a w).2 ∧
  keys_are_paths m (clear stack (tree holder) p w).2 ∧
  keys_are_paths m (addNodes stack holder p a w).2 ∧
  keys_are_paths m (clearNode stack holder p w).2.
Proof.
  intros Hk. split; [by apply keys_are_paths_set|].
  split; [by apply keys_are_paths_clear|]. split.
  - unfold addNodes. rewrite bind_run.
    pose proof (keys_are_paths_set m stack (tree holder) p a w Hk) as H.
    destruct (set stack (tree holder) p a w) as [[n|e] w1]; [|exact H].
    rewrite bind_run.
    pose proof (keys_are_paths_saveState m stack holder w1 H) as H'.
    by destruct (saveState stack holder w1) as [[[]|e] w2].
  - unfold clearNode. rewrite bind_run.
    pose proof (keys_are_paths_clear m stack (tree holder) p w Hk) as H.
    destruct (clear stack (tree holder) p w) as [[[]|e] w1]; [|exact H].
    by apply keys_are_paths_saveState.
Qed.

Lemma index_keys_stay_node_paths_witness :
  keys_are_paths 0 (set 8 (tree holder_A) "" 2 listed_A).2 ∧
  keys_are_paths 0 (clear 8 (tree holder_A) "" listed_A).2 ∧
  keys_are_paths 0 (addNodes 8 holder_A "" 2 listed_A).2 ∧
  keys_are_paths 0 (clearNode 8 holder_A "" listed_A).2.
Proof.
  apply (index_keys_stay_node_paths 0 8 holder_A "" 2 listed_A).
  apply (@bool_decide_unpack _ (keys_are_paths_dec 0 listed_A)). vm_compute. exact I.
Defined.

Lemma forEach_throws {X} (P : exn → Prop) (f : X → M ()) l :
  (∀ x w, match (f x w).1 with Ok _ => True | Throw e => P e end) →
  ∀ w, match (forEach l f w).1 with Ok _ => True | Throw e => P e end.
Proof.
  intros Hf. induction l as [|x l IH]; intros w; simpl; [done|].
  rewrite bind_run. specialize (Hf x w). destruct (f x w) as [[[]|e] w1]; [apply IH | done].
Qed.

Lemma index_throws stack m n w :
  match (index stack m n w).1 with
  | Ok _ => True
  | Throw e => e = TypeError ∨ e = RangeError
  end.
Proof.
  revert n w. induction stack as [|stack IH]; intros n w; rewrite index_eq;
    rewrite bind_run; unfold read_node;
    (destruct (nodes w !! n) as [[fd [a|]|]|]; [| | done | by left]);
    cbn [isEmptyNode]; rewrite (bind_ok _ _ _ _ _ (map_put_run _ _ _ _));
    (destruct (expandable fd); [|done]); simpl children_of;
    try (by left); rewrite bind_run; unfold read_array;
    (destruct (arrays _ !! a) as [elems|]; [|by left]).
  - apply forEach_throws. intros x w0. by right.
  - apply forEach_throws. intros x w0. apply IH.
Qed.

(** X6. The index of a tree that has just been made holds nodes under their
    own paths only, also when making the tree throws: the new index map is
    the one allocated last, and every key in it is the path of the node kept
    under it.  When making the tree throws, it is a [TypeError] (a node
    without what [index] reads) or a [RangeError] (nesting beyond the
    stack). *)
Theorem new_index_keys_are_node_paths stack root w :
  keys_are_paths (length (indexes w)) (getIndexedFileDataTree stack root w).2 ∧
  match (getIndexedFileDataTree stack root w).1 with
  | Ok t => pathToNodeIndex t = length (indexes w)
  | Throw e => e = TypeError ∨ e = RangeError
  end.
Proof.
  split.
  - unfold getIndexedFileDataTree. rewrite bind_run. unfold new_map.
    set (w1 := with_indexes _ w). rewrite bind_run.
    assert (Hk1 : keys_are_paths (length (indexes w)) w1).
    { intros q r. unfold the_map. simpl. rewrite list_lookup_middle by done.
      simpl. by rewrite lookup_empty. }
    pose proof (keys_are_paths_step _ _ _
      (index_puts_by_path (length (indexes w)) stack (length (indexes w)) root w1) Hk1) as H.
    by destruct (index stack (length (indexes w)) root w1) as [[[]|e] w2].
  - unfold getIndexedFileDataTree. rewrite bind_run. unfold new_map.
    rewrite bind_run.
    pose proof (index_throws stack (length (indexes w)) root
                  (with_indexes (λ h, h ++ [∅]) w)) as H.
    by destruct (index stack (length (indexes w)) root _) as [[[]|e] w2].
Qed.

(** ** copyChildren *)

Lemma push_on_last w0 N A acc x :
  Array_push (length (arrays w0)) x (grow N (acc :: A) w0) =
  (Ok (), grow N ((acc ++ [x]) :: A) w0).
Proof.
  rewrite (Array_push_run _ _ acc) by (simpl; by apply list_lookup_middle).
  f_equal. apply world_eq; try reflexivity. simpl.
  rewrite insert_app_r_alt by lia. by rewrite Nat.sub_diag.
Qed.

Lemma copy_loop w0 elems objs :
  Forall2 (λ e o, nodes w0 !! e = Some o) elems objs →
  ∀ N A acc, ∃ N2 A2 cs,
    forEach elems (λ child,
      o ← read_node child;
      if isEmptyNode o then Array_push (length (arrays w0)) child
      else
        '(fileData, _) ← fields child;
        copy ← (if expandable fileData then
                  c ← new_array [];
                  new_node (Node fileData (Some c))
                else new_node (Node fileData None));
        Array_push (length (arrays w0)) copy) (grow N (acc :: A) w0) =
    (Ok (), grow (N ++ N2) ((acc ++ cs) :: A ++ A2) w0) ∧
    Forall2 (λ c e, nodes w0 !! e = Some EmptyMarker → c = e) cs elems ∧
    ∀ N3 A3 acc',
      shapes (length (nodes w0)) (nodes w0 ++ (N ++ N2) ++ N3)
        (arrays w0 ++ (acc' :: A ++ A2) ++ A3) cs (top <$> objs).
Proof.
  induction 1 as [|e o elems objs He _ IH]; intros N A acc.
  - exists [], [], []. rewrite !app_nil_r. split; [done|]. split; constructor.
  - simpl forEach. rewrite bind_run.
    assert (Hread : read_node e (grow N (acc :: A) w0) = (Ok o, grow N (acc :: A) w0)).
    { apply read_node_run. simpl. by apply lookup_app_l_Some. }
    rewrite (bind_ok _ _ _ _ _ Hread).
    destruct o as [fd ch|]; cbn [isEmptyNode].
    + assert (Hfields : fields e (grow N (acc :: A) w0) =
                        (Ok (fd, ch), grow N (acc :: A) w0)).
      { apply fields_run. simpl. by apply lookup_app_l_Some. }
      rewrite (bind_ok _ _ _ _ _ Hfields).
      destruct (expandable fd) eqn:Hex.
      * rewrite !bind_run, new_array_run, grow_grow, new_node_run, grow_grow.
        rewrite !app_nil_r, <- !app_comm_cons.
        assert (HkA : length (arrays (grow N (acc :: A) w0)) =
                      length (arrays w0) + S (length A)).
        { simpl. rewrite length_app. simpl. lia. }
        assert (HkN : length (nodes (grow N (acc :: A ++ [[]]) w0)) =
                      length (nodes w0) + length N).
        { simpl. by rewrite length_app. }
        rewrite HkA, HkN, push_on_last.
        destruct (IH (N ++ [Node fd (Some (length (arrays w0) + S (length A)))])
                    (A ++ [[]]) (acc ++ [length (nodes w0) + length N]))
          as (N2 & A2 & cs & Hrun & Hsame & Hsh).
        rewrite Hrun.
        exists (Node fd (Some (length (arrays w0) + S (length A))) :: N2), ([] :: A2),
          ((length (nodes w0) + length N) :: cs).
        split; [by rewrite <- !app_assoc|]. split; [constructor; [|done]; by rewrite He|].
        intros N3 A3 acc'. specialize (Hsh N3 A3 acc').
        rewrite <- !app_assoc in Hsh. simpl in Hsh.
        rewrite <- !app_assoc. simpl. rewrite Hex. constructor; [|done].
        eapply shape_parent; [lia | | | constructor].
        -- rewrite lookup_app_r by lia. rewrite lookup_app_r by lia.
           replace (length (nodes w0) + length N - length (nodes w0) - length N) with 0 by lia.
           done.
        -- rewrite lookup_app_r by lia.
           replace (length (arrays w0) + S (length A) - length (arrays w0))
             with (S (length A)) by lia.
           simpl. rewrite <- app_assoc. by apply list_lookup_middle.
      * rewrite !bind_run, new_node_run, grow_grow.
        rewrite !app_nil_r.
        assert (HkN : length (nodes (grow N (acc :: A) w0)) =
                      length (nodes w0) + length N).
        { simpl. by rewrite length_app. }
        rewrite HkN, push_on_last.
        destruct (IH (N ++ [Node fd None]) A (acc ++ [length (nodes w0) + length N]))
          as (N2 & A2 & cs & Hrun & Hsame & Hsh).
        rewrite Hrun.
        exists (Node fd None :: N2), A2, ((length (nodes w0) + length N) :: cs).
        split; [by rewrite <- !app_assoc|]. split; [constructor; [|done]; by rewrite He|].
        intros N3 A3 acc'. specialize (Hsh N3 A3 acc').
        rewrite <- !app_assoc in Hsh. simpl in Hsh.
        rewrite <- !app_assoc. simpl. rewrite Hex. constructor; [|done].
        apply shape_childless; [lia|].
        rewrite lookup_app_r by lia. rewrite lookup_app_r by lia.
        replace (length (nodes w0) + length N - length (nodes w0) - length N) with 0 by lia.
        done.
    + rewrite push_on_last.
      destruct (IH N A (acc ++ [e])) as (N2 & A2 & cs & Hrun & Hsame & Hsh).
      rewrite Hrun. exists N2, A2, (e :: cs).
      split; [by rewrite <- !app_assoc|]. split; [by constructor|].
      intros N3 A3 acc'. simpl. constructor; [|apply Hsh].
      apply shape_marker. by apply lookup_app_l_Some.
Qed.



(** ** Expanding a path with a listing that is not empty *)

Lemma shape_above k N A N' :
  (∀ l, k ≤ l → N' !! l = N !! l) →
  (∀ l, N !! l = Some EmptyMarker → N' !! l = Some EmptyMarker) →
  (∀ n v, shape k N A n v → shape k N' A n v) ∧
  (∀ ns vs, shapes k N A ns vs → shapes k N' A ns vs).
Proof.
  intros Habove Hmarker. apply shape_shapes_ind.
  - intros n Hn. apply shape_marker. by apply Hmarker.
  - intros n fd Hk Hn. apply shape_childless; [done|]. by rewrite Habove.
  - intros n fd a elems cs Hk Hn Ha _ IH.
    eapply shape_parent; [done | by rewrite Habove | done | done].
  - constructor.
  - intros n ns v vs _ IH _ IHs. by constructor.
Qed.

(** Replacing the children of one node by an array that spells documents of
    height below [k] keeps the graph a tree and makes it deeper by at most
    [k]. *)
Lemma shape_graft k0 N A N' A' n0 fd0 a0 elems0 vs0 k :
  (∀ l o, l ≠ n0 → N !! l = Some o → N' !! l = Some o) →
  (∀ a l, A !! a = Some l → A' !! a = Some l) →
  N' !! n0 = Some (Node fd0 (Some a0)) →
  A' !! a0 = Some elems0 →
  shapes 0 N' A' elems0 vs0 →
  height (JNode fd0 (Some vs0)) ≤ k →
  forallb indexable vs0 = true →
  (∀ n v, shape k0 N A n v →
     ∃ v', shape 0 N' A' n v' ∧ height v' ≤ height v + k ∧
           (indexable v = true → indexable v' = true)) ∧
  (∀ ns vs, shapes k0 N A ns vs →
     ∃ vs', shapes 0 N' A' ns vs' ∧
       (∀ fileData, height (JNode fileData (Some vs')) ≤
                    height (JNode fileData (Some vs)) + k) ∧
       (forallb indexable vs = true → forallb indexable vs' = true)).
Proof.
  intros HN HA Hn0 Ha0 Hvs0 Hk Hidx0.
  assert (Hat0 : ∃ v', shape 0 N' A' n0 v' ∧ height v' ≤ k ∧ indexable v' = true).
  { exists (JNode fd0 (Some vs0)). split; [|done].
    eapply shape_parent; [lia | done | done | done]. }
  apply shape_shapes_ind.
  - intros n Hn. destruct (decide (n = n0)) as [->|Hne].
    + destruct Hat0 as (v' & ? & ? & ?). exists v'. split; [done|]. split; [lia | done].
    + exists JEmpty. split; [|split; [simpl; lia | done]]. apply shape_marker. by apply HN.
  - intros n fd _ Hn. destruct (decide (n = n0)) as [->|Hne].
    + destruct Hat0 as (v' & ? & ? & ?). exists v'. split; [done|]. split; [lia | done].
    + exists (JNode fd None). split; [|split; [simpl; lia | done]].
      apply shape_childless; [lia|]. by apply HN.
  - intros n fd a elems cs _ Hn Ha _ (cs' & Hcs' & Hh & Hi).
    destruct (decide (n = n0)) as [->|Hne].
    + destruct Hat0 as (v' & ? & ? & ?). exists v'. split; [done|]. split; [lia | done].
    + exists (JNode fd (Some cs')). split; [|split; [apply Hh | exact Hi]].
      eapply shape_parent; [lia | by apply HN | by apply HA | done].
  - exists []. split; [constructor|]. split; [simpl; lia | done].
  - intros n ns v vs _ (v' & Hv' & Hhv & Hiv) _ (vs' & Hvs' & Hhvs & Hivs).
    exists (v' :: vs'). split; [by constructor|]. split.
    + intros fd. specialize (Hhvs fd). simpl in *. lia.
    + simpl. intros [? ?]%andb_true_iff. apply andb_true_iff. split; eauto.
Qed.

Lemma height_top o : height (top o) = 0.
Proof. destruct o as [fd ch|]; [|done]. simpl. by destruct (expandable fd). Qed.

Lemma indexable_top o : indexable (top o) = true.
Proof.
  destruct o as [fd ch|]; [|done]. simpl. by destruct (expandable fd) eqn:H; simpl; rewrite ?H.
Qed.

Lemma height_tops fd objs : height (JNode fd (Some (top <$> objs))) ≤ 1.
Proof.
  simpl. induction objs as [|o objs IH]; simpl; [lia|]. rewrite height_top.
  change (list_fmap object json top objs) with (top <$> objs). lia.
Qed.

Lemma onListed_run stack settings p data elems objs w n v :
  let this := tree (stateHolder settings) in
  let m := pathToNodeIndex this in
  tree_ok w this →
  roomy w →
  the_map m w !! p = Some n →
  arrays w !! data = Some elems →
  elems ≠ [] →
  Forall2 (λ e o, nodes w !! e = Some o) elems objs →
  shape 0 (nodes w) (arrays w) (root this) v →
  height v < stack →
  ∃ w1 fd cs rs v1,
    onListed stack settings p data w = (Ok (), w1) ∧
    nodes w1 !! n = Some (Node fd (Some (length (arrays w)))) ∧
    fileData_at (nodes w) n = Some fd ∧
    arrays w1 !! length (arrays w) = Some cs ∧
    shapes (length (nodes w)) (nodes w1) (arrays w1) cs (top <$> objs) ∧
    Forall2 (λ c e, nodes w !! e = Some EmptyMarker → c = e) cs elems ∧
    the_map m w1 = puts rs (the_map m w) ∧
    Forall2 (entry_of (length (nodes w)) (nodes w1) (arrays w1)) rs
      (flat_map entries (top <$> objs)) ∧
    (∀ l o, l ≠ n → nodes w !! l = Some o → nodes w1 !! l = Some o) ∧
    (∀ a l, arrays w !! a = Some l → arrays w1 !! a = Some l) ∧
    localStorage w1 = <[storageKey (stateHolder settings) := Json v1]> (localStorage w) ∧
    shape 0 (nodes w1) (arrays w1) (root this) v1 ∧
    height v1 ≤ height v + 1 ∧
    (indexable v = true → indexable v1 = true).
Proof.
  intros this m [Hm Hok] Hroomy Hp Hdata Hne Hobjs Hsh Hh.
  destruct (node_ok_inv _ _ _ (Hok _ _ Hp)) as (fd & ch & Hn & Hch).
  assert (Hlt : n < length (nodes w)) by (by eapply lookup_lt_Some).
  destruct (copy_loop w elems objs Hobjs [] [] []) as (N2 & A2 & cs & Hloop & Hsame & Hcs).
  set (result := length (arrays w)).
  set (w4 := grow N2 (cs :: A2) w).
  assert (H4 : copyChildren data w = (Ok result, w4)).
  { unfold copyChildren. rewrite bind_run, new_array_run.
    assert (Hread : read_array data (grow [] [[]] w) = (Ok elems, grow [] [[]] w)).
    { apply read_array_run. simpl. by apply lookup_app_l_Some. }
    rewrite (bind_ok _ _ _ _ _ Hread). rewrite bind_run, Hloop. done. }
  (* set *)
  assert (Hp4 : the_map (pathToNodeIndex this) w4 !! p = Some n) by done.
  assert (Hn4 : nodes w4 !! n = Some (Node fd ch)) by (simpl; by apply lookup_app_l_Some).
  assert (Hch4 : expandable fd = true → ∃ a l, ch = Some a ∧ arrays w4 !! a = Some l).
  { intros Hex. destruct (Hch Hex) as (a0 & l & -> & Hl). exists a0, l.
    split; [done|]. simpl. by apply lookup_app_l_Some. }
  set (w5 := with_nodes (λ h, <[n := Node fd (Some result)]> h) w4).
  assert (Hr5 : arrays w5 !! result = Some cs) by (simpl; by apply list_lookup_middle).
  assert (Hn5 : nodes w5 !! n = Some (Node fd (Some result))).
  { simpl. apply list_lookup_insert_eq. rewrite length_app. lia. }
  assert (Hcs5 : shapes (length (nodes w)) (nodes w5) (arrays w5) cs (top <$> objs)).
  { specialize (Hcs [] [] cs). rewrite !app_nil_r in Hcs. simpl in Hcs.
    refine (proj2 (shape_above _ (nodes w4) _ (nodes w5) _ _) _ _ Hcs).
    - intros l Hl. simpl. by rewrite list_lookup_insert_ne by lia.
    - intros l Hl. simpl. rewrite list_lookup_insert_ne; [done|].
      intros ->. simpl in Hl. rewrite (lookup_app_l_Some _ _ _ _ Hn) in Hl. done. }
  assert (Hm5 : m < length (indexes w5)) by done.
  assert (Hidxs : forallb indexable (top <$> objs) = true).
  { apply forallb_forall. intros x Hx. apply list_elem_of_In in Hx.
    apply list_elem_of_fmap in Hx as (o & -> & _). apply indexable_top. }
  destruct (proj2 (index_shape (length (nodes w)) (nodes w5) (arrays w5)) cs (top <$> objs)
              Hcs5 stack m w5 eq_refl eq_refl Hm5 Hidxs)
    as (w6 & Hidx & rs & -> & Hrs).
  { apply Forall_fmap, Forall_forall. intros o _. simpl. rewrite height_top. lia. }
  set (w6 := with_map m (puts rs (the_map m w5)) w5).
  assert (H6 : set stack this p result w4 = (Ok n, w6)).
  { rewrite (set_run stack this p result w4 n fd ch Hp4 Hn4 Hch4). fold w5.
    rewrite (bind_ok _ _ _ _ _ (read_array_run _ _ _ Hr5)).
    fold m. rewrite bind_run, Hidx. done. }
  (* the tree is still a tree, deeper by one at most *)
  assert (Hkeep : ∀ l o, l ≠ n → nodes w !! l = Some o → nodes w5 !! l = Some o).
  { intros l o Hnl Hl. simpl. rewrite list_lookup_insert_ne by done.
    by apply lookup_app_l_Some. }
  assert (HA5 : ∀ a l, arrays w !! a = Some l → arrays w5 !! a = Some l).
  { intros a l Hl. simpl. by apply lookup_app_l_Some. }
  destruct (proj1 (shape_graft 0 (nodes w) (arrays w) (nodes w5) (arrays w5)
              n fd result cs (top <$> objs) 1 Hkeep HA5 Hn5 Hr5
              (proj2 (shape_from _ 0 _ _ ltac:(lia)) _ _ Hcs5) (height_tops _ _)
              Hidxs) _ _ Hsh)
    as (v1 & Hsh1 & Hh1 & Hi1).
  exists (with_localStorage (λ s, <[storageKey (stateHolder settings) := Json v1]> s) w6),
    fd, cs, rs, v1.
  split.
  { unfold onListed. rewrite (bind_ok _ _ _ _ _ (read_array_run _ _ _ Hdata)).
    destruct elems as [|e elems]; [done|]. simpl length. cbn [Nat.eqb].
    rewrite (bind_ok _ _ _ _ _ (ret_run _ _)).
    rewrite (bind_ok _ _ _ _ _ H4). unfold addNodes. fold this.
    rewrite bind_run, (bind_ok _ _ _ _ _ H6).
    rewrite (bind_ok _ _ _ _ _ (saveState_run 0 stack _ v1 w6 Hsh1 ltac:(lia) (Hroomy _))).
    done. }
  split; [done|]. split; [unfold fileData_at; by rewrite Hn|]. split; [done|].
  split; [done|]. split; [done|]. split.
  { change (the_map m (with_map m (puts rs (the_map m w5)) w5) = puts rs (the_map m w)).
    by rewrite the_map_with_map. }
  split; [done|]. split; [done|]. split; [done|]. split; [done|]. split; done.
Qed.


(** X8. Expanding a path with a listing that is not empty.  When the
    callback of the click handler is given an array with at least one
    element, for a path the index of the state tree holds, and the browser
    takes what is written to the storage, it returns without an exception,
    and afterwards: the node at the path has a new
    [children] array that holds the one-level copies of the listed
    elements (the markers among them as the same objects); the index has
    gained one entry for each copied node, under the path of the copy, put
    in the order of the listing, and is otherwise as before; apart from the
    node at the path, every node object and every array the store had,
    the listed array included, is as it was; and the storage holds, under
    the key of the state holder, the document the root now spells. *)
Theorem expanding_attaches_copies stack settings p data elems objs w n v :
  let this := tree (stateHolder settings) in
  let m := pathToNodeIndex this in
  tree_ok w this →
  roomy w →
  the_map m w !! p = Some n →
  arrays w !! data = Some elems →
  elems ≠ [] →
  Forall2 (λ e o, nodes w !! e = Some o) elems objs →
  shape 0 (nodes w) (arrays w) (root this) v →
  height v < stack →
  ∃ w1 fd cs rs v1,
    onListed stack settings p data w = (Ok (), w1) ∧
    nodes w1 !! n = Some (Node fd (Some (length (arrays w)))) ∧
    fileData_at (nodes w) n = Some fd ∧
    arrays w1 !! length (arrays w) = Some cs ∧
    shapes (length (nodes w)) (nodes w1) (arrays w1) cs (top <$> objs) ∧
    Forall2 (λ c e, nodes w !! e = Some EmptyMarker → c = e) cs elems ∧
    the_map m w1 = puts rs (the_map m w) ∧
    Forall2 (entry_of (length (nodes w)) (nodes w1) (arrays w1)) rs
      (flat_map entries (top <$> objs)) ∧
    (∀ l o, l ≠ n → nodes w !! l = Some o → nodes w1 !! l = Some o) ∧
    (∀ a l, arrays w !! a = Some l → arrays w1 !! a = Some l) ∧
    localStorage w1 = <[storageKey (stateHolder settings) := Json v1]> (localStorage w) ∧
    shape 0 (nodes w1) (arrays w1) (root this) v1.
Proof.
  intros this m Hok Hroomy Hp Hdata Hne Hobjs Hsh Hh.
  destruct (onListed_run stack settings p data elems objs w n v Hok Hroomy Hp Hdata Hne Hobjs
              Hsh Hh)
    as (w1 & fd & cs & rs & v1 & H).
  exists w1, fd, cs, rs, v1. tauto.
Qed.

Lemma expanding_attaches_copies_witness :
  ∃ w1 fd cs rs v1,
    onListed 8 settings_A "" 2 listed_A = (Ok (), w1) ∧
    nodes w1 !! 0 = Some (Node fd (Some (length (arrays listed_A)))) ∧
    fileData_at (nodes listed_A) 0 = Some fd ∧
    arrays w1 !! length (arrays listed_A) = Some cs ∧
    shapes (length (nodes listed_A)) (nodes w1) (arrays w1) cs
      (top <$> [Node dir_a (Some 1)]) ∧
    Forall2 (λ c e, nodes listed_A !! e = Some EmptyMarker → c = e) cs [1] ∧
    the_map 0 w1 = puts rs (the_map 0 listed_A) ∧
    Forall2 (entry_of (length (nodes listed_A)) (nodes w1) (arrays w1)) rs
      (flat_map entries (top <$> [Node dir_a (Some 1)])) ∧
    (∀ l o, l ≠ 0 → nodes listed_A !! l = Some o → nodes w1 !! l = Some o) ∧
    (∀ a l, arrays listed_A !! a = Some l → arrays w1 !! a = Some l) ∧
    localStorage w1 = <[storageKey holder_A := Json v1]> (localStorage listed_A) ∧
    shape 0 (nodes w1) (arrays w1) 0 v1.
Proof.
  apply (expanding_attaches_copies 8 settings_A "" 2 [1] [Node dir_a (Some 1)] listed_A 0
           default_root).
  - split; [vm_compute; lia|]. apply (bool_decide_unpack _). vm_compute. exact I.
  - intros s. reflexivity.
  - vm_compute. reflexivity.
  - vm_compute. reflexivity.
  - discriminate.
  - repeat constructor.
  - eapply shape_parent;
      [lia | vm_compute; reflexivity | vm_compute; reflexivity | constructor].
  - vm_compute. lia.
Defined.

(** ** The static-document provider on paths it cannot list *)

(** X9. [list] of the static-document provider needs a children array: for
    a path under which its index holds no node, and for a path whose node
    has no [children], it throws a [TypeError] and the callback is never
    run.  The miss has been logged when [get] found nothing at all under the
    path; when the path names a member the index object inherits, or a node
    without [children], nothing has changed. *)
Theorem json_list_needs_children this p callback w :
  let m := pathToNodeIndex (JsonDataProvider.tree this) in
  (the_map m w !! p = None ∨
   ∃ n fd, the_map m w !! p = Some n ∧ nodes w !! n = Some (Node fd None)) →
  JsonDataProvider.list this p callback w =
  (Throw TypeError,
   match property (nodes w) (the_map m w) p with
   | None => miss p w
   | Some _ => w
   end).
Proof.
  intros m [Hp|(n & fd & Hp & Hn)]; unfold JsonDataProvider.list;
    rewrite get_as_node_run; fold m; rewrite Hp.
  - by destruct (property (nodes w) (the_map m w) p).
  - rewrite (bind_ok _ _ _ _ _ (fields_run _ _ _ _ Hn)).
    by rewrite (property_own _ _ _ _ Hp).
Qed.

Lemma json_list_needs_children_witness :
  JsonDataProvider.list provider_A "/nowhere" (λ _, mret ()) loaded_A =
  (Throw TypeError,
   match property (nodes loaded_A) (the_map 0 loaded_A) "/nowhere" with
   | None => miss "/nowhere" loaded_A
   | Some _ => loaded_A
   end).
Proof.
  apply (json_list_needs_children provider_A "/nowhere" (λ _, mret ()) loaded_A).
  left. vm_compute. reflexivity.
Defined.

(** ** Sorting an array that holds a marker *)

Lemma sortNodes_total x y w :
  (∃ z, sortNodes x y w = (Ok z, w) ∧
        is_Some (fileData_at (nodes w) x) ∧ is_Some (fileData_at (nodes w) y)) ∨
  sortNodes x y w = (Throw TypeError, w).
Proof.
  assert (Hnone : ∀ l, nodes w !! l = None → read_node l w = (Throw TypeError, w)).
  { intros l Hl. unfold read_node. by rewrite Hl. }
  unfold sortNodes, fileData_at.
  destruct (nodes w !! x) as [ox|] eqn:Hx;
    [|right; by rewrite (bind_throw _ _ _ _ _ (Hnone _ Hx))].
  rewrite (bind_ok _ _ _ _ _ (read_node_run _ _ _ Hx)).
  destruct (nodes w !! y) as [oy|] eqn:Hy;
    [|right; by rewrite (bind_throw _ _ _ _ _ (Hnone _ Hy))].
  rewrite (bind_ok _ _ _ _ _ (read_node_run _ _ _ Hy)).
  destruct oy as [fy cy|]; [|by right].
  destruct ox as [fx cx|].
  - left. unfold weight.
    destruct (String.eqb (type fy) "directory"), (String.eqb (type fx) "directory");
      eexists; (split; [reflexivity|]); split; by eexists.
  - right. unfold weight. by destruct (String.eqb (type fy) "directory").
Qed.

Lemma sort_insert_total x s w :
  (∃ s', sort_insert sortNodes x s w = (Ok s', w) ∧ s' ≡ₚ x :: s ∧
         (s ≠ [] → is_Some (fileData_at (nodes w) x) ∧
                   ∃ y, head s = Some y ∧ is_Some (fileData_at (nodes w) y))) ∨
  sort_insert sortNodes x s w = (Throw TypeError, w).
Proof.
  induction s as [|y s IH]; simpl.
  - left. exists [x]. by split.
  - rewrite bind_run.
    destruct (sortNodes_total x y w) as [(z & -> & Hx & Hy)| ->]; [|by right].
    destruct (z <=? 0)%Z.
    + left. exists (x :: y :: s). split; [done|]. split; [done|]. intros _. eauto.
    + rewrite bind_run. destruct IH as [(s' & -> & Hperm & _)| ->]; [|by right].
      left. exists (y :: s'). split; [done|]. split; [|intros _; eauto].
      rewrite Hperm. apply Permutation_swap.
Qed.

Lemma sort_list_total l w :
  (∃ s, sort_list sortNodes l w = (Ok s, w) ∧ s ≡ₚ l ∧
        (2 ≤ length l → Forall (λ x, is_Some (fileData_at (nodes w) x)) l)) ∨
  sort_list sortNodes l w = (Throw TypeError, w).
Proof.
  induction l as [|x l IH]; simpl.
  - left. exists []. split; [done|]. split; [done|]. simpl. lia.
  - rewrite bind_run. destruct IH as [(s & -> & Hperm & Hgood)| ->]; [|by right].
    destruct (sort_insert_total x s w) as [(s' & -> & Hperm' & Hx)| ->]; [|by right].
    left. exists s'. split; [done|]. split; [by rewrite Hperm', Hperm|].
    intros Hlen. destruct s as [|y s].
    { apply Permutation_nil_l in Hperm. subst l. simpl in Hlen. lia. }
    destruct Hx as (Hx & y' & [= <-] & Hy); [done|]. constructor; [done|].
    destruct l as [|y1 [|y2 l]].
    + symmetry in Hperm. by apply Permutation_nil_cons in Hperm.
    + apply Permutation_singleton_r in Hperm. injection Hperm as -> _. by constructor.
    + apply Hgood. simpl. lia.
Qed.

(** X10. A marker in the array [list] has to sort.  When the children array
    of the listed node holds a marker, the static-document provider hands
    the array on, unchanged, only if the marker is its one element (nothing
    is compared then); with any other element beside the marker the
    comparison reads the [fileData] the marker does not have, and [list]
    throws a [TypeError] with the array as it was and the callback not
    run. *)
Theorem json_list_with_marker this p callback w n fd a elems e :
  the_map (pathToNodeIndex (JsonDataProvider.tree this)) w !! p = Some n →
  nodes w !! n = Some (Node fd (Some a)) →
  arrays w !! a = Some elems →
  e ∈ elems →
  nodes w !! e = Some EmptyMarker →
  JsonDataProvider.list this p callback w =
  if decide (length elems = 1) then callback a w else (Throw TypeError, w).
Proof.
  intros Hp Hn Ha He Hmarker. unfold JsonDataProvider.list.
  rewrite (bind_ok _ _ _ _ _ (get_run_found _ _ _ _ Hp)). simpl as_node.
  rewrite (bind_ok _ _ _ _ _ (ret_run _ _)).
  rewrite (bind_ok _ _ _ _ _ (fields_run _ _ _ _ Hn)).
  assert (Hsort : Array_sort (Some a) sortNodes w =
                  if decide (length elems = 1) then (Ok (), w) else (Throw TypeError, w)).
  { unfold Array_sort. rewrite (bind_ok _ _ _ _ _ (read_array_run _ _ _ Ha)).
    case_decide as Hlen.
    - destruct elems as [|x [|y elems]]; try done. simpl. unfold write_array.
      rewrite !bind_run, !ret_run.
      f_equal. apply world_eq; try done. simpl. by apply list_insert_id.
    - rewrite bind_run.
      destruct (sort_list_total elems w) as [(s & -> & _ & Hgood)| ->]; [|done].
      exfalso. assert (Hlen2 : 2 ≤ length elems).
      { destruct elems as [|x [|y elems]]; simpl in *;
          [by apply elem_of_nil in He|done|lia]. }
      specialize (Hgood Hlen2). eapply Forall_forall in Hgood as [fde Hfde]; [|exact He].
      unfold fileData_at in Hfde. by rewrite Hmarker in Hfde. }
  rewrite bind_run, Hsort. by case_decide.
Qed.

Lemma json_list_with_marker_witness :
  JsonDataProvider.list provider_marked_A "" (λ _, mret ()) marked_A =
  if decide (length [0] = 1) then (Ok (), marked_A) else (Throw TypeError, marked_A).
Proof.
  refine (json_list_with_marker provider_marked_A "" (λ _, mret ()) marked_A 1
            default_fileData 0 [0] 0 _ _ _ _ _).
  - vm_compute. reflexivity.
  - vm_compute. reflexivity.
  - vm_compute. reflexivity.
  - by left.
  - vm_compute. reflexivity.
Defined.

(** ** A request the service fails *)

(** X11. A failed request changes no tree.  When the remote-service provider
    is asked on expanding and the service fails the request, the click
    handler returns without an exception and the callback that would attach
    children is never run: node objects, arrays, index maps and storage are
    as they were.  For the statuses 501 and 404 the response text is shown
    in an alert; for every other status two lines are logged, the status
    text and the request object. *)
Theorem failed_request_changes_no_tree stack settings service p
    status statusText responseText w :
  dataProvider settings = ServiceDataProvider.provider service →
  ServiceDataProvider.service service (ServiceDataProvider.url service +:+ p) =
    ServiceDataProvider.Fail status statusText responseText →
  expandableNodeClickHandler stack settings false p w =
  (Ok (),
   if decide (status = 501 ∨ status = 404)%Z
   then with_alerts (λ a, a ++ [responseText]) w
   else with_console (λ c, c ++ [statusText; "[object Object]"]) w).
Proof.
  intros Hprovider Hreply. unfold expandableNodeClickHandler.
  rewrite Hprovider. simpl list_children. unfold ServiceDataProvider.list.
  rewrite Hreply. rewrite bind_run.
  destruct (Z.eqb_spec status 501) as [->|H501]; simpl orb.
  { rewrite decide_True by (by left). reflexivity. }
  destruct (Z.eqb_spec status 404) as [->|H404].
  { rewrite decide_True by (by right). reflexivity. }
  rewrite decide_False by (intros [?|?]; done).
  change (false || false) with false. cbv iota.
  rewrite bind_run. unfold console_error. rewrite ret_run. f_equal.
  apply world_eq; try done. simpl. by rewrite <- app_assoc.
Qed.

Lemma failed_request_changes_no_tree_witness :
  expandableNodeClickHandler 8
    {| stateHolder := holder_A;
       dataProvider := ServiceDataProvider.provider
         {| ServiceDataProvider.url := "/list?path=";
            ServiceDataProvider.service :=
              λ _, ServiceDataProvider.Fail 500 "Internal Server Error" "" |} |}
    false "/a" fresh_A =
  (Ok (),
   if decide (500 = 501 ∨ 500 = 404)%Z
   then with_alerts (λ a, a ++ [""]) fresh_A
   else with_console (λ c, c ++ ["Internal Server Error"; "[object Object]"]) fresh_A).
Proof.
  apply (failed_request_changes_no_tree 8 _
           {| ServiceDataProvider.url := "/list?path=";
              ServiceDataProvider.service :=
                λ _, ServiceDataProvider.Fail 500 "Internal Server Error" "" |}).
  - reflexivity.
  - reflexivity.
Defined.

(** ** Expanding, then loading the page again *)




(** ** Expanding through the remote service *)

Lemma service_loop_grow w0 (data : list FileData) :
  ∀ N A acc, ∃ N2 A2,
    forEach data (λ fileData,
      children ← new_array [];
      node ← new_node (Node fileData (Some children));
      Array_push (length (arrays w0)) node) (grow N (acc :: A) w0) =
    (Ok (), grow (N ++ N2)
              ((acc ++ seq (length (nodes w0) + length N) (length data)) :: A ++ A2) w0) ∧
    length N2 = length data ∧
    ∀ N3, fileData_at (nodes w0 ++ (N ++ N2) ++ N3) <$>
            seq (length (nodes w0) + length N) (length data) = Some <$> data.
Proof.
  induction data as [|fd data IH]; intros N A acc.
  - exists [], []. rewrite !app_nil_r. split; [done|]. done.
  - simpl forEach.
    assert (HkA : length (arrays (grow N (acc :: A) w0)) =
                  length (arrays w0) + S (length A)).
    { simpl. rewrite length_app. simpl. lia. }
    assert (HkN : length (nodes (grow N (acc :: A ++ [[]]) w0)) =
                  length (nodes w0) + length N).
    { simpl. by rewrite length_app. }
    assert (Hstep :
      (children ← new_array [];
       node ← new_node (Node fd (Some children));
       Array_push (length (arrays w0)) node) (grow N (acc :: A) w0) =
      (Ok (), grow (N ++ [Node fd (Some (length (arrays w0) + S (length A)))])
                ((acc ++ [length (nodes w0) + length N]) :: A ++ [[]]) w0)).
    { rewrite (bind_ok _ _ _ _ _ (new_array_run _ _)), grow_grow.
      rewrite (bind_ok _ _ _ _ _ (new_node_run _ _)), grow_grow.
      rewrite !app_nil_r, <- !app_comm_cons. rewrite HkA, HkN. apply push_on_last. }
    rewrite (bind_ok _ _ _ _ _ Hstep).
    destruct (IH (N ++ [Node fd (Some (length (arrays w0) + S (length A)))])
                (A ++ [[]]) (acc ++ [length (nodes w0) + length N]))
      as (N2 & A2 & Hrun & HlenN & Hfd).
    rewrite Hrun. rewrite length_app in *. simpl length in *.
    replace (length (nodes w0) + (length N + 1)) with (S (length (nodes w0) + length N))
      in * by lia.
    exists (Node fd (Some (length (arrays w0) + S (length A))) :: N2), ([] :: A2).
    split; [by rewrite <- !app_assoc|]. split; [simpl; by rewrite HlenN|].
    intros N3. specialize (Hfd N3). rewrite <- !app_assoc in Hfd. simpl in Hfd.
    rewrite <- !app_assoc. simpl. f_equal; [|exact Hfd].
    unfold fileData_at. rewrite lookup_app_r by lia. rewrite lookup_app_r by lia.
    replace (length (nodes w0) + length N - length (nodes w0) - length N) with 0 by lia.
    done.
Qed.

Lemma mapToTreeNode_grow data callback w :
  ∃ N2 A2 refs,
    ServiceDataProvider.mapToTreeNode data callback w =
      callback (length (arrays w)) (grow N2 (refs :: A2) w) ∧
    fileData_at (nodes w ++ N2) <$> refs = Some <$> by_class Some data ∧
    length refs = length data ∧ length N2 = length data.
Proof.
  unfold ServiceDataProvider.mapToTreeNode.
  rewrite (bind_ok _ _ _ _ _ (new_array_run _ _)).
  destruct (service_loop_grow w data [] [] []) as (N2 & A2 & Hrun & HlenN & Hfd).
  simpl app in Hrun. rewrite Nat.add_0_r in *.
  rewrite bind_run, Hrun. specialize (Hfd []). rewrite !app_nil_r in Hfd. simpl app in Hfd.
  set (refs := seq (length (nodes w)) (length data)) in *.
  set (w1 := grow N2 (refs :: A2) w).
  assert (Hall : Forall (λ x, is_Some (fileData_at (nodes w1) x)) refs).
  { apply Forall_forall. intros x Hx.
    apply (list_elem_of_fmap_2 (fileData_at (nodes w1))) in Hx.
    change (nodes w1) with (nodes w ++ N2) in *.
    rewrite Hfd in Hx. apply list_elem_of_fmap in Hx as (d & -> & _).
    by eexists. }
  unfold Array_sort. rewrite bind_run.
  assert (Ha1 : arrays w1 !! length (arrays w) = Some refs)
    by (simpl; by apply list_lookup_middle).
  rewrite (bind_ok _ _ _ _ _ (read_array_run _ _ _ Ha1)).
  rewrite (bind_ok _ _ _ _ _ (sort_list_run _ _ Hall)).
  exists N2, A2, (by_class (fileData_at (nodes w1)) refs). split; [|split; [|split; [|done]]].
  - unfold write_array. f_equal. apply world_eq; try done. simpl.
    rewrite insert_app_r_alt by lia. by rewrite Nat.sub_diag.
  - by apply by_class_fmap.
  - destruct (sort_list_total refs w1) as [(s & Hs & Hperm & _)|Hs];
      rewrite (sort_list_run _ _ Hall) in Hs; [|discriminate].
    assert (by_class (fileData_at (nodes w1)) refs = s) as -> by congruence.
    rewrite Hperm. unfold refs. by rewrite length_seq.
Qed.

Lemma tree_ok_grow N2 A2 w this : tree_ok w this → tree_ok (grow N2 A2 w) this.
Proof.
  intros [Hm Hok]. split; [done|]. intros q r Hq. specialize (Hok q r Hq). simpl in Hok.
  destruct (node_ok_inv _ _ _ Hok) as (fd & ch & Hr & Hch).
  apply (node_ok_intro _ _ _ fd ch); [simpl; by apply lookup_app_l_Some|].
  intros Hex. destruct (Hch Hex) as (a & l & -> & Hl). exists a. split; [done|].
  exists l. simpl. by apply lookup_app_l_Some.
Qed.

Lemma objects_of N (l : list nat) fds :
  fileData_at N <$> l = Some <$> fds →
  ∃ objs, Forall2 (λ e o, N !! e = Some o) l objs ∧ top <$> objs = collapsed <$> fds.
Proof.
  revert fds. induction l as [|e l IH]; intros [|fd fds] H; try done.
  - exists []. by split.
  - simpl in H. injection H as He Hl. destruct (IH fds Hl) as (objs & Hobjs & Htop).
    apply fileData_at_Some in He as [ch He].
    exists (Node fd ch :: objs). split; [by constructor|]. by rewrite !fmap_cons, Htop.
Qed.

(** X13. Expanding through the remote service.  When the service answers
    the request for a path the index of the state tree holds with records,
    at least one, and the browser takes what is written to the storage,
    the click handler returns without an exception and the
    node at the path has a new [children] array that spells one collapsed
    node for each record: first the directories, then the other expandable
    files, then the rest, each class in the order of the answer.  Every
    child is a new object; expandable or not, the objects the provider made
    for the records are not the ones attached.  The index has gained an
    entry for each child, in that order, and the storage holds the document
    the root now spells. *)
Theorem service_listing_is_attached stack settings service p data w n v :
  let holder := stateHolder settings in
  let m := pathToNodeIndex (tree holder) in
  dataProvider settings = ServiceDataProvider.provider service →
  ServiceDataProvider.service service (ServiceDataProvider.url service +:+ p) =
    ServiceDataProvider.Done data →
  data ≠ [] →
  tree_ok w (tree holder) →
  roomy w →
  the_map m w !! p = Some n →
  shape 0 (nodes w) (arrays w) (root (tree holder)) v →
  height v < stack →
  ∃ w1 fd a cs rs v1,
    expandableNodeClickHandler stack settings false p w = (Ok (), w1) ∧
    nodes w1 !! n = Some (Node fd (Some a)) ∧
    fileData_at (nodes w) n = Some fd ∧
    arrays w1 !! a = Some cs ∧
    shapes (length (nodes w) + length data) (nodes w1) (arrays w1) cs
      (collapsed <$> by_class Some data) ∧
    the_map m w1 = puts rs (the_map m w) ∧
    Forall2 (entry_of (length (nodes w) + length data) (nodes w1) (arrays w1)) rs
      (flat_map entries (collapsed <$> by_class Some data)) ∧
    localStorage w1 = <[storageKey holder := Json v1]> (localStorage w) ∧
    shape 0 (nodes w1) (arrays w1) (root (tree holder)) v1.
Proof.
  intros holder m Hprovider Hreply Hdata Hok Hroomy Hp Hsh Hh.
  unfold expandableNodeClickHandler. rewrite Hprovider. simpl list_children.
  unfold ServiceDataProvider.list. rewrite Hreply.
  destruct (mapToTreeNode_grow data (onListed stack settings p) w)
    as (N2 & A2 & refs & -> & Hfd & Hlen & HlenN).
  set (w' := grow N2 (refs :: A2) w).
  destruct (objects_of (nodes w') refs (by_class Some data) Hfd) as (objs & Hobjs & Htop).
  assert (Hne : refs ≠ []).
  { intros ->. destruct data; [done | discriminate]. }
  assert (Hdata' : arrays w' !! length (arrays w) = Some refs)
    by (simpl; by apply list_lookup_middle).
  assert (Hsh' : shape 0 (nodes w') (arrays w') (root (tree holder)) v)
    by (by apply shape_app).
  destruct (onListed_run stack settings p (length (arrays w)) refs objs w' n v
              (tree_ok_grow _ _ _ _ Hok) Hroomy Hp Hdata' Hne Hobjs Hsh' Hh)
    as (w1 & fd & cs & rs & v1 & Hrun & Hn1 & Hfdn & Hcs & Hshs & _ & Hmap & Hrs & _ & _ &
        Hst & Hsh1 & _).
  exists w1, fd, (length (arrays w')), cs, rs, v1.
  rewrite Htop in Hshs, Hrs.
  assert (HN' : length (nodes w') = length (nodes w) + length data)
    by (simpl; by rewrite length_app, HlenN).
  rewrite HN' in Hshs, Hrs.
  split; [done|]. split; [done|]. split.
  { unfold fileData_at in *. destruct (nodes w !! n) as [o|] eqn:Hn.
    - change (nodes w') with (nodes w ++ N2) in Hfdn.
      by rewrite (lookup_app_l_Some _ N2 _ _ Hn) in Hfdn.
    - apply lookup_ge_None in Hn.
      assert (n < length (nodes w)); [|lia].
      destruct Hok as [_ Hok]. specialize (Hok p n Hp). simpl in Hok.
      destruct (node_ok_inv _ _ _ Hok) as (? & ? & Hn' & _). by eapply lookup_lt_Some. }
  split; [done|]. split; [done|]. split; [done|]. split; [done|]. split; done.
Qed.

Lemma service_listing_is_attached_witness :
  ∃ w1 fd a cs rs v1,
    expandableNodeClickHandler 8
      {| stateHolder := holder_A;
         dataProvider := ServiceDataProvider.provider service_A |} false "" fresh_A =
      (Ok (), w1) ∧
    nodes w1 !! 0 = Some (Node fd (Some a)) ∧
    fileData_at (nodes fresh_A) 0 = Some fd ∧
    arrays w1 !! a = Some cs ∧
    shapes (length (nodes fresh_A) + length [plain_b; dir_a; zip_c]) (nodes w1) (arrays w1) cs
      (collapsed <$> by_class Some [plain_b; dir_a; zip_c]) ∧
    the_map 0 w1 = puts rs (the_map 0 fresh_A) ∧
    Forall2 (entry_of (length (nodes fresh_A) + length [plain_b; dir_a; zip_c])
               (nodes w1) (arrays w1)) rs
      (flat_map entries (collapsed <$> by_class Some [plain_b; dir_a; zip_c])) ∧
    localStorage w1 = <[storageKey holder_A := Json v1]> (localStorage fresh_A) ∧
    shape 0 (nodes w1) (arrays w1) 0 v1.
Proof.
  apply (service_listing_is_attached 8
           {| stateHolder := holder_A;
              dataProvider := ServiceDataProvider.provider service_A |}
           service_A "" [plain_b; dir_a; zip_c] fresh_A 0 default_root).
  - reflexivity.
  - reflexivity.
  - discriminate.
  - split; [vm_compute; lia|]. apply (bool_decide_unpack _). vm_compute. exact I.
  - intros s. reflexivity.
  - vm_compute. reflexivity.
  - eapply shape_parent;
      [lia | vm_compute; reflexivity | vm_compute; reflexivity | constructor].
  - vm_compute. lia.
Defined.

(** ** The earlier version: the index after a collapse *)

Lemma legacy_index_eq stack m n :
  Legacy.index stack m n =
  ('(fileData, children) ← fields n;
   map_put m (path fileData) n;;
   if expandable fileData then
     elems ← children_of children;
     match stack with
     | 0 => forEach elems (λ _, throw RangeError)
     | S stack => forEach elems (Legacy.index stack m)
     end
   else mret ()).
Proof. destruct stack; reflexivity. Qed.

Lemma legacy_removeFromIndex_eq stack m n :
  Legacy.removeFromIndex stack m n =
  ('(fileData, children) ← fields n;
   map_delete m (path fileData);;
   if expandable fileData then
     elems ← children_of children;
     match stack with
     | 0 => forEach elems (λ _, throw RangeError)
     | S stack => forEach elems (Legacy.removeFromIndex stack m)
     end
   else mret ()).
Proof. destruct stack; reflexivity. Qed.

Lemma map_delete_run m key w :
  map_delete m key w = (Ok (), with_map m (delete_property key (the_map m w)) w).
Proof. reflexivity. Qed.

Lemma removes_app es1 es2 i : removes (es1 ++ es2) i = removes es2 (removes es1 i).
Proof. apply foldl_app. Qed.

Lemma removes_lookup es i q :
  removes es i !! q =
  if decide (q ∈ es.*1 ∧ q ≠ "__proto__") then None else i !! q.
Proof.
  revert i. induction es as [|[p fd] es IH]; intros i.
  - case_decide as H; [|done]. destruct H as [H _]. by apply elem_of_nil in H.
  - change (removes ((p, fd) :: es) i) with (removes es (delete_property p i)).
    rewrite IH. rewrite fmap_cons. cbn [fst].
    destruct (decide (q ∈ es.*1 ∧ q ≠ "__proto__")) as [[Hin Hq]|Hnin].
    + rewrite decide_True; [done|]. split; [by right | done].
    + unfold delete_property.
      destruct (String.eqb_spec p "__proto__") as [->|Hp].
      * rewrite decide_False; [done|]. intros [[->|?]%elem_of_cons Hq]; [done|].
        apply Hnin. by split.
      * destruct (decide (q = p)) as [->|Hne].
        -- rewrite decide_True by (split; [by left | done]). apply lookup_delete_eq.
        -- rewrite decide_False; [by apply lookup_delete_ne|].
           intros [[?|?]%elem_of_cons Hq]; [done|]. apply Hnin. by split.
Qed.

Lemma legacy_remove_shape k N A :
  (∀ n v, shape k N A n v → ∀ stack m w,
     nodes w = N → arrays w = A → m < length (indexes w) →
     indexable v = true → marker_free v = true → height v ≤ stack →
     Legacy.removeFromIndex stack m n w =
     (Ok (), with_map m (removes (entries v) (the_map m w)) w)) ∧
  (∀ ns vs, shapes k N A ns vs → ∀ stack m w,
     nodes w = N → arrays w = A → m < length (indexes w) →
     forallb indexable vs = true → forallb marker_free vs = true →
     Forall (λ v, height v ≤ stack) vs →
     forEach ns (Legacy.removeFromIndex stack m) w =
     (Ok (), with_map m (removes (flat_map entries vs) (the_map m w)) w)).
Proof.
  apply shape_shapes_ind.
  - intros n Hn stack m w _ _ _ _ Hfree. done.
  - intros n fd Hk Hn stack m w HN HA Hm Hidx _ _. simpl in Hidx.
    apply negb_true_iff in Hidx. subst N.
    rewrite legacy_removeFromIndex_eq, (bind_ok _ _ _ _ _ (fields_run _ _ _ _ Hn)).
    rewrite (bind_ok _ _ _ _ _ (map_delete_run _ _ _)). simpl. by rewrite Hidx.
  - intros n fd a elems cs Hk Hn Ha Hcs IH stack m w HN HA Hm Hidx Hfree Hh. subst N.
    rewrite legacy_removeFromIndex_eq, (bind_ok _ _ _ _ _ (fields_run _ _ _ _ Hn)).
    rewrite (bind_ok _ _ _ _ _ (map_delete_run _ _ _)).
    set (w1 := with_map m (delete_property (path fd) (the_map m w)) w).
    assert (HA1 : arrays w1 !! a = Some elems) by (by rewrite <- HA in Ha).
    assert (Hm1 : m < length (indexes w1)) by (simpl; by rewrite length_insert).
    simpl entries. destruct (expandable fd); [|done].
    simpl children_of. rewrite (bind_ok _ _ _ _ _ (read_array_run _ _ _ HA1)).
    destruct stack as [|stack].
    + apply height_parent_0 in Hh. subst cs. inversion Hcs; subst. done.
    + apply height_parent_le in Hh.
      rewrite (IH stack m w1); try done. unfold w1.
      by rewrite the_map_with_map, with_map_with_map.
  - intros stack m w _ _ _ _ _ _. simpl. by rewrite with_map_the_map.
  - intros n ns v vs _ IH _ IHs stack m w HN HA Hm Hidx Hfree Hh.
    simpl in Hidx, Hfree. apply andb_true_iff in Hidx as [Hi His].
    apply andb_true_iff in Hfree as [Hf Hfs]. inversion Hh as [|? ? Hhv Hhs]; subst.
    simpl forEach. rewrite (bind_ok _ _ _ _ _ (IH stack m w eq_refl eq_refl Hm Hi Hf Hhv)).
    rewrite IHs; try done; [|simpl; by rewrite length_insert].
    simpl flat_map. rewrite removes_app.
    by rewrite the_map_with_map, with_map_with_map.
Qed.

Lemma legacy_get_run (this : IndexedFileDataTree) (p : string) (w : world) :
  Legacy.get this p w =
  match property (nodes w) (the_map (pathToNodeIndex this) w) p with
  | Some v => (Ok (Some v), w)
  | None => (Ok None, miss p w)
  end.
Proof.
  unfold Legacy.get. rewrite bind_run. unfold map_get.
  by destruct (property (nodes w) (the_map (pathToNodeIndex this) w) p).
Qed.

Lemma legacy_get_as_node_run {B} this p (k : nref → M B) w n :
  the_map (pathToNodeIndex this) w !! p = Some n →
  (node ← Legacy.get this p; node ← as_node node; k node) w = k n w.
Proof.
  intros Hp. by rewrite bind_run, legacy_get_run, (property_own _ _ _ _ Hp).
Qed.

(** X14. In the earlier version a collapse takes the subtree out of the
    index.  [clear] on the path of an expandable node whose children spell
    documents without markers, with a children array at every expandable
    node, returns without an exception; afterwards the index has lost
    every path of the entries of those documents, ["__proto__"] apart (it
    names the prototype, which [delete] leaves alone), and kept every
    other path; [get] for a lost path finds no node: it logs the miss and
    returns [null], unless the path names a member that the index object
    inherits, which it then returns without logging; and the node has a
    new empty [children] array. *)
Theorem legacy_clear_removes_subtree stack this p w n fd a elems vs :
  let m := pathToNodeIndex this in
  m < length (indexes w) →
  the_map m w !! p = Some n →
  nodes w !! n = Some (Node fd (Some a)) →
  expandable fd = true →
  arrays w !! a = Some elems →
  shapes 0 (nodes w) (arrays w) elems vs →
  forallb indexable vs = true →
  forallb marker_free vs = true →
  Forall (λ v, height v ≤ stack) vs →
  ∃ w',
    Legacy.clear stack this p w = (Ok (), w') ∧
    the_map m w' = removes (flat_map entries vs) (the_map m w) ∧
    (∀ q, the_map m w' !! q =
          if decide (q ∈ (flat_map entries vs).*1 ∧ q ≠ "__proto__") then None
          else the_map m w !! q) ∧
    (∀ q, q ∈ (flat_map entries vs).*1 → q ≠ "__proto__" →
          Legacy.get this q w' =
          if inherited (nodes w') (the_map m w') q then (Ok (Some Foreign), w')
          else (Ok None, miss q w')) ∧
    nodes w' !! n = Some (Node fd (Some (length (arrays w)))) ∧
    arrays w' !! length (arrays w) = Some [].
Proof.
  intros m Hm Hp Hn Hex Ha Hsh Hidx Hfree Hh.
  set (w1 := with_map m (removes (flat_map entries vs) (the_map m w)) w).
  set (w' := with_nodes (λ h, <[n := Node fd (Some (length (arrays w)))]> h)
               (grow [] [[]] w1)).
  assert (Hmap : the_map m w' = removes (flat_map entries vs) (the_map m w)).
  { change (the_map m w') with (the_map m w1). unfold w1. by rewrite the_map_with_map. }
  exists w'. split; [|split; [done|split; [|split; [|split]]]].
  - unfold Legacy.clear. rewrite (legacy_get_as_node_run _ _ _ _ _ Hp).
    rewrite (bind_ok _ _ _ _ _ (fields_run _ _ _ _ Hn)). rewrite Hex.
    simpl children_of. rewrite bind_run, (bind_ok _ _ _ _ _ (read_array_run _ _ _ Ha)).
    fold m.
    rewrite (proj2 (legacy_remove_shape 0 (nodes w) (arrays w)) elems vs Hsh stack m w
               eq_refl eq_refl Hm Hidx Hfree Hh).
    fold w1. by rewrite (bind_ok _ _ _ _ _ (new_array_run _ _)).
  - intros q. rewrite Hmap. apply removes_lookup.
  - intros q Hq Hproto. rewrite legacy_get_run. fold m. unfold property.
    assert (Hlost : the_map m w' !! q = None).
    { rewrite Hmap, removes_lookup. by rewrite decide_True. }
    rewrite Hlost. apply String.eqb_neq in Hproto. rewrite Hproto.
    by destruct (inherited (nodes w') (the_map m w') q).
  - simpl. apply list_lookup_insert_eq. rewrite app_nil_r. by eapply lookup_lt_Some.
  - simpl. by apply list_lookup_middle.
Qed.

Lemma legacy_clear_removes_subtree_witness :
  ∃ w',
    Legacy.clear 8 tree_A "" expanded_A = (Ok (), w') ∧
    the_map 0 w' = removes (flat_map entries [JNode dir_a (Some [])]) (the_map 0 expanded_A) ∧
    (∀ q, the_map 0 w' !! q =
          if decide (q ∈ (flat_map entries [JNode dir_a (Some [])]).*1 ∧ q ≠ "__proto__")
          then None
          else the_map 0 expanded_A !! q) ∧
    (∀ q, q ∈ (flat_map entries [JNode dir_a (Some [])]).*1 → q ≠ "__proto__" →
          Legacy.get tree_A q w' =
          if inherited (nodes w') (the_map 0 w') q then (Ok (Some Foreign), w')
          else (Ok None, miss q w')) ∧
    nodes w' !! 0 = Some (Node default_fileData (Some (length (arrays expanded_A)))) ∧
    arrays w' !! length (arrays expanded_A) = Some [].
Proof.
  apply (legacy_clear_removes_subtree 8 tree_A "" expanded_A 0 default_fileData 2 [1]
           [JNode dir_a (Some [])]).
  - vm_compute. lia.
  - vm_compute. reflexivity.
  - vm_compute. reflexivity.
  - reflexivity.
  - vm_compute. reflexivity.
  - repeat constructor. eapply shape_parent;
      [lia | vm_compute; reflexivity | vm_compute; reflexivity | constructor].
  - reflexivity.
  - reflexivity.
  - repeat constructor.
Defined.

(** ** The earlier version: the index after a second expansion *)

#[local] Instance same_objects_preorder : PreOrder same_objects.
Proof.
  split.
  - by intros w.
  - intros w1 w2 w3 [H1 H1'] [H2 H2']. split; congruence.
Qed.

#[local] Hint Extern 5 (keeps same_objects _) => (intros ?; split; reflexivity) : keeps.

Lemma same_objects_index stack m n : keeps same_objects (index stack m n).
Proof. revert n. induction stack; intros n; rewrite index_eq; keeps_go. Qed.

Lemma legacy_index_same k N A :
  (∀ n v, shape k N A n v → marker_free v = true → ∀ stack m w,
     nodes w = N → arrays w = A →
     Legacy.index stack m n w = index stack m n w) ∧
  (∀ ns vs, shapes k N A ns vs → forallb marker_free vs = true → ∀ stack m w,
     nodes w = N → arrays w = A →
     forEach ns (Legacy.index stack m) w = forEach ns (index stack m) w).
Proof.
  apply shape_shapes_ind.
  - intros n Hn Hfree. done.
  - intros n fd Hk Hn _ stack m w HN HA. subst N.
    rewrite legacy_index_eq, index_eq.
    rewrite (bind_ok _ _ _ _ _ (fields_run _ _ _ _ Hn)).
    rewrite (bind_ok _ _ _ _ _ (read_node_run _ _ _ Hn)). cbn [isEmptyNode].
    rewrite !(bind_ok _ _ _ _ _ (map_put_run _ _ _ _)).
    by destruct (expandable fd).
  - intros n fd a elems cs Hk Hn Ha Hcs IH Hfree stack m w HN HA. subst N.
    rewrite legacy_index_eq, index_eq.
    rewrite (bind_ok _ _ _ _ _ (fields_run _ _ _ _ Hn)).
    rewrite (bind_ok _ _ _ _ _ (read_node_run _ _ _ Hn)). cbn [isEmptyNode].
    rewrite !(bind_ok _ _ _ _ _ (map_put_run _ _ _ _)).
    set (w1 := with_map m _ w).
    assert (HA1 : arrays w1 !! a = Some elems) by (by rewrite <- HA in Ha).
    destruct (expandable fd); [|done]. simpl children_of.
    rewrite !(bind_ok _ _ _ _ _ (read_array_run _ _ _ HA1)).
    destruct stack as [|stack]; [done|]. by apply IH.
  - done.
  - intros n ns v vs _ IH _ IHs Hfree stack m w HN HA.
    simpl in Hfree. apply andb_true_iff in Hfree as [Hf Hfs].
    simpl forEach. rewrite !bind_run, (IH Hf stack m w HN HA).
    pose proof (same_objects_index stack m n w) as [HN' HA'].
    destruct (index stack m n w) as [[[]|e] w1]; [|done]. simpl in HN', HA'.
    apply IHs; [done | congruence | congruence].
Qed.

(** X15. On trees without markers the two versions of [index] run alike:
    for a node under which the graph spells a document with no marker in
    it, [index] of the earlier version and [index] of the current one end
    in the same way, in the same world, for every stack. *)
Theorem index_versions_agree k stack m n v w :
  shape k (nodes w) (arrays w) n v →
  marker_free v = true →
  Legacy.index stack m n w = index stack m n w.
Proof.
  intros Hsh Hfree.
  by apply (proj1 (legacy_index_same k (nodes w) (arrays w)) n v Hsh Hfree).
Qed.

Lemma index_versions_agree_witness :
  Legacy.index 8 0 0 expanded_A = index 8 0 0 expanded_A.
Proof.
  apply (index_versions_agree 0 8 0 0 (JNode default_fileData (Some [JNode dir_a (Some [])]))
           expanded_A).
  - eapply shape_parent;
      [lia | vm_compute; reflexivity | vm_compute; reflexivity |].
    repeat constructor. eapply shape_parent;
      [lia | vm_compute; reflexivity | vm_compute; reflexivity | constructor].
  - reflexivity.
Defined.

(** X16. In the earlier version a second expansion leaves nothing stale.
    [set] on the path of an expandable node, whose children spell documents
    without markers, with an array of other nodes that spell such documents
    too, returns the node.  Afterwards the index object is the former one
    after a [delete] for the path of each entry of the former children
    (which removes an own property, and for the path ["__proto__"] leaves
    the prototype as it is) and then an assignment for each entry of the
    new children, in their order, each under the path of its node (which
    for the path ["__proto__"] sets the prototype).  So [get] returns one
    of the new nodes, without logging, at every path of an entry of the new
    children, and returns no node at a path that only entries of the former
    children had, ["__proto__"] apart. *)
Theorem legacy_set_replaces_entries stack this p a' w n fd a elems vs elems' vs' k :
  let m := pathToNodeIndex this in
  m < length (indexes w) →
  the_map m w !! p = Some n →
  nodes w !! n = Some (Node fd (Some a)) →
  expandable fd = true →
  arrays w !! a = Some elems →
  shapes 0 (nodes w) (arrays w) elems vs →
  forallb indexable vs = true →
  forallb marker_free vs = true →
  Forall (λ v, height v ≤ stack) vs →
  arrays w !! a' = Some elems' →
  n < k →
  shapes k (nodes w) (arrays w) elems' vs' →
  forallb indexable vs' = true →
  forallb marker_free vs' = true →
  Forall (λ v, height v ≤ stack) vs' →
  ∃ w' rs,
    Legacy.set stack this p a' w = (Ok n, w') ∧
    the_map m w' = puts rs (removes (flat_map entries vs) (the_map m w)) ∧
    Forall2 (entry_of k (nodes w') (arrays w')) rs (flat_map entries vs') ∧
    nodes w' !! n = Some (Node fd (Some a')) ∧
    (∀ q, q ∈ (flat_map entries vs').*1 →
          ∃ r, Legacy.get this q w' = (Ok (Some (Ref r)), w') ∧ k ≤ r) ∧
    (∀ q, q ∈ (flat_map entries vs).*1 → q ∉ (flat_map entries vs').*1 →
          q ≠ "__proto__" →
          ∀ r, (Legacy.get this q w').1 ≠ Ok (Some (Ref r))).
Proof.
  intros m Hm Hp Hn Hex Ha Hsh Hidx Hfree Hh Ha' Hk Hsh' Hidx' Hfree' Hh'.
  set (w1 := with_map m (removes (flat_map entries vs) (the_map m w)) w).
  set (w2 := with_nodes (λ h, <[n := Node fd (Some a')]> h) w1).
  assert (Hsh2 : shapes k (nodes w2) (arrays w2) elems' vs').
  { refine (proj2 (shape_above k (nodes w) _ (nodes w2) _ _) _ _ Hsh').
    - intros l Hl. simpl. by rewrite list_lookup_insert_ne by lia.
    - intros l Hl. simpl. rewrite list_lookup_insert_ne; [done|]. intros ->. congruence. }
  assert (Hm2 : m < length (indexes w2)) by (simpl; by rewrite length_insert).
  destruct (proj2 (index_shape k (nodes w2) (arrays w2)) elems' vs' Hsh2 stack m w2
              eq_refl eq_refl Hm2 Hidx' Hh')
    as (w3 & Hrun & rs & -> & Hrs).
  assert (Hmap : the_map m (with_map m (puts rs (the_map m w2)) w2) =
                 puts rs (removes (flat_map entries vs) (the_map m w))).
  { rewrite the_map_with_map by done. f_equal.
    change (the_map m w2) with (the_map m w1). unfold w1. by rewrite the_map_with_map. }
  exists (with_map m (puts rs (the_map m w2)) w2), rs.
  split; [|split; [done|split; [done|split; [|split]]]].
  - unfold Legacy.set. rewrite (legacy_get_as_node_run _ _ _ _ _ Hp).
    rewrite (bind_ok _ _ _ _ _ (fields_run _ _ _ _ Hn)). rewrite Hex.
    simpl children_of. rewrite bind_run, (bind_ok _ _ _ _ _ (read_array_run _ _ _ Ha)).
    fold m.
    rewrite (proj2 (legacy_remove_shape 0 (nodes w) (arrays w)) elems vs Hsh stack m w
               eq_refl eq_refl Hm Hidx Hfree Hh).
    fold w1. rewrite bind_run. unfold write_node. fold w2.
    assert (Ha2 : arrays w2 !! a' = Some elems') by done.
    rewrite (bind_ok _ _ _ _ _ (read_array_run _ _ _ Ha2)).
    rewrite bind_run.
    rewrite (proj2 (legacy_index_same k (nodes w2) (arrays w2)) elems' vs' Hsh2 Hfree'
               stack m w2 eq_refl eq_refl).
    by rewrite Hrun.
  - simpl. apply list_lookup_insert_eq. by eapply lookup_lt_Some.
  - intros q Hq. rewrite <- (entries_keys _ _ _ _ _ Hrs) in Hq.
    destruct (puts_key rs (removes (flat_map entries vs) (the_map m w)) q Hq)
      as (r & Hr & Hel).
    destruct (entries_elem _ _ _ _ _ _ Hrs Hel) as (e & _ & _ & _ & Hkr & _).
    exists r. split; [|done].
    rewrite legacy_get_run. fold m. rewrite Hmap. by rewrite (property_own _ _ _ _ Hr).
  - intros q Hq Hnew Hproto r. rewrite <- (entries_keys _ _ _ _ _ Hrs) in Hnew.
    rewrite legacy_get_run. fold m. rewrite Hmap.
    assert (Hlost : puts rs (removes (flat_map entries vs) (the_map m w)) !! q = None).
    { rewrite puts_not_key by done. rewrite removes_lookup. by rewrite decide_True. }
    destruct (property _ (puts rs _) q) as [[r'|]|] eqn:Hprop; [|done..].
    apply property_Ref in Hprop. congruence.
Qed.

Lemma legacy_set_replaces_entries_witness :
  ∃ w' rs,
    Legacy.set 8 tree_A "" 3 relisted_A = (Ok 0, w') ∧
    the_map 0 w' =
      puts rs (removes (flat_map entries [JNode dir_a (Some [])]) (the_map 0 relisted_A)) ∧
    Forall2 (entry_of 2 (nodes w') (arrays w')) rs
      (flat_map entries [JNode plain_b None]) ∧
    nodes w' !! 0 = Some (Node default_fileData (Some 3)) ∧
    (∀ q, q ∈ (flat_map entries [JNode plain_b None]).*1 →
          ∃ r, Legacy.get tree_A q w' = (Ok (Some (Ref r)), w') ∧ 2 ≤ r) ∧
    (∀ q, q ∈ (flat_map entries [JNode dir_a (Some [])]).*1 →
          q ∉ (flat_map entries [JNode plain_b None]).*1 →
          q ≠ "__proto__" →
          ∀ r, (Legacy.get tree_A q w').1 ≠ Ok (Some (Ref r))).
Proof.
  apply (legacy_set_replaces_entries 8 tree_A "" 3 relisted_A 0 default_fileData 2 [1]
           [JNode dir_a (Some [])] [2] [JNode plain_b None] 2).
  - vm_compute. lia.
  - vm_compute. reflexivity.
  - vm_compute. reflexivity.
  - reflexivity.
  - vm_compute. reflexivity.
  - repeat constructor. eapply shape_parent;
      [lia | vm_compute; reflexivity | vm_compute; reflexivity | constructor].
  - reflexivity.
  - reflexivity.
  - repeat constructor.
  - vm_compute. reflexivity.
  - lia.
  - repeat constructor.
  - reflexivity.
  - reflexivity.
  - repeat constructor.
Defined.

(** ** Loading a static document *)

(** X17. Loading a static document indexes it.  For a document with a
    children array at every expandable node, not nested deeper than the
    stack allows, [load] builds the objects anew, indexes them and runs the
    callback with a provider whose root spells the document.  In the tree
    of that provider [get] finds a node exactly at the paths of the entries
    of the document: at such a path it returns, without logging, a node
    with the [fileData] of the last entry in document order that has the
    path, and at any other path it returns no node.  The storage is not
    touched. *)
Theorem json_load_indexes_document stack v callback w :
  indexable v = true →
  height v ≤ stack →
  ∃ this w',
    JsonDataProvider.load stack v callback w = callback this w' ∧
    shape (length (nodes w)) (nodes w') (arrays w') (root (JsonDataProvider.tree this)) v ∧
    finds (JsonDataProvider.tree this) (entries v) w' ∧
    localStorage w' = localStorage w.
Proof.
  intros Hidx Hh. unfold JsonDataProvider.load.
  destruct (construct_spec v w) as (n & N2 & A2 & Hrun & Hshape).
  rewrite (bind_ok _ _ _ _ _ Hrun). set (w1 := grow N2 A2 w).
  assert (Hsh1 : shape (length (nodes w)) (nodes w1) (arrays w1) n v) by (by apply Hshape).
  destruct (getIndexedFileDataTree_shape _ stack n v w1 Hsh1 Hidx Hh)
    as (i & Htree & Hview & _).
  rewrite (bind_ok _ _ _ _ _ Htree). eexists _, _. split; [reflexivity|].
  split; [done|]. split; [|done].
  apply finds_of_view. intros q. unfold view. simpl pathToNodeIndex.
  rewrite the_map_with_map by (simpl; rewrite length_app; simpl; lia).
  simpl nodes. change (nodes w ++ N2) with (nodes w1). rewrite Hview. apply put_all_last.
Qed.

Lemma json_load_indexes_document_witness :
  ∃ this w',
    JsonDataProvider.load 8 document_A (λ _, mret ()) blank = (Ok (), w') ∧
    shape (length (nodes blank)) (nodes w') (arrays w')
      (root (JsonDataProvider.tree this)) document_A ∧
    finds (JsonDataProvider.tree this) (entries document_A) w' ∧
    localStorage w' = localStorage blank.
Proof.
  refine (json_load_indexes_document 8 document_A (λ _, mret ()) blank _ _).
  - reflexivity.
  - vm_compute. lia.
Defined.

(** ** Collapsing *)

(** X18. Collapsing a path.  For a path the index of the state tree holds,
    where the browser takes what is written to the storage, the click
    handler on an element that shows its children returns without an
    exception; the node at the path, expandable or not, then has a new
    empty [children] array, every index map is exactly as it was (the
    entries of the former children stay), and the storage holds the
    document the root now spells, which is not deeper than before. *)
Theorem collapsing_empties_children stack settings p w n v :
  let holder := stateHolder settings in
  tree_ok w (tree holder) →
  roomy w →
  the_map (pathToNodeIndex (tree holder)) w !! p = Some n →
  shape 0 (nodes w) (arrays w) (root (tree holder)) v →
  height v ≤ stack →
  ∃ w1 fd v1,
    expandableNodeClickHandler stack settings true p w = (Ok (), w1) ∧
    fileData_at (nodes w) n = Some fd ∧
    nodes w1 !! n = Some (Node fd (Some (length (arrays w)))) ∧
    arrays w1 !! length (arrays w) = Some [] ∧
    indexes w1 = indexes w ∧
    localStorage w1 = <[storageKey holder := Json v1]> (localStorage w) ∧
    shape 0 (nodes w1) (arrays w1) (root (tree holder)) v1 ∧
    height v1 ≤ height v.
Proof.
  intros holder [Hm Hok] Hroomy Hp Hsh Hh.
  destruct (node_ok_inv _ _ _ (Hok _ _ Hp)) as (fd & ch & Hn & Hch).
  assert (Hlt : n < length (nodes w)) by (by eapply lookup_lt_Some).
  set (a' := length (arrays w)).
  set (w7 := with_nodes (λ h, <[n := Node fd (Some a')]> h) (grow [] [[]] w)).
  assert (H7 : clear stack (tree holder) p w = (Ok (), w7))
    by (by apply (clear_run stack (tree holder) p w n fd ch)).
  assert (Hn7 : nodes w7 !! n = Some (Node fd (Some a'))).
  { simpl. apply list_lookup_insert_eq. rewrite length_app. lia. }
  assert (Ha7 : arrays w7 !! a' = Some []) by (simpl; by apply list_lookup_middle).
  assert (Hkeep : ∀ l o, l ≠ n → nodes w !! l = Some o → nodes w7 !! l = Some o).
  { intros l o Hne Hl. simpl. rewrite list_lookup_insert_ne by done.
    by apply lookup_app_l_Some. }
  assert (HA7 : ∀ a l, arrays w !! a = Some l → arrays w7 !! a = Some l).
  { intros a l Hl. simpl. by apply lookup_app_l_Some. }
  destruct (proj1 (shape_graft 0 (nodes w) (arrays w) (nodes w7) (arrays w7)
              n fd a' [] [] 0 Hkeep HA7 Hn7 Ha7 ltac:(constructor) ltac:(simpl; lia)
              eq_refl) _ _ Hsh)
    as (v1 & Hsh1 & Hh1 & _).
  exists (with_localStorage (λ s, <[storageKey holder := Json v1]> s) w7), fd, v1.
  split.
  { unfold expandableNodeClickHandler, clearNode. fold holder.
    rewrite (bind_ok _ _ _ _ _ H7).
    rewrite (saveState_run 0 stack _ v1 w7); [done|done|lia|apply Hroomy]. }
  split; [unfold fileData_at; by rewrite Hn|].
  split; [done|]. split; [done|]. split; [done|]. split; [done|]. split; [done|]. lia.
Qed.

Lemma collapsing_empties_children_witness :
  ∃ w1 fd v1,
    expandableNodeClickHandler 8 settings_A true "" expanded_A = (Ok (), w1) ∧
    fileData_at (nodes expanded_A) 0 = Some fd ∧
    nodes w1 !! 0 = Some (Node fd (Some (length (arrays expanded_A)))) ∧
    arrays w1 !! length (arrays expanded_A) = Some [] ∧
    indexes w1 = indexes expanded_A ∧
    localStorage w1 = <[storageKey holder_A := Json v1]> (localStorage expanded_A) ∧
    shape 0 (nodes w1) (arrays w1) 0 v1 ∧
    height v1 ≤ height (JNode default_fileData (Some [JNode dir_a (Some [])])).
Proof.
  apply (collapsing_empties_children 8 settings_A "" expanded_A 0
           (JNode default_fileData (Some [JNode dir_a (Some [])]))).
  - split; [vm_compute; lia|]. apply (bool_decide_unpack _). vm_compute. exact I.
  - intros s. reflexivity.
  - vm_compute. reflexivity.
  - eapply shape_parent;
      [lia | vm_compute; reflexivity | vm_compute; reflexivity |].
    repeat constructor. eapply shape_parent;
      [lia | vm_compute; reflexivity | vm_compute; reflexivity | constructor].
  - vm_compute. lia.
Defined.

(** ** An empty directory of a static document, expanded twice *)

Lemma json_list_short_run this p callback w n fd a elems :
  the_map (pathToNodeIndex (JsonDataProvider.tree this)) w !! p = Some n →
  nodes w !! n = Some (Node fd (Some a)) →
  arrays w !! a = Some elems →
  length elems ≤ 1 →
  JsonDataProvider.list this p callback w = callback a w.
Proof.
  intros Hp Hn Ha Hlen. unfold JsonDataProvider.list.
  rewrite (bind_ok _ _ _ _ _ (get_run_found _ _ _ _ Hp)). simpl as_node.
  rewrite (bind_ok _ _ _ _ _ (ret_run _ _)).
  rewrite (bind_ok _ _ _ _ _ (fields_run _ _ _ _ Hn)).
  assert (Hsort : Array_sort (Some a) sortNodes w = (Ok (), w)).
  { unfold Array_sort. rewrite (bind_ok _ _ _ _ _ (read_array_run _ _ _ Ha)).
    destruct elems as [|x [|y elems]]; [| |simpl in Hlen; lia];
      simpl; unfold write_array; rewrite ?bind_run, ?ret_run;
      f_equal; apply world_eq; try done; simpl; by apply list_insert_id. }
  by rewrite (bind_ok _ _ _ _ _ Hsort).
Qed.

Lemma onListed_empty_run stack settings p data w n fd ch v :
  let this := tree (stateHolder settings) in
  let e := length (nodes w) in
  let result := length (arrays w) in
  roomy w →
  the_map (pathToNodeIndex this) w !! p = Some n →
  nodes w !! n = Some (Node fd ch) →
  (expandable fd = true → ∃ a l, ch = Some a ∧ arrays w !! a = Some l) →
  arrays w !! data = Some [] →
  shape 0 (nodes w) (arrays w) (root this) v →
  height v < stack →
  ∃ v1,
    onListed stack settings p data w =
    (Ok (),
     with_localStorage (λ s, <[storageKey (stateHolder settings) := Json v1]> s)
       (with_nodes (λ h, <[n := Node fd (Some result)]> h)
          (with_arrays (λ h, <[result := [e]]> h)
             (with_arrays (λ h, h ++ [[]])
                (with_arrays (λ h, <[data := [e]]> h)
                   (with_nodes (λ h, h ++ [EmptyMarker]) w)))))) ∧
    shape 0 (<[n := Node fd (Some result)]> (nodes w ++ [EmptyMarker]))
      (<[result := [e]]> (<[data := [e]]> (arrays w) ++ [[]])) (root this) v1 ∧
    height v1 ≤ height v + 1.
Proof.
  intros this e result Hroomy Hp Hn Hch Hdata Hsh Hh.
  assert (Hlt : n < length (nodes w)) by (by eapply lookup_lt_Some).
  assert (Hdlt : data < length (arrays w)) by (by eapply lookup_lt_Some).
  set (w2 := with_arrays (λ h, <[data := [e]]> h)
               (with_nodes (λ h, h ++ [EmptyMarker]) w)).
  assert (H2 : (emptyNode ← new_node EmptyMarker;
                Array_push data emptyNode) w = (Ok (), w2)).
  { rewrite bind_run. unfold new_node.
    rewrite (Array_push_run data e []); [done|]. simpl. done. }
  set (w4 := with_arrays (λ h, <[result := [e]]> h)
               (with_arrays (λ h, h ++ [[]]) w2)).
  assert (Hres : length (arrays w2) = result) by (simpl; by rewrite length_insert).
  assert (H4 : copyChildren data w2 = (Ok result, w4)).
  { unfold copyChildren. rewrite bind_run. unfold new_array. rewrite Hres.
    set (w3 := with_arrays _ w2).
    assert (Hd3 : arrays w3 !! data = Some [e]).
    { simpl. apply lookup_app_l_Some. by apply list_lookup_insert_eq. }
    rewrite (bind_ok _ _ _ _ _ (read_array_run _ _ _ Hd3)).
    simpl forEach.
    assert (He3 : nodes w3 !! e = Some EmptyMarker) by (simpl; by apply list_lookup_middle).
    rewrite !bind_run. rewrite (read_node_run _ _ _ He3). cbn [isEmptyNode].
    rewrite (Array_push_run result e []); [done|].
    simpl. apply list_lookup_middle. by rewrite length_insert. }
  assert (Hn4 : nodes w4 !! n = Some (Node fd ch)) by (simpl; by apply lookup_app_l_Some).
  assert (Hch4 : expandable fd = true → ∃ a l, ch = Some a ∧ arrays w4 !! a = Some l).
  { intros Hex. destruct (Hch Hex) as (a0 & l & -> & Hl). exists a0.
    assert (a0 < length (arrays w)) by (by eapply lookup_lt_Some).
    assert (is_Some (arrays w4 !! a0)) as [l' Hl'].
    { apply lookup_lt_is_Some. simpl. rewrite length_insert, length_app, length_insert. lia. }
    eauto. }
  set (w5 := with_nodes (λ h, <[n := Node fd (Some result)]> h) w4).
  assert (Hr5 : arrays w5 !! result = Some [e]).
  { simpl. apply list_lookup_insert_eq. rewrite length_app, length_insert. simpl. lia. }
  assert (He5 : nodes w5 !! e = Some EmptyMarker).
  { simpl. rewrite list_lookup_insert_ne by (unfold e; lia). by apply list_lookup_middle. }
  assert (Hn5 : nodes w5 !! n = Some (Node fd (Some result))).
  { simpl. apply list_lookup_insert_eq. rewrite length_app. lia. }
  assert (H5 : set stack this p result w4 = (Ok n, w5)).
  { rewrite (set_run stack this p result w4 n fd ch Hp Hn4 Hch4). fold w5.
    rewrite (bind_ok _ _ _ _ _ (read_array_run _ _ _ Hr5)). simpl forEach.
    rewrite !bind_run. by rewrite (index_marker_run _ _ _ _ He5). }
  assert (Hkeep : ∀ l o, l ≠ n → nodes w !! l = Some o → nodes w5 !! l = Some o).
  { intros l o Hne Hl. simpl. rewrite list_lookup_insert_ne by done.
    by apply lookup_app_l_Some. }
  assert (HA5 : ∀ a l, arrays w !! a = Some l →
            arrays w5 !! a = Some l ∨
            ∃ l', arrays w5 !! a = Some l' ∧
                  Forall (λ x, nodes w5 !! x = Some EmptyMarker) l' ∧ length l' ≤ 1).
  { intros a l Hl. assert (a < length (arrays w)) by (by eapply lookup_lt_Some).
    simpl. rewrite list_lookup_insert_ne by (unfold result; lia).
    rewrite lookup_app_l by (rewrite length_insert; lia).
    destruct (decide (a = data)) as [->|Hne].
    - right. exists [e]. rewrite list_lookup_insert_eq by done.
      split; [done|]. split; [|simpl; lia]. by constructor.
    - left. by rewrite list_lookup_insert_ne. }
  destruct (proj1 (shape_replace 0 (nodes w) (arrays w) (nodes w5) (arrays w5)
              n fd result [e] 1 Hkeep HA5 Hn5 Hr5
              ltac:(by constructor) ltac:(simpl; lia)) _ _ Hsh)
    as (v1 & Hsh1 & Hh1).
  exists v1. split; [|split; [exact Hsh1 | exact Hh1]].
  unfold onListed. rewrite (bind_ok _ _ _ _ _ (read_array_run _ _ _ Hdata)).
  change (length (@nil nref) =? 0) with true. cbv iota.
  rewrite (bind_ok _ _ _ _ _ H2).
  rewrite (bind_ok _ _ _ _ _ H4). unfold addNodes. fold this.
  rewrite bind_run, (bind_ok _ _ _ _ _ H5).
  rewrite (bind_ok _ _ _ _ _ (saveState_run 0 stack _ v1 w5 Hsh1 ltac:(lia) (Hroomy _))).
  done.
Qed.

(** X19. Displaying an empty directory changes the static document.  With
    the static-document provider, where the browser takes what is written
    to the storage, expanding a path whose children array in
    the provider's tree is empty pushes the marker into that very array:
    afterwards the provider's array holds the marker, and the only child
    of the node in the state tree is the same marker object.  Expanding the
    path once more returns without an exception as well; no second marker
    is attached: the provider's array still holds the one marker, and the
    only child of the node in the state tree is again that same object. *)
Theorem static_listing_shares_the_marker stack settings provider p w n np fdp a v :
  let this := tree (stateHolder settings) in
  dataProvider settings = JsonDataProvider.provider provider →
  tree_ok w this →
  roomy w →
  the_map (pathToNodeIndex this) w !! p = Some n →
  the_map (pathToNodeIndex (JsonDataProvider.tree provider)) w !! p = Some np →
  np ≠ n →
  nodes w !! np = Some (Node fdp (Some a)) →
  arrays w !! a = Some [] →
  shape 0 (nodes w) (arrays w) (root this) v →
  height v + 1 < stack →
  ∃ w1 w2 e fd c1 c2,
    expandableNodeClickHandler stack settings false p w = (Ok (), w1) ∧
    arrays w1 !! a = Some [e] ∧
    nodes w1 !! e = Some EmptyMarker ∧
    nodes w1 !! n = Some (Node fd (Some c1)) ∧
    arrays w1 !! c1 = Some [e] ∧
    expandableNodeClickHandler stack settings false p w1 = (Ok (), w2) ∧
    arrays w2 !! a = Some [e] ∧
    nodes w2 !! e = Some EmptyMarker ∧
    nodes w2 !! n = Some (Node fd (Some c2)) ∧
    arrays w2 !! c2 = Some [e].
Proof.
  intros this Hprovider [Hm Hok] Hroomy Hp Hpp Hne Hnp Ha Hsh Hh.
  destruct (node_ok_inv _ _ _ (Hok _ _ Hp)) as (fd & ch & Hn & Hch).
  assert (Hlt : n < length (nodes w)) by (by eapply lookup_lt_Some).
  assert (Halt : a < length (arrays w)) by (by eapply lookup_lt_Some).
  destruct (onListed_empty_run stack settings p a w n fd ch v Hroomy Hp Hn Hch Ha Hsh
              ltac:(lia))
    as (v1 & Hrun1 & Hsh1 & Hh1).
  set (e := length (nodes w)) in *. set (c1 := length (arrays w)) in *.
  set (w1 := with_localStorage _ _) in Hrun1.
  assert (Ha1 : arrays w1 !! a = Some [e]).
  { simpl. rewrite list_lookup_insert_ne by (unfold c1; lia).
    apply lookup_app_l_Some. by apply list_lookup_insert_eq. }
  assert (He1 : nodes w1 !! e = Some EmptyMarker).
  { simpl. rewrite list_lookup_insert_ne by (unfold e; lia). by apply list_lookup_middle. }
  assert (Hn1 : nodes w1 !! n = Some (Node fd (Some c1))).
  { simpl. apply list_lookup_insert_eq. rewrite length_app. lia. }
  assert (Hc1 : arrays w1 !! c1 = Some [e]).
  { simpl. apply list_lookup_insert_eq. rewrite length_app, length_insert. simpl. lia. }
  assert (Hnp1 : nodes w1 !! np = Some (Node fdp (Some a))).
  { simpl. rewrite list_lookup_insert_ne by done. by apply lookup_app_l_Some. }
  assert (Hok1 : tree_ok w1 this).
  { split; [done|]. intros q r Hq. simpl.
    destruct (node_ok_inv _ _ _ (Hok q r Hq)) as (fdr & chr & Hr & Hchr).
    destruct (decide (r = n)) as [->|Hrn].
    - apply (node_ok_intro _ _ _ fd (Some c1)); [exact Hn1|]. intros _. by eexists.
    - apply (node_ok_intro _ _ _ fdr chr).
      + simpl. rewrite list_lookup_insert_ne by done. by apply lookup_app_l_Some.
      + intros Hex. destruct (Hchr Hex) as (a0 & l & -> & Hl). exists a0. split; [done|].
        apply lookup_lt_is_Some. apply lookup_lt_Some in Hl.
        rewrite length_insert, length_app, length_insert. lia. }
  destruct (onListed_run stack settings p a [e] [EmptyMarker] w1 n v1 Hok1 Hroomy Hp Ha1
              ltac:(done) ltac:(by repeat constructor) Hsh1 ltac:(lia))
    as (w2 & fd2 & cs & rs & v2 & Hrun2 & Hn2 & Hfd2 & Hcs & _ & Hsame & _ & _ & Hkeep2 &
        HA2 & _).
  assert (fd2 = fd) as ->.
  { unfold fileData_at in Hfd2. rewrite Hn1 in Hfd2. congruence. }
  assert (cs = [e]) as ->.
  { inversion Hsame as [|c x cs' xs' Hc Hrest]; subst. inversion Hrest; subst.
    by rewrite (Hc He1). }
  exists w1, w2, e, fd, c1, (length (arrays w1)).
  split.
  { unfold expandableNodeClickHandler. rewrite Hprovider. simpl list_children.
    unfold JsonDataProvider.provider. simpl.
    rewrite (json_list_short_run provider p _ w np fdp a [] Hpp Hnp Ha ltac:(simpl; lia)).
    exact Hrun1. }
  split; [done|]. split; [done|]. split; [done|]. split; [done|]. split.
  { unfold expandableNodeClickHandler. rewrite Hprovider. simpl list_children.
    rewrite (json_list_short_run provider p _ w1 np fdp a [e] Hpp Hnp1 Ha1
               ltac:(simpl; lia)).
    exact Hrun2. }
  split; [by apply HA2|]. split; [|split; [done|done]].
  apply Hkeep2; [|done]. intros ->. rewrite Hn1 in He1. done.
Qed.

Lemma static_listing_shares_the_marker_witness :
  ∃ w1 w2 e fd c1 c2,
    expandableNodeClickHandler 8 settings_static_A false "" static_A = (Ok (), w1) ∧
    arrays w1 !! 1 = Some [e] ∧
    nodes w1 !! e = Some EmptyMarker ∧
    nodes w1 !! 0 = Some (Node fd (Some c1)) ∧
    arrays w1 !! c1 = Some [e] ∧
    expandableNodeClickHandler 8 settings_static_A false "" w1 = (Ok (), w2) ∧
    arrays w2 !! 1 = Some [e] ∧
    nodes w2 !! e = Some EmptyMarker ∧
    nodes w2 !! 0 = Some (Node fd (Some c2)) ∧
    arrays w2 !! c2 = Some [e].
Proof.
  apply (static_listing_shares_the_marker 8 settings_static_A provider_static_A ""
           static_A 0 1 default_fileData 1 default_root).
  - reflexivity.
  - split; [vm_compute; lia|]. apply (bool_decide_unpack _). vm_compute. exact I.
  - intros s. reflexivity.
  - vm_compute. reflexivity.
  - vm_compute. reflexivity.
  - lia.
  - vm_compute. reflexivity.
  - vm_compute. reflexivity.
  - eapply shape_parent;
      [lia | vm_compute; reflexivity | vm_compute; reflexivity | constructor].
  - vm_compute. lia.
Defined.

(** * Failures *)

#[local] Instance unheard_preorder : PreOrder unheard.
Proof.
  split.
  - by intros w.
  - intros w1 w2 w3 (H1 & H1' & H1'') (H2 & H2' & H2''). repeat split; congruence.
Qed.

#[local] Hint Extern 5 (keeps unheard _) => (intros ?; repeat split; reflexivity) : keeps.

Lemma unheard_index stack m n : keeps unheard (index stack m n).
Proof. revert n. induction stack; intros n; rewrite index_eq; keeps_go. Qed.

Lemma unheard_JSON_stringify stack n : keeps unheard (JSON_stringify stack n).
Proof.
  eapply keeps_weaken; [|apply JSON_stringify_pure]. intros w w' <-. reflexivity.
Qed.

Lemma unheard_construct v : keeps unheard (construct v).
Proof.
  induction v as [| fd | fd cs IH] using json_forall_ind; simpl; [keeps_go..|].
  kbind; [|keeps_go].
  induction IH as [|c cs Hc _ IHcs]; simpl; [keeps_go|].
  kbind; [exact Hc | intros y].
  kbind; [exact IHcs | keeps_go].
Qed.

#[local] Hint Resolve unheard_index unheard_JSON_stringify unheard_construct : keeps.

Lemma unheard_getIndexedFileDataTree stack n : keeps unheard (getIndexedFileDataTree stack n).
Proof. unfold getIndexedFileDataTree. keeps_go. Qed.

Lemma getIndexedFileDataTree_throws stack root w :
  match (getIndexedFileDataTree stack root w).1 with
  | Ok t => True
  | Throw e => e = TypeError ∨ e = RangeError
  end.
Proof.
  unfold getIndexedFileDataTree. rewrite bind_run. unfold new_map. rewrite bind_run.
  pose proof (index_throws stack (length (indexes w)) root
                (with_indexes (λ h, h ++ [∅]) w)) as H.
  by destruct (index stack (length (indexes w)) root _) as [[[]|e] w2].
Qed.

Section throws.
Context (P : exn → Prop).

Lemma throws_ret {A} (a : A) : throws P (mret a : M A).
Proof. by intros w. Qed.

Lemma throws_throw {A} e : P e → throws P (throw e : M A).
Proof. by intros H w. Qed.

Lemma throws_bind {A B} (m : M A) (f : A → M B) :
  throws P m → (∀ a, throws P (f a)) → throws P (m ≫= f).
Proof.
  intros Hm Hf w. rewrite bind_run. specialize (Hm w).
  destruct (m w) as [[x|e] w1]; [apply Hf | done].
Qed.

Lemma throws_forEach {X} (l : list X) (f : X → M ()) :
  (∀ x, throws P (f x)) → throws P (forEach l f).
Proof. intros Hf w. apply forEach_throws. intros x w0. apply Hf. Qed.

Lemma throws_mapM {X Y} (f : X → M Y) (l : list X) :
  (∀ x, throws P (f x)) → throws P (mapM f l).
Proof.
  intros Hf. induction l as [|x l IH]; simpl; [apply throws_ret|].
  apply throws_bind; [apply Hf | intros y].
  apply throws_bind; [apply IH | intros k; apply throws_ret].
Qed.

Hypothesis type_error : P TypeError.

Lemma throws_read_node n : throws P (read_node n).
Proof. intros w. unfold read_node. by destruct (nodes w !! n). Qed.

Lemma throws_read_array a : throws P (read_array a).
Proof. intros w. unfold read_array. by destruct (arrays w !! a). Qed.

Lemma throws_children_of children : throws P (children_of children).
Proof. destruct children; [apply throws_read_array | by apply throws_throw]. Qed.

Lemma throws_fields n : throws P (fields n).
Proof.
  apply throws_bind; [apply throws_read_node|].
  intros [fd ch|]; [apply throws_ret | by apply throws_throw].
Qed.

Hypothesis range_error : P RangeError.

Lemma throws_index stack m n : throws P (index stack m n).
Proof.
  intros w. pose proof (index_throws stack m n w) as H.
  destruct (index stack m n w).1 as [|e]; [done|]. by destruct H as [-> | ->].
Qed.

Lemma throws_JSON_stringify stack n : throws P (JSON_stringify stack n).
Proof.
  unfold JSON_stringify. generalize (@nil nat) at 1. generalize (@nil nat). revert n.
  induction stack as [|stack IH]; intros n inside_arrays inside; rewrite stringify_eq;
    (destruct (bool_decide (n ∈ inside)); [by apply throws_throw|]);
    (apply throws_bind; [apply throws_read_node|]); intros [fd [a|]|];
    try apply throws_ret;
    (destruct (bool_decide (a ∈ inside_arrays)); [by apply throws_throw|]);
    (apply throws_bind; [apply throws_read_array|]); intros elems;
    (apply throws_bind; [|intros ?; apply throws_ret]); apply throws_mapM; intros x.
  - by apply throws_throw.
  - apply IH.
Qed.
End throws.

Lemma fails_quietly_intro {A} (m : M A) w :
  throws operational m → keeps unheard m → fails_quietly m w.
Proof.
  intros Ht Hk. unfold fails_quietly. specialize (Ht w). specialize (Hk w).
  by destruct (m w) as [[x|e] w1].
Qed.

Lemma fails_quietly_bind {A B} (m : M A) (f : A → M B) w :
  throws operational m → keeps unheard m → (∀ x w1, fails_quietly (f x) w1) →
  fails_quietly (m ≫= f) w.
Proof.
  intros Ht Hk Hf. unfold fails_quietly. rewrite bind_run.
  specialize (Ht w). specialize (Hk w).
  destruct (m w) as [[x|e] w1]; [|done].
  specialize (Hf x w1). unfold fails_quietly in Hf. simpl in Hk.
  destruct (f x w1) as [[y|e] w2]; [done|].
  destruct Hf as [He Hu]. split; [done|]. by etrans.
Qed.

Lemma fails_quietly_then_ret {A B} (m : M A) (g : A → B) w :
  fails_quietly m w → fails_quietly (x ← m; mret (g x)) w.
Proof.
  unfold fails_quietly. rewrite bind_run. by destruct (m w) as [[x|e] w1].
Qed.

Lemma operational_TypeError : operational TypeError.
Proof. by left. Qed.

Lemma operational_RangeError : operational RangeError.
Proof. right. by left. Qed.

Lemma fails_quietly_saveState stack holder w : fails_quietly (saveState stack holder) w.
Proof.
  unfold saveState. apply fails_quietly_bind.
  - apply throws_JSON_stringify; [apply operational_TypeError | apply operational_RangeError].
  - apply unheard_JSON_stringify.
  - intros s w1. unfold fails_quietly, localStorage_setItem.
    destruct (quota w1 _); [done|]. split; [by right; right | reflexivity].
Qed.

(** [set] and [clear] from the point where the node has been found. *)
Lemma set_found_throws stack this a (node : nref) :
  throws operational
    ('(fileData, children) ← fields node;
     (if expandable fileData then
        elems ← children_of children;
        forEach elems (removeFromIndex stack (pathToNodeIndex this))
      else mret ());;
     write_node node (Node fileData (Some a));;
     elems ← read_array a;
     forEach elems (index stack (pathToNodeIndex this));;
     mret node).
Proof.
  apply throws_bind; [apply throws_fields, operational_TypeError|]. intros [fd ch].
  apply throws_bind.
  { destruct (expandable fd); [|apply throws_ret].
    apply throws_bind; [apply throws_children_of, operational_TypeError|].
    intros elems. apply throws_forEach. intros x. rewrite removeFromIndex_returns.
    apply throws_ret. }
  intros _. apply throws_bind; [by intros w|]. intros _.
  apply throws_bind; [apply throws_read_array, operational_TypeError|]. intros elems.
  apply throws_bind; [|intros ?; apply throws_ret].
  apply throws_forEach. intros x.
  apply throws_index; [apply operational_TypeError | apply operational_RangeError].
Qed.

Lemma set_found_unheard stack this a (node : nref) :
  keeps unheard
    ('(fileData, children) ← fields node;
     (if expandable fileData then
        elems ← children_of children;
        forEach elems (removeFromIndex stack (pathToNodeIndex this))
      else mret ());;
     write_node node (Node fileData (Some a));;
     elems ← read_array a;
     forEach elems (index stack (pathToNodeIndex this));;
     mret node).
Proof. keeps_go. Qed.

Lemma clear_found_throws stack this (node : nref) :
  throws operational
    ('(fileData, children) ← fields node;
     (if expandable fileData then
        elems ← children_of children;
        forEach elems (removeFromIndex stack (pathToNodeIndex this))
      else mret ());;
     empty ← new_array [];
     write_node node (Node fileData (Some empty))).
Proof.
  apply throws_bind; [apply throws_fields, operational_TypeError|]. intros [fd ch].
  apply throws_bind.
  { destruct (expandable fd); [|apply throws_ret].
    apply throws_bind; [apply throws_children_of, operational_TypeError|].
    intros elems. apply throws_forEach. intros x. rewrite removeFromIndex_returns.
    apply throws_ret. }
  intros _. apply throws_bind; [by intros w|]. intros e. by intros w.
Qed.

Lemma clear_found_unheard stack this (node : nref) :
  keeps unheard
    ('(fileData, children) ← fields node;
     (if expandable fileData then
        elems ← children_of children;
        forEach elems (removeFromIndex stack (pathToNodeIndex this))
      else mret ());;
     empty ← new_array [];
     write_node node (Node fileData (Some empty))).
Proof. keeps_go. Qed.

(** C7, amended. [get] returns on every input, without an exception, and
    changes nothing but the console: it logs the miss when the path names
    nothing at all, and logs nothing when it returns a node or a member the
    index object inherits.  [set], [clear], [addNodes] and [clearNode]
    invoked with a path that names no indexed node do not return: they
    throw a [TypeError] where they read what [get] returned, and the tree,
    the index, the storage and the alerts are as before, the console too
    but for the line [get] may have logged.  On every other input, whenever
    one of the four throws, the exception is a [TypeError], a [RangeError]
    or the [QuotaExceededError] of the storage, and the storage, the
    console and the alerts are as before. *)
Theorem core_operations_fail_by_exception stack holder p a w :
  let this := tree holder in
  let i := the_map (pathToNodeIndex this) w in
  let logged := match property (nodes w) i p with
                | Some _ => w
                | None => miss p w
                end in
  get this p w = (Ok (property (nodes w) i p), logged) ∧
  match i !! p with
  | None =>
      set stack this p a w = (Throw TypeError, logged) ∧
      clear stack this p w = (Throw TypeError, logged) ∧
      addNodes stack holder p a w = (Throw TypeError, logged) ∧
      clearNode stack holder p w = (Throw TypeError, logged)
  | Some _ =>
      fails_quietly (set stack this p a) w ∧
      fails_quietly (clear stack this p) w ∧
      fails_quietly (addNodes stack holder p a) w ∧
      fails_quietly (clearNode stack holder p) w
  end.
Proof.
  intros this i logged. split.
  { rewrite get_run. fold i. unfold logged. by destruct (property (nodes w) i p). }
  destruct (i !! p) as [n|] eqn:Hp; [|by apply unindexed_path_throws].
  assert (Hset : ∃ m : M nat,
            set stack this p a w = m w ∧ throws operational m ∧ keeps unheard m).
  { eexists. split; [|split; [apply (set_found_throws stack this a n) |
                              apply (set_found_unheard stack this a n)]].
    unfold set. rewrite get_as_node_run. fold i. by rewrite Hp. }
  assert (Hclear : ∃ m : M (),
            clear stack this p w = m w ∧ throws operational m ∧ keeps unheard m).
  { eexists. split; [|split; [apply (clear_found_throws stack this n) |
                              apply (clear_found_unheard stack this n)]].
    unfold clear. rewrite get_as_node_run. fold i. by rewrite Hp. }
  destruct Hset as (ms & Hs & Hst & Hsk). destruct Hclear as (mc & Hc & Hct & Hck).
  split; [|split; [|split]].
  - unfold fails_quietly. rewrite Hs. by apply fails_quietly_intro.
  - unfold fails_quietly. rewrite Hc. by apply fails_quietly_intro.
  - unfold fails_quietly, addNodes. fold this. rewrite bind_run, Hs, <- bind_run.
    apply fails_quietly_bind; [done..|]. intros u w1.
    apply fails_quietly_then_ret, fails_quietly_saveState.
  - unfold fails_quietly, clearNode. fold this. rewrite bind_run, Hc, <- bind_run.
    apply fails_quietly_bind; [done..|]. intros u w1. apply fails_quietly_saveState.
Qed.

(** C6, amended. At initialization for a tree identifier.  When no state is
    persisted under the key, a default root (a directory with path [""] and
    an empty [children] array) is built and written to the storage at once;
    if the browser takes it, the root is indexed and the holder is returned
    without an error; if the browser refuses it, the [QuotaExceededError]
    of [setItem] reaches the caller, with the root built and the storage as
    it was.  When a text is persisted under the key, nothing is built in
    its place and nothing is written over it, whatever the text is: the
    storage, the console and the alerts stay as they were.  A text that is
    not JSON makes [JSON.parse] throw, and the [SyntaxError] reaches the
    caller with nothing changed.  A JSON text whose value is no object of a
    tree makes [index] throw, and the [TypeError] reaches the caller.  For
    a node document, the holder is returned under the key of the
    identifier, or a [TypeError] or a [RangeError] of [index] reaches the
    caller; the holder is returned, with the document loaded and indexed
    ([get] finds a node exactly at the paths of the entries of the
    document), when every expandable node of the document has a [children]
    array and the document is nested no deeper than the stack of the
    engine has room for. *)
Theorem state_holder_initialization stack id w :
  let key := "ru.kozobrodov.fileTree$" +:+ id in
  let run := getLocalStorageStateHolder stack id w in
  match localStorage w !! key with
  | None =>
      run =
      if quota w (<[key := Json default_root]> (localStorage w))
      then (Ok {| storageKey := key;
                  tree := {| root := length (nodes w);
                             pathToNodeIndex := length (indexes w) |} |},
            initialized key w)
      else (Throw QuotaExceededError,
            grow [Node default_fileData (Some (length (arrays w)))] [[]] w)
  | Some (Json v) =>
      unheard w run.2 ∧
      match run.1 with
      | Ok holder => storageKey holder = key
      | Throw e => e = TypeError ∨ e = RangeError
      end ∧
      (indexable v = true → height v ≤ stack →
       ∃ holder w',
         run = (Ok holder, w') ∧
         storageKey holder = key ∧
         shape (length (nodes w)) (nodes w') (arrays w') (root (tree holder)) v ∧
         finds (tree holder) (entries v) w')
  | Some (NotATree _) =>
      run = (Throw TypeError, with_indexes (λ h, h ++ [∅]) w)
  | Some (Malformed _) =>
      run = (Throw SyntaxError, w)
  end.
Proof.
  intros key run. unfold run, getLocalStorageStateHolder. fold key.
  rewrite bind_run. unfold localStorage_getItem.
  destruct (localStorage w !! key) as [[v|s|s]|] eqn:Hkey.
  - simpl JSON_parse.
    destruct (construct_spec v w) as (n & N2 & A2 & Hrun & Hshape).
    split; [|split].
    + assert (Hk : keeps unheard
                (r ← construct v;
                 t ← getIndexedFileDataTree stack r;
                 mret {| storageKey := key; tree := t |})).
      { kbind; [apply unheard_construct | intros r].
        kbind; [apply unheard_getIndexedFileDataTree | intros t; kret]. }
      apply Hk.
    + rewrite (bind_ok _ _ _ _ _ Hrun). rewrite bind_run.
      pose proof (getIndexedFileDataTree_throws stack n (grow N2 A2 w)) as H.
      destruct (getIndexedFileDataTree stack n (grow N2 A2 w)) as [[t|e] w2]; done.
    + intros Hidx Hh.
      rewrite (bind_ok _ _ _ _ _ Hrun). unfold getIndexedFileDataTree.
      rewrite bind_run. unfold new_map. rewrite bind_run.
      set (w2 := with_indexes _ _).
      assert (Hsh : shape (length (nodes w)) (nodes w2) (arrays w2) n v)
        by (by apply Hshape).
      assert (Hm : length (indexes w) < length (indexes w2)).
      { simpl. rewrite length_app. simpl. lia. }
      destruct (proj1 (index_shape _ (nodes w2) (arrays w2)) n v Hsh stack
                  (length (indexes w)) w2)
        as (w' & Hrun' & Hpost); try done.
      destruct (index_post_view _ _ _ _ _ _ _ Hpost) as (i & -> & Hview & _).
      change (indexes (grow N2 A2 w)) with (indexes w).
      rewrite (bind_ok _ _ _ _ _ Hrun'). eexists _, _. split; [reflexivity|].
      split; [done|]. split; [done|].
      apply finds_of_view. intros q. rewrite <- put_all_last. f_equal.
      unfold view. rewrite the_map_with_map by done. simpl. simpl in Hview.
      rewrite Hview. f_equal. unfold the_map. simpl.
      rewrite list_lookup_middle by done. simpl. by rewrite fmap_empty.
  - simpl JSON_parse. unfold no_tree_object. rewrite bind_run.
    unfold getIndexedFileDataTree. rewrite bind_run. unfold new_map. rewrite bind_run.
    assert (Hr : read_node (length (nodes w)) (with_indexes (λ h, h ++ [∅]) w) =
                 (Throw TypeError, with_indexes (λ h, h ++ [∅]) w)).
    { unfold read_node. simpl nodes. by rewrite lookup_ge_None_2. }
    assert (Hi : index stack (length (indexes w)) (length (nodes w))
                   (with_indexes (λ h, h ++ [∅]) w) =
                 (Throw TypeError, with_indexes (λ h, h ++ [∅]) w)).
    { rewrite index_eq. by rewrite (bind_throw _ _ _ _ _ Hr). }
    by rewrite (bind_throw _ _ _ _ _ Hi).
  - reflexivity.
  - rewrite bind_run, initState_run.
    destruct (quota w _); [|reflexivity].
    unfold getIndexedFileDataTree. rewrite bind_run. unfold new_map.
    rewrite bind_run. simpl indexes.
    set (w2 := with_indexes _ _).
    assert (Hn : nodes w2 !! length (nodes w) =
                 Some (Node default_fileData (Some (length (arrays w))))).
    { simpl. by apply list_lookup_middle. }
    assert (Ha : ∀ i, arrays (with_map (length (indexes w)) i w2) !! length (arrays w) = Some []).
    { intros i. simpl. by apply list_lookup_middle. }
    assert (Hend : ∀ w0, match stack with
                         | 0 => forEach [] (λ _ : nref, throw RangeError)
                         | S stack => forEach [] (index stack (length (indexes w)))
                         end w0 = (Ok (), w0)) by (by destruct stack).
    assert (Hindex : index stack (length (indexes w)) (length (nodes w)) w2 =
                     (Ok (), with_map (length (indexes w))
                               (<["" := length (nodes w)]> (the_map (length (indexes w)) w2)) w2)).
    { rewrite index_eq. rewrite (bind_ok _ _ _ _ _ (read_node_run _ _ _ Hn)).
      cbn [isEmptyNode]. rewrite (bind_ok _ _ _ _ _ (map_put_run _ _ _ _)).
      change (expandable default_fileData) with true.
      change (path default_fileData) with "". cbv iota. simpl children_of.
      rewrite (bind_ok _ _ _ _ _ (read_array_run _ _ _ (Ha _))).
      apply Hend. }
    rewrite (bind_ok _ _ _ _ _ Hindex).
    rewrite !ret_run. f_equal.
    apply world_eq; simpl; try done.
    unfold the_map. simpl. rewrite list_lookup_middle by done. simpl.
    rewrite insert_app_r_alt by done. by rewrite Nat.sub_diag.
Qed.

Lemma state_holder_initialization_witness :
  ∃ holder w',
    getLocalStorageStateHolder 8 "A" fresh_A = (Ok holder, w') ∧
    storageKey holder = "ru.kozobrodov.fileTree$A" ∧
    shape (length (nodes fresh_A)) (nodes w') (arrays w') (root (tree holder))
      default_root ∧
    finds (tree holder) (entries default_root) w'.
Proof.
  refine (proj2 (proj2 (state_holder_initialization 8 "A" fresh_A)) _ _).
  - reflexivity.
  - vm_compute. lia.
Defined.
